(** * gds_tools: structure graph and grid autorouter

    A shallow embedding of [gds_tools/classes.py] (the [GDStructure] class:
    copy, rotate, translate, mirror, connect, disconnect), of
    [gds_tools/functions.py] ([VecRot], [cluster]) and of
    [gds_tools/routing.py] ([lookaround], [router]).

    Python objects live in a store indexed by object identity; the methods
    become store transformers.  Python floats are binary64 primitive floats,
    Python ints are [Z], dicts are insertion-ordered association lists. *)

From Stdlib Require Import ZArith List Bool Lia.
From Stdlib Require Import Floats.PrimFloat.
From Stdlib Require Import Strings.String.
From stdpp Require Import base decidable option relations list strings pretty.

Local Open Scope Z_scope.

(* ================================================================== *)
(** ** Python values *)

(** Exceptions of the Python code.  [Dangling] is the one outcome with no
    Python counterpart: a reference to an identity outside the store, which
    a Python heap cannot contain. *)
Inductive exn :=
| KeyError | IndexError | ValueError | ZeroDivisionError | OverflowError
| Dangling.

Inductive res (A : Type) :=
| Ok (a : A)
| Raise (e : exn)
| OutOfFuel.
Arguments Ok {A} a.
Arguments Raise {A} e.
Arguments OutOfFuel {A}.

Definition bind {A B} (m : res A) (f : A -> res B) : res B :=
  match m with
  | Ok a => f a
  | Raise e => Raise e
  | OutOfFuel => OutOfFuel
  end.

Notation "'let*' p ':=' m 'in' k" := (bind m (fun p => k))
  (at level 10, p pattern, m at level 100, k at level 200).

Definition lift {A} (e : exn) (o : option A) : res A :=
  match o with Some a => Ok a | None => Raise e end.

(** Dictionary keys used by the code: port names and synthetic link names
    are strings, [copy] keys the children by position, [connect] with
    [obj_link] keys by the object itself. *)
Inductive key :=
| KStr (s : string)
| KInt (i : Z)
| KObj (o : nat).

#[global] Instance key_eq_dec : EqDecision key.
Proof. solve_decision. Defined.

(** A Python [dict]: association list in insertion order, keys unique. *)
Module Dict.
Section Ops.
Context {V : Type}.

Definition t := list (key * V).

Fixpoint get (k : key) (d : t) : option V :=
  match d with
  | [] => None
  | (k', v) :: d' => if decide (k' = k) then Some v else get k d'
  end.

(** [d[k] = v]: overwrite in place, or append a new entry. *)
Fixpoint set (k : key) (v : V) (d : t) : t :=
  match d with
  | [] => [(k, v)]
  | (k', v') :: d' =>
      if decide (k' = k) then (k, v) :: d' else (k', v') :: set k v d'
  end.

(** [del d[k]] *)
Fixpoint del (k : key) (d : t) : t :=
  match d with
  | [] => []
  | (k', v') :: d' =>
      if decide (k' = k) then del k d' else (k', v') :: del k d'
  end.

Definition keys (d : t) : list key := map fst d.

End Ops.
Arguments t V : clear implicits.
End Dict.

Abbreviation dict := Dict.t.

(** Truthiness of a Python container. *)
Definition nonempty {A} (l : list A) : bool :=
  match l with [] => false | _ => true end.

(* ================================================================== *)
(** ** Floats *)

Definition point : Type := float * float.

(** [np.pi], the binary64 nearest to pi (3.141592653589793). *)
Definition np_pi : float := 0x1.921fb54442d18p+1%float.

(** The literal [1E-20] of [mirror], as binary64. *)
Definition eps_mirror : float := 0x1.79ca10c924223p-67%float.

(** Python float [/]: a zero divisor raises. *)
Definition py_div (x y : float) : res float :=
  if (y =? 0)%float then Raise ZeroDivisionError else Ok (x / y)%float.

(** Python float [a**2]: the square, with the overflow of a finite base
    reported as [OverflowError]. *)
Definition py_sq (a : float) : res float :=
  let r := (a * a)%float in
  if is_infinity r && negb (is_infinity a) then Raise OverflowError else Ok r.

(** The numeric routines the code takes from numpy and from the Python
    runtime: [np.cos], [np.sin] and the float remainder [%]. *)
Class Libm := {
  np_cos : float -> float;
  np_sin : float -> float;
  py_fmod : float -> float -> float
}.

(* ================================================================== *)
(** ** classes.py: the GDStructure object *)

(** The gdspy shape held in [self.structure] is opaque to this code, which
    only creates it and calls its in-place transforms.  A shape is therefore
    represented by how it was made followed by the transform calls it has
    received, in order. *)
Inductive gop :=
| GShape (h : nat)                                  (* a factory-made shape *)
| GPolyPath (pts : list point) (ws : list float + float)
| GFlexPath (pts : list point) (ws : list float + float)
| GRotate (rad : float)                             (* .rotate(rad) *)
| GTranslate (dx dy : float)                        (* .translate(dx, dy) *)
| GMirror (p1 p2 : point).                          (* .mirror(p1, p2) *)

(** The attributes of a [GDStructure]; [method] stands for the stored
    builder ([method] with its [args]), which the methods below only reset
    or replace. *)
Record GDStructure := mkGDS {
  structure : list gop;
  endpoints : dict point;
  endpoint_dims : dict (option float);
  endpoint_directions : option (dict float);
  compound : list nat;
  prev : dict nat;
  next : dict nat;
  method : option nat
}.

(** [GDStructure(structure, endpoints, endpoint_dims, endpoint_directions)] *)
Definition new_GDStructure (s : list gop) (e : dict point)
    (d : dict (option float)) (dirs : option (dict float)) : GDStructure :=
  mkGDS s e d dirs [] [] [] None.

Definition set_structure (n : GDStructure) (s : list gop) :=
  mkGDS s (endpoints n) (endpoint_dims n) (endpoint_directions n)
        (compound n) (prev n) (next n) (method n).
Definition set_endpoints (n : GDStructure) (e : dict point) :=
  mkGDS (structure n) e (endpoint_dims n) (endpoint_directions n)
        (compound n) (prev n) (next n) (method n).
Definition set_directions (n : GDStructure) (d : option (dict float)) :=
  mkGDS (structure n) (endpoints n) (endpoint_dims n) d
        (compound n) (prev n) (next n) (method n).
Definition set_compound (n : GDStructure) (c : list nat) :=
  mkGDS (structure n) (endpoints n) (endpoint_dims n) (endpoint_directions n)
        c (prev n) (next n) (method n).
Definition set_prev (n : GDStructure) (p : dict nat) :=
  mkGDS (structure n) (endpoints n) (endpoint_dims n) (endpoint_directions n)
        (compound n) p (next n) (method n).
Definition set_next (n : GDStructure) (p : dict nat) :=
  mkGDS (structure n) (endpoints n) (endpoint_dims n) (endpoint_directions n)
        (compound n) (prev n) p (method n).

(** The heap: object identity is the position in the store. *)
Abbreviation store := (list GDStructure).

Definition deref (st : store) (o : nat) : res GDStructure :=
  lift Dangling (st !! o).

(** [if self.endpoint_directions:] -- neither [None] nor empty. *)
Definition has_directions (n : GDStructure) : bool :=
  match endpoint_directions n with
  | Some d => nonempty d
  | None => false
  end.

(** The two link maps, for the loops that treat them alike. *)
Inductive side := Prev | Next.

#[global] Instance side_eq_dec : EqDecision side.
Proof. solve_decision. Defined.

Definition links (s : side) (n : GDStructure) : dict nat :=
  match s with Prev => prev n | Next => next n end.

Definition set_links (s : side) (n : GDStructure) (d : dict nat) :=
  match s with Prev => set_prev n d | Next => set_next n d end.

Definition flip (s : side) : side :=
  match s with Prev => Next | Next => Prev end.

(** *** Transform propagation

    [rotate], [translate] and [mirror] share one skeleton: mark [self] in
    [signal_from], transform the shape and the ports of [self], then walk
    [self.prev] and [self.next] and recurse into every linked object that
    is not yet in [signal_from].  [signal_from] is one list object handed
    down and mutated by every call, so it is threaded through.  The skeleton
    is written once over the per-object body [act], which also returns the
    arguments as the body leaves them ([mirror] rebinds [p1]). *)
Section Propagate.
Context {P : Type}.
Variable act : P -> GDStructure -> res (GDStructure * P).

(** [for i in self.<side>: if self.<side>[i] not in signal_from ...:
       signal_from.append(self.<side>[i]); self.<side>[i].<method>(...)] *)
Fixpoint walk (call : store -> nat -> list (option nat) ->
                      res (store * list (option nat)))
    (s : side) (self : nat) (ks : list key)
    (st : store) (sf : list (option nat)) : res (store * list (option nat)) :=
  match ks with
  | [] => Ok (st, sf)
  | i :: ks' =>
      let* me := deref st self in
      let* tgt := lift KeyError (Dict.get i (links s me)) in
      if decide (Some tgt ∈ sf) then walk call s self ks' st sf
      else
        let* (st', sf') := call st tgt (sf ++ [Some tgt]) in
        walk call s self ks' st' sf'
  end.

Fixpoint propagate (fuel : nat) (par : P) (st : store) (self : nat)
    (sf : list (option nat)) : res (store * list (option nat)) :=
  match fuel with
  | O => OutOfFuel
  | S fuel' =>
      let sf1 := if decide (Some self ∈ sf) then sf else sf ++ [Some self] in
      let* me := deref st self in
      let* (me', par') := act par me in
      let st1 := <[self := me']> st in
      let* (st2, sf2) :=
        walk (propagate fuel' par') Prev self (Dict.keys (prev me')) st1 sf1 in
      let* me2 := deref st2 self in
      walk (propagate fuel' par') Next self (Dict.keys (next me2)) st2 sf2
  end.

(** A call from outside: [signal_from = None] becomes [[None]]. *)
Definition propagate_top (par : P) (st : store) (self : nat) : res store :=
  let* (st', _) := propagate (S (length st)) par st self [None] in
  Ok st'.

End Propagate.

Section Methods.
Context `{Libm}.
Local Open Scope float_scope.

(** functions.py: [RotMat] and [VecRot] (with the default [origin]). *)
Definition RotMat (rad : float) : (float * float) * (float * float) :=
  ((np_cos rad, - np_sin rad), (np_sin rad, np_cos rad)).

Definition VecRot (rad : float) (vec : point) : point :=
  let origin : point := (0, 0) in
  let '((a, b), (c, d)) := RotMat rad in
  let x := fst vec - fst origin in
  let y := snd vec - snd origin in
  ((a * x + b * y) + fst origin, (c * x + d * y) + snd origin).

(** *** rotate *)

(** [for i in self.endpoints: ...] of [rotate]. *)
Fixpoint rotate_ports (rad : float) (ks : list key) (me : GDStructure)
    : res GDStructure :=
  match ks with
  | [] => Ok me
  | i :: ks' =>
      let* v := lift KeyError (Dict.get i (endpoints me)) in
      let me1 := set_endpoints me (Dict.set i (VecRot rad v) (endpoints me)) in
      let* me2 :=
        match endpoint_directions me1 with
        | Some d =>
            if nonempty d then
              let* a := lift KeyError (Dict.get i d) in
              Ok (set_directions me1 (Some (Dict.set i (a + rad) d)))
            else Ok me1
        | None => Ok me1
        end in
      rotate_ports rad ks' me2
  end.

Definition rotate_body (rad : float) (me : GDStructure)
    : res (GDStructure * float) :=
  let me0 := set_structure me (structure me ++ [GRotate rad]) in
  let* me1 := rotate_ports rad (Dict.keys (endpoints me0)) me0 in
  Ok (me1, rad).

(** [self.rotate(rad, signal_from)], the recursion bounded by [fuel]. *)
Definition rotate_from (fuel : nat) (rad : float) :=
  propagate rotate_body fuel rad.

(** [self.rotate(rad)] *)
Definition rotate (st : store) (self : nat) (rad : float) : res store :=
  propagate_top rotate_body rad st self.

(** *** translate *)

Fixpoint translate_ports (delta : point) (ks : list key) (me : GDStructure)
    : res GDStructure :=
  match ks with
  | [] => Ok me
  | i :: ks' =>
      let* v := lift KeyError (Dict.get i (endpoints me)) in
      translate_ports delta ks'
        (set_endpoints me
           (Dict.set i (fst v + fst delta, snd v + snd delta) (endpoints me)))
  end.

Definition translate_body (delta : point) (me : GDStructure)
    : res (GDStructure * point) :=
  let me0 :=
    set_structure me (structure me ++ [GTranslate (fst delta) (snd delta)]) in
  let* me1 := translate_ports delta (Dict.keys (endpoints me0)) me0 in
  Ok (me1, delta).

Definition translate (st : store) (self : nat) (delta : point) : res store :=
  propagate_top translate_body delta st self.

(** *** mirror *)

(** One port of the loop [for k, v in self.endpoints.items()]: the line
    points are rebound, the port is reflected. *)
Definition mirror_point (p1 p2 v : point) : res (point * point) :=
  let p1 := if fst p1 =? fst p2 then (fst p1 + eps_mirror, snd p1) else p1 in
  let p1 := if snd p1 =? snd p2 then (fst p1, snd p1 + eps_mirror) else p1 in
  let* a := py_div (snd p2 - snd p1) (fst p2 - fst p1) in
  let c := snd p1 - a * fst p1 in
  let* a2 := py_sq a in
  let* d := py_div (fst v + (snd v - c) * a) (1 + a2) in
  let v2x := 2 * d - fst v in
  let v2y := 2 * d * a - snd v + 2 * c in
  Ok (p1, (v2x, v2y)).

Fixpoint mirror_ports (ks : list key) (p1 p2 : point) (me : GDStructure)
    : res (GDStructure * (point * point)) :=
  match ks with
  | [] => Ok (me, (p1, p2))
  | k :: ks' =>
      let* v := lift KeyError (Dict.get k (endpoints me)) in
      let* (p1', v2) := mirror_point p1 p2 v in
      mirror_ports ks' p1' p2
        (set_endpoints me (Dict.set k v2 (endpoints me)))
  end.

Definition mirror_body (line : point * point) (me : GDStructure)
    : res (GDStructure * (point * point)) :=
  let '(p1, p2) := line in
  let me0 := set_structure me (structure me ++ [GMirror p1 p2]) in
  mirror_ports (Dict.keys (endpoints me0)) p1 p2 me0.

Definition mirror (st : store) (self : nat) (p1 p2 : point) : res store :=
  propagate_top mirror_body (p1, p2) st self.

(** *** connect *)

(** [a.<s>[k] = b] *)
Definition link (st : store) (a : nat) (s : side) (k : key) (b : nat)
    : res store :=
  let* na := deref st a in
  Ok (<[a := set_links s na (Dict.set k b (links s na))]> st).

Definition connect (st : store) (self : nat) (ep_self : key) (to : nat)
    (ep_to : key) (offset : point) (obj_link rot : bool) : res store :=
  let* me := deref st self in
  let* other := deref st to in
  (* Rotate to correct orientation *)
  let* st1 :=
    if has_directions me && has_directions other && rot then
      let* d_to :=
        lift KeyError
          (Dict.get ep_to (default [] (endpoint_directions other))) in
      let* d_self :=
        lift KeyError
          (Dict.get ep_self (default [] (endpoint_directions me))) in
      rotate st self (py_fmod (d_to - d_self - np_pi) (2 * np_pi))
    else Ok st in
  (* Move to connect endpoints *)
  let* me1 := deref st1 self in
  let* other1 := deref st1 to in
  let* e_to := lift KeyError (Dict.get ep_to (endpoints other1)) in
  let* e_self := lift KeyError (Dict.get ep_self (endpoints me1)) in
  let delta := (fst e_to - fst e_self, snd e_to - snd e_self) in
  let delta := (fst delta + fst offset, snd delta + snd offset) in
  let* st2 := translate st1 self delta in
  (* Update linked list *)
  if negb obj_link then
    let* st3 := link st2 to Next ep_to self in
    link st3 self Prev ep_self to
  else
    let* st3 := link st2 to Next (KObj self) self in
    link st3 self Prev (KObj to) to.

End Methods.

(** *** disconnect *)

(** [for ne in x.endpoints:
       if ne in x.<s> and x.<s>[ne] == self: del x.<s>[ne]]
    with [x] the neighbour [self.<flip s>[e]]; the loop writes only
    [x.<s>], never the entry it reached [x] through. *)
Definition unlink_back (s : side) (self x : nat) (st : store) : store :=
  match st !! x with
  | None => st
  | Some nx =>
      fold_left
        (fun st ne =>
           match st !! x with
           | None => st
           | Some n =>
               if decide (Dict.get ne (links s n) = Some self)
               then <[x := set_links s n (Dict.del ne (links s n))]> st
               else st
           end)
        (Dict.keys (endpoints nx)) st
  end.

(** [if e in self.<s>: <loop over the neighbour>; del self.<s>[e]] *)
Definition disconnect_side (s : side) (self : nat) (e : key) (st : store)
    : store :=
  match st !! self with
  | None => st
  | Some me =>
      match Dict.get e (links s me) with
      | None => st
      | Some x =>
          let st1 := unlink_back (flip s) self x st in
          match st1 !! self with
          | None => st1
          | Some me1 =>
              <[self := set_links s me1 (Dict.del e (links s me1))]> st1
          end
      end
  end.

Definition disconnect (st : store) (self : nat) : store :=
  match st !! self with
  | None => st
  | Some me =>
      fold_left
        (fun st e => disconnect_side Prev self e (disconnect_side Next self e st))
        (Dict.keys (endpoints me)) st
  end.

(** *** copy *)

(** [for i, c in enumerate(self.compound): ...] of [copy]; [call] is the
    recursive [c.copy()]. *)
Fixpoint copy_children (call : store -> nat -> res (store * nat))
    (new_obj : nat) (cs : list nat) (i : Z) (st : store) (acc : list nat)
    : res (store * list nat) :=
  match cs with
  | [] => Ok (st, acc)
  | c :: cs' =>
      let* (st1, c_copy) := call st c in
      let* n := deref st1 new_obj in
      let st2 :=
        <[new_obj := set_next n (Dict.set (KInt i) c_copy (next n))]> st1 in
      copy_children call new_obj cs' (i + 1)%Z st2 (acc ++ [c_copy])
  end.

Fixpoint copy (fuel : nat) (st : store) (self : nat) : res (store * nat) :=
  match fuel with
  | O => OutOfFuel
  | S fuel' =>
      let* me := deref st self in
      let new_obj := length st in
      let st0 :=
        st ++ [new_GDStructure (structure me) (endpoints me)
                 (endpoint_dims me) (endpoint_directions me)] in
      let* (st1, comp) :=
        copy_children (copy fuel') new_obj (compound me) 0%Z st0 [] in
      let* n := deref st1 new_obj in
      Ok (<[new_obj := set_compound n comp]> st1, new_obj)
  end.

(* ================================================================== *)
(** ** functions.py: cluster *)

(** ['COMPOUND_' + str(i)] *)
Definition compound_key (i : nat) : key :=
  KStr ("COMPOUND_" +:+ pretty i).

(** [for i, object in enumerate(objectlist[1:]): ...] *)
Fixpoint cluster_links (head : nat) (objs : list nat) (i : nat) (st : store)
    : res store :=
  match objs with
  | [] => Ok st
  | o :: objs' =>
      let* st1 := link st head Next (compound_key i) o in
      let* st2 := link st1 o Prev (compound_key 0) head in
      cluster_links head objs' (S i) st2
  end.

(** [cluster]; the result [None] is the [return False] of a port conflict. *)
Definition cluster (st : store) (objectlist : list nat)
    (new_endpoints : dict point) (new_dims : dict (option float))
    (new_directions : option (dict float)) (new_method : option nat)
    (ignore_conflict : bool) : res (store * option nat) :=
  let conflict :=
    match objectlist with
    | [] => Ok false
    | o :: _ =>
        let* n := deref st o in
        Ok (existsb
              (fun i => bool_decide (is_Some (Dict.get i (endpoints n))))
              (Dict.keys new_endpoints))
    end in
  let* c := if ignore_conflict then Ok false
            else match new_endpoints with [] => Ok false | _ => conflict end in
  if c then Ok (st, None)
  else
    match objectlist with
    | [] => Raise IndexError
    | head :: others =>
        let* n := deref st head in
        let n' :=
          mkGDS (structure n) new_endpoints new_dims
                (Some (default [] new_directions))
                (compound n ++ others) (prev n) (next n) new_method in
        let* st1 := cluster_links head others 0 (<[head := n']> st) in
        Ok (st1, Some head)
    end.

(* ================================================================== *)
(** ** routing.py: lookaround and router *)

(** Python list indexing [l[i]]: a negative index counts from the end. *)
Definition py_nth {A} (l : list A) (i : Z) : res A :=
  let n := Z.of_nat (length l) in
  if (0 <=? i) && (i <? n) then lift IndexError (l !! Z.to_nat i)
  else if (- n <=? i) && (i <? 0) then lift IndexError (l !! Z.to_nat (n + i))
  else Raise IndexError.

(** [lookaround]: the (up, down, left, right) neighbours of [index]. *)
Definition lookaround (index row_len : Z) (pref : string) : list Z :=
  let n :=
    [index - row_len; index + row_len]
    ++ (if index mod row_len =? 0 then [] else [index - 1])
    ++ [index + 1] in
  if String.eqb pref "x" then rev n else n.

(** The working state of one pass of the [while] loop. *)
Record wave := mkWave {
  p_g : list Z;              (* step label per grid point *)
  next_start_i : list Z;     (* the next frontier *)
  path_found : bool;
  final_index : option Z
}.

Definition label (l : list Z) (nb : Z) : Z := default 0 (l !! Z.to_nat nb).

(** The body of [for nb in n]; the flag is the [break]. *)
Definition visit (inside : list bool) (end_i : list Z) (lxr lp k i : Z)
    (w : wave) (nb : Z) : wave * bool :=
  if bool_decide (nb ∈ end_i) then
    (mkWave (<[Z.to_nat nb := k]> (p_g w)) (next_start_i w) true (Some nb),
     true)
  else if (nb <? 0) || (nb >=? lp) || negb (label (p_g w) nb =? 0)
          || ((i mod lxr =? 0) && (nb mod lxr =? 1))
          || ((i mod lxr =? 1) && (nb mod lxr =? 0)) then
    (w, false)
  else if default false (inside !! Z.to_nat nb) then
    (mkWave (<[Z.to_nat nb := -1]> (p_g w)) (next_start_i w)
            (path_found w) (final_index w), false)
  else
    (mkWave (<[Z.to_nat nb := k]> (p_g w)) (next_start_i w ++ [nb])
            (path_found w) (final_index w), false).

Fixpoint visit_all (inside : list bool) (end_i : list Z) (lxr lp k i : Z)
    (ns : list Z) (w : wave) : wave :=
  match ns with
  | [] => w
  | nb :: ns' =>
      let '(w', brk) := visit inside end_i lxr lp k i w nb in
      if brk then w' else visit_all inside end_i lxr lp k i ns' w'
  end.

(** [for i in start_i: ...] for one value of [k]. *)
Definition sweep (inside : list bool) (end_i : list Z) (lxr lp : Z)
    (pref : string) (k : Z) (start_i : list Z) (w : wave) : wave :=
  fold_left
    (fun w i => visit_all inside end_i lxr lp k i (lookaround i lxr pref) w)
    start_i w.

(** [while not path_found and start_i: ...]; the result carries [k] and
    the frontier the loop stopped on in [next_start_i]. *)
Fixpoint wave_loop (fuel : nat) (inside : list bool) (end_i : list Z)
    (lxr lp : Z) (pref : string) (k : Z) (start_i : list Z) (w : wave)
    : option (Z * wave) :=
  match fuel with
  | O => None
  | S fuel' =>
      if negb (path_found w) && nonempty start_i then
        let k := k + 1 in
        let w' :=
          sweep inside end_i lxr lp pref k start_i
            (mkWave (p_g w) [] (path_found w) (final_index w)) in
        wave_loop fuel' inside end_i lxr lp pref k (next_start_i w') w'
      else Some (k, mkWave (p_g w) start_i (path_found w) (final_index w))
  end.

(** Number of still unlabelled grid points. *)
Definition unlabelled (l : list Z) : nat :=
  length (filter (fun z => z = 0) l).

Definition propagate_wave (inside : list bool) (end_i : list Z)
    (lxr : Z) (pref : string) (start_i : list Z) : option (Z * wave) :=
  let lp := length inside in
  wave_loop (lp + 2) inside end_i lxr (Z.of_nat lp) pref 0 start_i
    (mkWave (replicate lp 0) [] false None).

(** *** Seed and target sets *)

Local Open Scope float_scope.

Definition sq_dist (c q : point) : float :=
  (fst c - fst q) * (fst c - fst q) + (snd c - snd q) * (snd c - snd q).

(** [for y in yr: for x in xr: p.append((x, y))] *)
Definition grid (xr yr : list float) : list point :=
  flat_map (fun y => map (fun x => (x, y)) xr) yr.

Definition fmin (a b : float) : float :=
  if is_nan a then a else if is_nan b then b
  else if b <? a then b else a.

(** [np.min]: fails on an empty selection. *)
Definition np_min (l : list float) : res float :=
  match l with
  | [] => Raise ValueError
  | x :: l' => Ok (fold_left fmin l' x)
  end.

(** [d[np.argwhere(inside == False)]] *)
Fixpoint outside_of (d : list float) (inside : list bool) : list float :=
  match d, inside with
  | x :: d', b :: inside' =>
      if b then outside_of d' inside' else x :: outside_of d' inside'
  | _, _ => []
  end.

(** [np.argwhere(d == m)], flattened. *)
Fixpoint argwhere_eq (d : list float) (m : float) (i : Z) : list Z :=
  match d with
  | [] => []
  | x :: d' =>
      if x =? m then i :: argwhere_eq d' m (i + 1)%Z
      else argwhere_eq d' m (i + 1)%Z
  end.

(** Lines from [p_d_fr_min = ...] to [start_i = [item ...]] for one port:
    the indices whose distance equals the least distance of an outside
    point. *)
Definition nearest (p : list point) (inside : list bool) (port : point)
    : res (list Z) :=
  let d := map (fun c => sq_dist c port) p in
  let* m := np_min (outside_of d inside) in
  Ok (argwhere_eq d m 0%Z).

(** *** Backtrace *)

(** Python ints met by the float comparison [this_k < switch_pref*k]. *)
Fixpoint float_of_pos (p : positive) : float :=
  match p with
  | xH => 1
  | xO q => 2 * float_of_pos q
  | xI q => 2 * float_of_pos q + 1
  end.

Definition float_of_int (z : Z) : float :=
  match z with
  | Z0 => 0
  | Zpos p => float_of_pos p
  | Zneg p => - float_of_pos p
  end.

Definition other_pref (pref : string) : string :=
  if String.eqb pref "y" then "x"%string else "y"%string.

(** [for nb in n: if nb < lp and p_g[nb] == this_k: ...; break]: the first
    neighbour carrying the wanted label, if any. *)
Fixpoint first_labelled (labels : list Z) (lp this_k : Z) (ns : list Z)
    : res (option Z) :=
  match ns with
  | [] => Ok None
  | nb :: ns' =>
      if (nb <? lp)%Z then
        let* l := py_nth labels nb in
        if (l =? this_k)%Z then Ok (Some nb)
        else first_labelled labels lp this_k ns'
      else first_labelled labels lp this_k ns'
  end.

(** [for this_k in range(k, -1, -1): ...], [n] counting the values of
    [this_k] still to come, [this_k = n - 1] first. *)
Fixpoint backtrace (n : nat) (k : Z) (p : list point) (labels : list Z)
    (lxr lp : Z) (switch_pref : option float) (pref : string)
    (switched : bool) (this_index : Z) (backtraced : list point)
    : res (list point) :=
  match n with
  | O => Ok backtraced
  | S n' =>
      let this_k := Z.of_nat n' in
      let sw :=
        match switch_pref with
        | Some s =>
            negb (s =? 0) && negb switched
            && (float_of_int this_k <? s * float_of_int k)
        | None => false
        end in
      let pref := if sw then other_pref pref else pref in
      let switched := if sw then true else switched in
      let* hit :=
        first_labelled labels lp this_k (lookaround this_index lxr pref) in
      match hit with
      | Some nb =>
          let* c := py_nth p nb in
          backtrace n' k p labels lxr lp switch_pref pref switched nb
            (backtraced ++ [c])
      | None =>
          backtrace n' k p labels lxr lp switch_pref pref switched
            this_index backtraced
      end
  end.

(** *** router *)

(** What [router] sees of the gdspy cell: the point-inside test of gdspy
    ([gd.inside]) and the probing one of [functions.inside] built on it. *)
Record cell := mkCell {
  gd_inside : point -> bool;
  probed_inside : point -> bool
}.

(** The arguments of [router] that decide the search and the linking.  The
    grid axes are the arrays in use: the ones the caller passed, or else
    the [np.linspace] over the bordered box ([bmul], [grid_s]); [precision],
    [nop] and [dist_multi] only parametrise the point-inside tests, [layer]
    the rendering; [debug] (drawing and printing) is off. *)
Record route_args := mkArgs {
  r_cell : cell;
  fr_str : nat;  fr_ep : key;
  to_str : nat;  to_ep : key;
  r_width : float;
  xr : list float;             (* the x axis in use, given or [np.linspace] *)
  yr : list float;             (* the y axis in use *)
  uniform_width : bool;
  r_pref : string;
  switch_pref : option float;  (* [None] is Python's [False] *)
  pathmethod : string;
  detect : string
}.

Inductive outcome :=
| NoPathFound                  (* [return False] *)
| Routed (structure : nat).

(** The grid, the obstacle flags and the seed and target sets. *)
Record setup := mkSetup {
  s_fr : point; s_to : point;
  s_p : list point;
  s_inside : list bool;
  s_start_i : list Z;
  s_end_i : list Z
}.

Definition route_setup (st : store) (a : route_args) : res setup :=
  let* f := deref st (fr_str a) in
  let* fr := lift KeyError (Dict.get (fr_ep a) (endpoints f)) in
  let* t := deref st (to_str a) in
  let* to := lift KeyError (Dict.get (to_ep a) (endpoints t)) in
  let p := grid (xr a) (yr a) in
  let* inside :=
    if String.eqb (detect a) "native" then Ok (map (gd_inside (r_cell a)) p)
    else if String.eqb (detect a) "custom"
         then Ok (map (probed_inside (r_cell a)) p)
         else Raise ValueError in
  let* start_i := nearest p inside fr in
  let* end_i := nearest p inside to in
  Ok (mkSetup fr to p inside start_i end_i).

Definition route_wave (a : route_args) (s : setup) : option (Z * wave) :=
  propagate_wave (s_inside s) (s_end_i s) (Z.of_nat (length (xr a)))
    (r_pref a) (s_start_i s).

(** The widths [ws] of the route. *)
Definition route_widths (st : store) (a : route_args) (n : nat)
    : res (list float + float) :=
  if negb (uniform_width a) then
    let* t := deref st (to_str a) in
    let* to_w := lift KeyError (Dict.get (to_ep a) (endpoint_dims t)) in
    let* f := deref st (fr_str a) in
    let* fr_w := lift KeyError (Dict.get (fr_ep a) (endpoint_dims f)) in
    Ok (inl (replicate 2 (default (r_width a) to_w)
             ++ replicate (n - 4) (r_width a)
             ++ replicate 2 (default (r_width a) fr_w)))
  else Ok (inr (r_width a)).

Definition router (st : store) (a : route_args) : res (store * outcome) :=
  let* s := route_setup st a in
  let lxr := Z.of_nat (length (xr a)) in
  let lp := Z.of_nat (length (s_p s)) in
  match route_wave a s with
  | None => OutOfFuel
  | Some (k, w) =>
      (* Routing ended, checking whether we succeeded *)
      if negb (path_found w) then Ok (st, NoPathFound)
      else
        let* final := lift IndexError (final_index w) in
        let* c := py_nth (s_p s) final in
        let* trace :=
          backtrace (Z.to_nat k + 1) k (s_p s) (p_g w) lxr lp
            (switch_pref a) (r_pref a) false final [s_to s; c] in
        let backtraced := trace ++ [s_fr s] in
        let* ws := route_widths st a (length backtraced) in
        let* r :=
          if String.eqb (pathmethod a) "poly" then Ok (GPolyPath backtraced ws)
          else if String.eqb (pathmethod a) "flex"
               then Ok (GFlexPath backtraced ws)
               else Raise ValueError in
        let* e_b := lift IndexError (last backtraced) in
        let ends := [(KStr "A", s_to s); (KStr "B", e_b)] in
        let epsz :=
          match ws with
          | inl l => [(KStr "A", head l); (KStr "B", last l)]
          | inr w => [(KStr "A", Some w); (KStr "B", Some w)]
          end in
        let structure := length st in
        let st1 := st ++ [new_GDStructure [r] ends epsz None] in
        (* Connect to 'to' and 'from' structures *)
        let* st2 := link st1 (fr_str a) Next (KStr "AUTOROUTE_A") structure in
        let* st3 := link st2 (to_str a) Next (KStr "AUTOROUTE_B") structure in
        let* st4 := link st3 structure Prev (KStr "AUTOROUTE_A") (fr_str a) in
        let* st5 := link st4 structure Prev (KStr "AUTOROUTE_B") (to_str a) in
        Ok (st5, Routed structure)
  end.

(* ================================================================== *)
(** ** classes.py and heal.py: heal *)

(** heal.py: [circle(radius, endpoint, ...)]; [h] names the [gd.Round]
    shape it is built on. *)
Definition circle (h : nat) (radius : float) (endpoint : point)
    : GDStructure :=
  new_GDStructure [GShape h] [(KStr "A", endpoint)]
    [(KStr "A", Some (2 * radius))] None.

(** What a [heal] call comes to when it is not a [KeyError]: Python raises
    [TypeError] where the port size is [None] ([None / 2]) or the port name
    is no string (['HEAL_' + endpoint]), and the shape of [self] may fail
    to provide the layer or the datatype. *)
Inductive healed :=
| Healed (st : store)
| HealTypeError
| HealShapeError.

(** [self.heal(endpoint, npoints, r, layer, datatype)].  [r = None] is
    ['auto'].  [look] is the layer and datatype in use: the arguments, or
    else what [self.getlayer()] and [self.structure.datatypes[0]] read off
    the opaque shape, [None] where reading fails; like [npoints] they only
    parametrise the shape [h] that [gd.Round] returns. *)
Definition heal (st : store) (self : nat) (endpoint : key)
    (r : option float) (look : option (nat * nat)) (h : nat) : res healed :=
  let* me := deref st self in
  let* r :=
    match r with
    | Some r => Ok (Some r)
    | None =>
        let* d := lift KeyError (Dict.get endpoint (endpoint_dims me)) in
        Ok (option_map (fun d => d / 2) d)
    end in
  match r with
  | None => Ok HealTypeError
  | Some r =>
      let* e := lift KeyError (Dict.get endpoint (endpoints me)) in
      match look, endpoint with
      | None, _ => Ok HealShapeError
      | Some _, KStr name =>
          let healer := length st in
          let st1 := st ++ [circle h r e] in
          Ok (Healed
                (<[self :=
                     mkGDS (structure me) (endpoints me) (endpoint_dims me)
                       (endpoint_directions me) (compound me ++ [healer])
                       (Dict.set (KStr ("HEAL_" +:+ name)) healer (prev me))
                       (next me) (method me)]> st1))
      | Some _, _ => Ok HealTypeError
      end
  end.

(* ================================================================== *)
(** ** functions.py: the stacker of flatten *)

(** [for i in inlist: ...] of [stacker]; [call] is the recursive
    [stacker(i.compound)], made only for a non-empty [i.compound]. *)
Fixpoint stack_each (call : list nat -> res (list nat)) (st : store)
    (inlist outlist : list nat) : res (list nat) :=
  match inlist with
  | [] => Ok outlist
  | i :: inlist' =>
      let* n := deref st i in
      let* sub := if nonempty (compound n) then call (compound n)
                  else Ok [] in
      stack_each call st inlist' (outlist ++ i :: sub)
  end.

(** [stacker(inlist)], the recursion bounded by [fuel]: the objects of
    [flatten] with everything they contain. *)
Fixpoint stacker (fuel : nat) (st : store) (inlist : list nat)
    : res (list nat) :=
  match fuel with
  | O => OutOfFuel
  | S fuel' => stack_each (stacker fuel' st) st inlist []
  end.

(* ================================================================== *)
(** ** __init__.py and routing.py: alphabet and splitter *)

(** ['A,B,...,Z'.split(',')] *)
Definition letters : list string :=
  ["A"; "B"; "C"; "D"; "E"; "F"; "G"; "H"; "I"; "J"; "K"; "L"; "M";
   "N"; "O"; "P"; "Q"; "R"; "S"; "T"; "U"; "V"; "W"; "X"; "Y"; "Z"]%string.

(** [alphabet]: the letters, then [for i in range(1, 20): for c in a:
    alphabet.append(c + str(i))]. *)
Definition alphabet : list string :=
  letters
  ++ flat_map (fun i => map (fun c => c +:+ pretty i) letters) (seq 1 19).

(** [(n*width + (n-1)*space)/2], the top of the comb. *)
Definition comb_top (n : Z) (width space : float) : float :=
  (float_of_int n * width + float_of_int (n - 1) * space) / 2.

(** [for i in range(0, n): ...] of [splitter], [todo] turns from [i] on. *)
Fixpoint splitter_loop (todo : nat) (i n : Z) (width length space : float)
    (p : list point) (ends : dict point) (epsz : dict (option float))
    : res (list point * dict point * dict (option float)) :=
  match todo with
  | O => Ok (p, ends, epsz)
  | S todo' =>
      let y := comb_top n width space
               - float_of_int i * (space + width) in
      let p := p ++ [(length, y - width / 2)] in
      let* name := lift IndexError (alphabet !! Z.to_nat (i + 1)%Z) in
      let ends :=
        Dict.set (KStr name) (length, y - width / 2 - width / 2) ends in
      let epsz := Dict.set (KStr name) (Some width) epsz in
      let p := p ++ [(length, y - width - width / 2)] in
      let p := p ++ [(length / 2 + width / 2, y - width - width / 2)] in
      let p :=
        p ++ [(length / 2 + width / 2, y - width - space - width / 2)] in
      splitter_loop todo' (i + 1)%Z n width length space p ends epsz
  end.

(** [splitter(n, width, length, space)]: the polygon points and the
    object; [h] names the [gd.Polygon] made of the points. *)
Definition splitter (n : Z) (width length space : float) (h : nat)
    : res (list point * GDStructure) :=
  let p := [(0, 0); (length / 2 - width / 2, 0);
            (length / 2 - width / 2, comb_top n width space - width / 2)] in
  let ends := [(KStr "A", (0, - width / 2))] in
  let epsz := [(KStr "A", Some width)] in
  let* (p, ends, epsz) :=
    splitter_loop (Z.to_nat n) 0%Z n width length space p ends epsz in
  let p := removelast p in
  let p :=
    p ++ [(length / 2 - width / 2,
           comb_top n width space - float_of_int (n - 1) * (space + width)
           - width - width / 2);
          (length / 2 - width / 2, - width);
          (0, - width)] in
  Ok (p, new_GDStructure [GShape h] ends epsz None).

(* ================================================================== *)
(** * Properties *)

Local Close Scope float_scope.
Local Open Scope nat_scope.

(** ** The result monad *)

Lemma bind_Ok {A B} (m : res A) (f : A -> res B) (b : B) :
  bind m f = Ok b -> exists a, m = Ok a /\ f a = Ok b.
Proof. destruct m; simpl; intros; try discriminate; eauto. Qed.

Lemma lift_Ok {A} (e : exn) (o : option A) (a : A) :
  lift e o = Ok a -> o = Some a.
Proof. destruct o; simpl; congruence. Qed.

Lemma deref_Ok (st : store) (o : nat) (n : GDStructure) :
  deref st o = Ok n -> st !! o = Some n.
Proof. apply lift_Ok. Qed.

(** Split an equation [bind m f = Ok b] in the context. *)
Ltac inv_bind H :=
  let x := fresh "x" in
  let Hx := fresh "Hx" in
  apply bind_Ok in H; destruct H as (x & Hx & H).

(** ** Dictionaries *)

Section DictFacts.
Context {V : Type}.
Implicit Types (d : dict V) (k : key) (v : V).

Lemma get_set_eq k v d : Dict.get k (Dict.set k v d) = Some v.
Proof.
  induction d as [|[k' v'] d IH]; simpl.
  - rewrite decide_True; auto.
  - destruct (decide (k' = k)); simpl.
    + rewrite decide_True; auto.
    + rewrite decide_False; auto.
Qed.

Lemma get_set_ne k k' v d :
  k <> k' -> Dict.get k' (Dict.set k v d) = Dict.get k' d.
Proof.
  intros Hne. induction d as [|[k0 v0] d IH]; simpl.
  - rewrite decide_False; auto.
  - destruct (decide (k0 = k)) as [->|]; simpl.
    + rewrite !decide_False; auto.
    + destruct (decide (k0 = k')); auto.
Qed.

Lemma get_del_eq k d : Dict.get k (Dict.del k d) = None.
Proof.
  induction d as [|[k' v'] d IH]; simpl; auto.
  destruct (decide (k' = k)); simpl; auto.
  rewrite decide_False; auto.
Qed.

Lemma get_del_ne k k' d :
  k <> k' -> Dict.get k' (Dict.del k d) = Dict.get k' d.
Proof.
  intros Hne. induction d as [|[k0 v0] d IH]; simpl; auto.
  destruct (decide (k0 = k)) as [->|]; simpl.
  - rewrite decide_False; auto.
  - destruct (decide (k0 = k')); auto.
Qed.

Lemma keys_set_present k v d :
  is_Some (Dict.get k d) -> Dict.keys (Dict.set k v d) = Dict.keys d.
Proof.
  induction d as [|[k' v'] d IH]; simpl.
  - intros [? ?]; discriminate.
  - destruct (decide (k' = k)) as [->|]; simpl; auto.
    intros Hs. f_equal. auto.
Qed.

Lemma get_in_keys k v d : Dict.get k d = Some v -> k ∈ Dict.keys d.
Proof.
  induction d as [|[k' v'] d IH]; simpl; [discriminate|].
  destruct (decide (k' = k)) as [->|]; intros Hg.
  - apply list_elem_of_here.
  - apply list_elem_of_further; auto.
Qed.

Lemma in_keys_get k d : k ∈ Dict.keys d -> is_Some (Dict.get k d).
Proof.
  induction d as [|[k' v'] d IH]; simpl.
  - intros Hin. inversion Hin.
  - destruct (decide (k' = k)); eauto.
    intros Hin. inversion Hin; subst; [congruence|auto].
Qed.

Lemma get_in k v d : Dict.get k d = Some v -> (k, v) ∈ d.
Proof.
  induction d as [|[k' v'] d IH]; simpl; [discriminate|].
  destruct (decide (k' = k)) as [->|]; intros Hg.
  - injection Hg as ->. apply list_elem_of_here.
  - apply list_elem_of_further; auto.
Qed.

End DictFacts.

(** ** Record plumbing *)

Lemma links_set_links s n d : links s (set_links s n d) = d.
Proof. destruct s; reflexivity. Qed.

Lemma links_set_links_flip s n d :
  links (flip s) (set_links s n d) = links (flip s) n.
Proof. destruct s; reflexivity. Qed.

(** ** Transforms keep the link graph (frame) *)

(** What no transform may touch in an object. *)
Definition same_topology (a b : GDStructure) : Prop :=
  prev b = prev a /\ next b = next a
  /\ Dict.keys (endpoints b) = Dict.keys (endpoints a)
  /\ endpoint_dims b = endpoint_dims a
  /\ compound b = compound a
  /\ method b = method a.

(** What [translate] and [mirror] may not touch. *)
Definition same_but_position (a b : GDStructure) : Prop :=
  same_topology a b /\ endpoint_directions b = endpoint_directions a.

Lemma same_topology_refl a : same_topology a a.
Proof. repeat split. Qed.

Lemma same_topology_trans a b c :
  same_topology a b -> same_topology b c -> same_topology a c.
Proof.
  intros (?&?&?&?&?&?) (?&?&?&?&?&?). repeat split; congruence.
Qed.

Lemma same_but_position_refl a : same_but_position a a.
Proof. repeat split. Qed.

Lemma same_but_position_trans a b c :
  same_but_position a b -> same_but_position b c -> same_but_position a c.
Proof.
  intros [? ?] [? ?]. split; [eapply same_topology_trans; eauto|congruence].
Qed.

(** Stores related object by object. *)
Section Related.
Variable R : GDStructure -> GDStructure -> Prop.
Hypothesis R_refl : forall a, R a a.
Hypothesis R_trans : forall a b c, R a b -> R b c -> R a c.

Lemma related_refl (st : store) : Forall2 R st st.
Proof.
  apply Forall2_same_length_lookup. split; [reflexivity|].
  intros i x y Hx Hy. rewrite Hx in Hy. injection Hy as ->. apply R_refl.
Qed.

Lemma related_trans (st1 st2 st3 : store) :
  Forall2 R st1 st2 -> Forall2 R st2 st3 -> Forall2 R st1 st3.
Proof. intros H1 H2. eapply Forall2_trans; eauto. Qed.

Lemma related_insert (st : store) o n n' :
  st !! o = Some n -> R n n' -> Forall2 R st (<[o := n']> st).
Proof.
  intros Ho Ht.
  rewrite <- (list_insert_id st o n Ho) at 1.
  apply Forall2_insert; [apply related_refl | exact Ht].
Qed.

Context {P : Type} (act : P -> GDStructure -> res (GDStructure * P)).
Hypothesis act_frame :
  forall par n n' par', act par n = Ok (n', par') -> R n n'.

Lemma walk_frame call s self ks :
  (forall st tgt sf st' sf',
      call st tgt sf = Ok (st', sf') -> Forall2 R st st') ->
  forall st sf st' sf',
    walk call s self ks st sf = Ok (st', sf') -> Forall2 R st st'.
Proof.
  intros Hcall. induction ks as [|i ks IH]; simpl; intros st sf st' sf' Hw.
  - injection Hw as <- <-. apply related_refl.
  - inv_bind Hw. inv_bind Hw.
    destruct (decide (Some x0 ∈ sf)); [eauto|].
    inv_bind Hw. destruct x1 as [st1 sf1].
    eapply related_trans; eauto.
Qed.

Lemma propagate_frame fuel :
  forall par st self sf st' sf',
    propagate act fuel par st self sf = Ok (st', sf') -> Forall2 R st st'.
Proof.
  induction fuel as [|fuel IH]; simpl; intros par st self sf st' sf' Hp;
    [discriminate|].
  inv_bind Hp. apply deref_Ok in Hx.
  inv_bind Hp. destruct x0 as [me' par'].
  inv_bind Hp. destruct x0 as [st2 sf2].
  inv_bind Hp.
  eapply related_trans; [eapply (related_insert _ self x me'); eauto|].
  eapply related_trans; eapply (walk_frame _ _ _ _ (IH par')); eauto.
Qed.

Lemma propagate_top_frame par st self st' :
  propagate_top act par st self = Ok st' -> Forall2 R st st'.
Proof.
  unfold propagate_top. intros Hp. inv_bind Hp. destruct x as [st1 sf1].
  injection Hp as <-. eapply propagate_frame; eauto.
Qed.

End Related.

Section BodiesFrame.
Context `{Libm}.

Lemma rotate_ports_frame rad ks :
  forall me me', rotate_ports rad ks me = Ok me' -> same_topology me me'.
Proof.
  induction ks as [|i ks IH]; simpl; intros me me' Hr.
  - injection Hr as <-. apply same_topology_refl.
  - inv_bind Hr. apply lift_Ok in Hx. inv_bind Hr.
    apply IH in Hr. eapply same_topology_trans; [|exact Hr].
    assert (Hk : Dict.keys (Dict.set i (VecRot rad x) (endpoints me))
                 = Dict.keys (endpoints me))
      by (apply keys_set_present; eauto).
    simpl in Hx0.
    destruct (endpoint_directions me) as [d|]; [destruct (nonempty d)|].
    + inv_bind Hx0. injection Hx0 as <-. repeat split; auto.
    + injection Hx0 as <-. repeat split; auto.
    + injection Hx0 as <-. repeat split; auto.
Qed.

Lemma rotate_body_frame rad n n' rad' :
  rotate_body rad n = Ok (n', rad') -> same_topology n n'.
Proof.
  unfold rotate_body. intros Hb. inv_bind Hb. injection Hb as <- <-.
  apply rotate_ports_frame in Hx.
  eapply same_topology_trans; [|exact Hx]. repeat split.
Qed.

Lemma translate_ports_frame delta ks :
  forall me me',
    translate_ports delta ks me = Ok me' -> same_but_position me me'.
Proof.
  induction ks as [|i ks IH]; simpl; intros me me' Hr.
  - injection Hr as <-. apply same_but_position_refl.
  - inv_bind Hr. apply lift_Ok in Hx.
    apply IH in Hr. eapply same_but_position_trans; [|exact Hr].
    repeat split; simpl. apply keys_set_present; eauto.
Qed.

Lemma translate_body_frame delta n n' delta' :
  translate_body delta n = Ok (n', delta') -> same_but_position n n'.
Proof.
  unfold translate_body. intros Hb. inv_bind Hb. injection Hb as <- <-.
  apply translate_ports_frame in Hx.
  eapply same_but_position_trans; [|exact Hx]. repeat split.
Qed.

Lemma mirror_ports_frame ks :
  forall p1 p2 me me' line,
    mirror_ports ks p1 p2 me = Ok (me', line) -> same_but_position me me'.
Proof.
  induction ks as [|i ks IH]; simpl; intros p1 p2 me me' line Hr.
  - injection Hr as <- <-. apply same_but_position_refl.
  - inv_bind Hr. apply lift_Ok in Hx. inv_bind Hr. destruct x0 as [p1' v2].
    apply IH in Hr. eapply same_but_position_trans; [|exact Hr].
    repeat split; simpl. apply keys_set_present; eauto.
Qed.

Lemma mirror_body_frame line n n' line' :
  mirror_body line n = Ok (n', line') -> same_but_position n n'.
Proof.
  unfold mirror_body. destruct line as [p1 p2]. intros Hb.
  apply mirror_ports_frame in Hb.
  eapply same_but_position_trans; [|exact Hb]. repeat split.
Qed.

Lemma rotate_frame st self rad st' :
  rotate st self rad = Ok st' -> Forall2 same_topology st st'.
Proof.
  apply propagate_top_frame;
    eauto using same_topology_refl, same_topology_trans, rotate_body_frame.
Qed.

Lemma translate_frame st self delta st' :
  translate st self delta = Ok st' -> Forall2 same_but_position st st'.
Proof.
  apply propagate_top_frame;
    eauto using same_but_position_refl, same_but_position_trans,
      translate_body_frame.
Qed.

Lemma mirror_frame st self p1 p2 st' :
  mirror st self p1 p2 = Ok st' -> Forall2 same_but_position st st'.
Proof.
  apply propagate_top_frame;
    eauto using same_but_position_refl, same_but_position_trans,
      mirror_body_frame.
Qed.

End BodiesFrame.

(** ** Propagation visits every object at most once *)

(** Every reference held in a link map points into the store. *)
Definition closed (st : store) : Prop :=
  Forall (fun n =>
            Forall (fun kv => snd kv < length st) (prev n)
            /\ Forall (fun kv => snd kv < length st) (next n)) st.

Lemma closed_links st o n s k tgt :
  closed st -> st !! o = Some n -> Dict.get k (links s n) = Some tgt ->
  tgt < length st.
Proof.
  intros Hc Ho Hg. unfold closed in Hc.
  rewrite Forall_lookup in Hc. destruct (Hc _ _ Ho) as [Hp Hn].
  apply get_in in Hg.
  destruct s; simpl in Hg;
    [rewrite Forall_forall in Hp; apply (Hp _ Hg)
    |rewrite Forall_forall in Hn; apply (Hn _ Hg)].
Qed.

Lemma closed_related st st' :
  closed st -> Forall2 same_topology st st' -> closed st'.
Proof.
  intros Hc Hr. unfold closed in *.
  rewrite Forall_lookup in *. intros i n' Hi.
  destruct (Forall2_lookup_r _ _ _ _ _ Hr Hi) as (n & Hn & Hp & Hx & _).
  rewrite Hp, Hx, <- (Forall2_length _ _ _ Hr). eauto.
Qed.

(** Objects of the store not yet in [signal_from]. *)
Definition unvisited (len : nat) (sf : list (option nat)) : nat :=
  length (filter (fun o => Some o ∉ sf) (seq 0 len)).

Lemma filter_length_le {A} (P Q : A -> Prop)
    `{!forall x, Decision (P x)} `{!forall x, Decision (Q x)} (l : list A) :
  (forall x, P x -> Q x) -> length (filter P l) <= length (filter Q l).
Proof.
  intros HPQ. induction l as [|a l IH]; simpl; [lia|].
  rewrite !filter_cons.
  destruct (decide (P a)) as [Hp|Hp]; destruct (decide (Q a)) as [Hq|Hq];
    simpl; try lia.
  exfalso. auto.
Qed.

Lemma filter_length_lt {A} (P Q : A -> Prop)
    `{!forall x, Decision (P x)} `{!forall x, Decision (Q x)}
    (l : list A) (a : A) :
  (forall x, P x -> Q x) -> a ∈ l -> Q a -> ~ P a ->
  length (filter P l) < length (filter Q l).
Proof.
  intros HPQ Hin Hq Hp. induction l as [|b l IH]; [inversion Hin|].
  rewrite !filter_cons.
  pose proof (filter_length_le P Q l HPQ) as Hle.
  apply elem_of_cons in Hin. destruct Hin as [->|Hl].
  - rewrite decide_False, decide_True by auto. simpl. lia.
  - specialize (IH Hl).
    destruct (decide (P b)) as [Hpb|Hpb]; destruct (decide (Q b)); simpl;
      try lia.
    exfalso. auto.
Qed.

Lemma unvisited_le len sf : unvisited len sf <= len.
Proof.
  unfold unvisited.
  etransitivity; [apply length_filter|]. rewrite length_seq. lia.
Qed.

Lemma unvisited_mono len sf sf' :
  (forall x, x ∈ sf -> x ∈ sf') -> unvisited len sf' <= unvisited len sf.
Proof.
  intros Hsub. apply filter_length_le. intros x Hx Hin. apply Hx. auto.
Qed.

Lemma unvisited_add len sf o :
  o < len -> Some o ∉ sf ->
  unvisited len (sf ++ [Some o]) < unvisited len sf.
Proof.
  intros Ho Hn. apply (filter_length_lt _ _ _ o).
  - intros x Hx Hin. apply Hx. apply elem_of_app. auto.
  - apply elem_of_seq. lia.
  - exact Hn.
  - intros Hx. apply Hx. apply elem_of_app. right. apply list_elem_of_here.
Qed.

Section PropagateOnce.
Context {P : Type} (act : P -> GDStructure -> res (GDStructure * P)).
Variable I : P -> Prop.
Hypothesis act_frame :
  forall par n n' par', act par n = Ok (n', par') -> same_topology n n'.
Hypothesis act_inv :
  forall par n n' par', I par -> act par n = Ok (n', par') -> I par'.
Hypothesis act_fuel : forall par n, act par n <> OutOfFuel.

(** [n'] is [n] after one run of the body. *)
Definition acted (n n' : GDStructure) : Prop :=
  exists p p', I p /\ act p n = Ok (n', p').

(** From [st] to [st'] the body ran once on each object of [T] and on
    nothing else. *)
Definition step (st st' : store) (T : list (option nat)) : Prop :=
  Forall2 same_topology st st' /\
  forall o n, st !! o = Some n ->
    exists n', st' !! o = Some n'
               /\ if decide (Some o ∈ T) then acted n n' else n' = n.

(** The exception [e] comes from the body run on an object allowed by
    [ok], in its state of [st]. *)
Definition raised (st : store) (e : exn) (ok : nat -> Prop) : Prop :=
  exists o n p, st !! o = Some n /\ ok o /\ I p /\ act p n = Raise e.

Definition post (st : store) (self : nat) (sf1 : list (option nat))
    (r : res (store * list (option nat))) : Prop :=
  match r with
  | OutOfFuel => False
  | Raise e => raised st e (fun o => o = self \/ Some o ∉ sf1)
  | Ok (st', sf') =>
      exists new, sf' = sf1 ++ new /\ NoDup new
                  /\ (forall x, x ∈ new -> x ∉ sf1)
                  /\ step st st' (Some self :: new)
  end.

Definition wpost (st : store) (sf : list (option nat))
    (r : res (store * list (option nat))) : Prop :=
  match r with
  | OutOfFuel => False
  | Raise e => raised st e (fun o => Some o ∉ sf)
  | Ok (st', sf') =>
      exists new, sf' = sf ++ new /\ NoDup new
                  /\ (forall x, x ∈ new -> x ∉ sf)
                  /\ step st st' new
  end.

Lemma step_refl st : step st st [].
Proof.
  split; [apply related_refl, same_topology_refl|].
  intros o n Ho. exists n. split; auto.
  rewrite decide_False; auto. intros Hin. inversion Hin.
Qed.

Lemma step_length st st' T : step st st' T -> length st' = length st.
Proof. intros [Hr _]. symmetry. eapply Forall2_length; eauto. Qed.

Lemma step_untouched st st' T o :
  step st st' T -> Some o ∉ T -> st' !! o = st !! o.
Proof.
  intros [Hr Hs] Hn.
  destruct (st !! o) as [n|] eqn:Ho.
  - destruct (Hs _ _ Ho) as (n' & Hn' & Hd).
    rewrite decide_False in Hd by auto. congruence.
  - apply lookup_ge_None. apply lookup_ge_None in Ho.
    rewrite <- (Forall2_length _ _ _ Hr). auto.
Qed.

Lemma step_trans st st' st'' T1 T2 :
  step st st' T1 -> step st' st'' T2 -> (forall x, x ∈ T1 -> x ∉ T2) ->
  step st st'' (T1 ++ T2).
Proof.
  intros [Hr1 Hs1] [Hr2 Hs2] Hdis. split.
  - eapply related_trans; eauto using same_topology_trans.
  - intros o n Ho.
    destruct (Hs1 _ _ Ho) as (n1 & Hn1 & Hd1).
    destruct (Hs2 _ _ Hn1) as (n2 & Hn2 & Hd2).
    exists n2. split; auto.
    destruct (decide (Some o ∈ T1)) as [H1|H1].
    + rewrite decide_False in Hd2 by auto. subst n2.
      rewrite decide_True by (apply elem_of_app; auto). auto.
    + subst n1. destruct (decide (Some o ∈ T2)) as [H2|H2].
      * rewrite decide_True by (apply elem_of_app; auto). auto.
      * rewrite decide_False; auto.
        intros Hin. apply elem_of_app in Hin. tauto.
Qed.

Lemma step_act st o n n' p p' :
  st !! o = Some n -> I p -> act p n = Ok (n', p') ->
  step st (<[o := n']> st) [Some o].
Proof.
  intros Ho Hp Ha. split.
  - eapply related_insert; eauto using same_topology_refl.
  - intros o' m Ho'. destruct (decide (o' = o)) as [->|Hne].
    + exists n'. split.
      * apply list_lookup_insert_eq. eapply lookup_lt_Some; eauto.
      * rewrite decide_True by apply list_elem_of_here.
        assert (m = n) by congruence. subst m. exists p, p'. auto.
    + exists m. split.
      * rewrite list_lookup_insert_ne; auto.
      * rewrite decide_False; auto.
        intros Hin. apply list_elem_of_singleton in Hin. congruence.
Qed.

Lemma step_closed st st' T : closed st -> step st st' T -> closed st'.
Proof. intros Hc [Hr _]. eapply closed_related; eauto. Qed.

Lemma raised_back st st' T e (ok ok' : nat -> Prop) :
  step st st' T -> raised st' e ok ->
  (forall o, ok o -> (Some o ∉ T) /\ ok' o) -> raised st e ok'.
Proof.
  intros Hs (o & n & p & Ho & Hok & Hp & Ha) Himp.
  destruct (Himp _ Hok) as [HT Hok'].
  exists o, n, p. repeat split; auto.
  rewrite <- (step_untouched _ _ _ _ Hs HT). auto.
Qed.

Lemma walk_once fuel' call s self :
  (forall st tgt sf,
      closed st -> tgt < length st -> Some tgt ∈ sf ->
      unvisited (length st) sf < fuel' -> post st tgt sf (call st tgt sf)) ->
  forall ks st sf me,
    closed st -> st !! self = Some me -> Some self ∈ sf ->
    (forall i, i ∈ ks -> is_Some (Dict.get i (links s me))) ->
    unvisited (length st) sf <= fuel' ->
    wpost st sf (walk call s self ks st sf).
Proof.
  intros Hcall. induction ks as [|i ks IH];
    intros st sf me Hc Hme Hself Hks Hfuel; simpl.
  - exists []. rewrite app_nil_r. repeat split; auto using NoDup_nil_2.
    + intros x Hx. inversion Hx.
    + apply step_refl.
    + apply step_refl.
  - unfold deref. rewrite Hme. simpl.
    destruct (Hks i) as [tgt Htgt]; [apply list_elem_of_here|].
    rewrite Htgt. simpl.
    assert (Hks' : forall j, j ∈ ks -> is_Some (Dict.get j (links s me)))
      by (intros j Hj; apply Hks; apply list_elem_of_further; auto).
    destruct (decide (Some tgt ∈ sf)) as [Hin|Hnin]; [eapply IH; eauto|].
    assert (Htl : tgt < length st) by (eapply closed_links; eauto).
    assert (Hpost : post st tgt (sf ++ [Some tgt])
                      (call st tgt (sf ++ [Some tgt]))).
    { apply Hcall; auto.
      - apply elem_of_app. right. apply list_elem_of_here.
      - pose proof (unvisited_add _ _ _ Htl Hnin). lia. }
    destruct (call st tgt (sf ++ [Some tgt])) as [[st' sf']|e|]; simpl in *;
      [|destruct Hpost as (o & n & p & Ho & Hok & Hp & Ha);
        exists o, n, p; repeat split; auto;
        destruct Hok as [->|Hok]; auto;
        intros Hin; apply Hok; apply elem_of_app; auto
       |exact Hpost].
    destruct Hpost as (newc & -> & Hnd & Hdis & Hstep).
    assert (Hself' : Some self ∉ Some tgt :: newc).
    { intros Hin. apply elem_of_cons in Hin. destruct Hin as [Heq|Hin].
      - congruence.
      - apply (Hdis _ Hin). apply elem_of_app. auto. }
    assert (Hme' : st' !! self = Some me)
      by (rewrite (step_untouched _ _ _ _ Hstep Hself'); auto).
    assert (Hlen : length st' = length st) by (eapply step_length; eauto).
    assert (HIH : wpost st' ((sf ++ [Some tgt]) ++ newc)
                    (walk call s self ks st' ((sf ++ [Some tgt]) ++ newc))).
    { eapply IH; eauto.
      - eapply step_closed; eauto.
      - apply elem_of_app. left. apply elem_of_app. auto.
      - rewrite Hlen. etransitivity; [|exact Hfuel].
        apply unvisited_mono. intros x Hx.
        apply elem_of_app. left. apply elem_of_app. auto. }
    destruct (walk call s self ks st' ((sf ++ [Some tgt]) ++ newc))
      as [[st'' sf'']|e|]; simpl in *; [| |exact HIH].
    + destruct HIH as (new2 & -> & Hnd2 & Hdis2 & Hstep2).
      exists ((Some tgt :: newc) ++ new2). split; [|split; [|split]].
      * rewrite <- !app_assoc. reflexivity.
      * apply NoDup_app. split; [|split; auto].
        -- apply NoDup_cons. split; auto.
           intros Hin. apply (Hdis _ Hin).
           apply elem_of_app. right. apply list_elem_of_here.
        -- intros x Hx Hx2. apply (Hdis2 _ Hx2).
           apply elem_of_cons in Hx. destruct Hx as [->|Hx].
           ++ apply elem_of_app. left. apply elem_of_app. right.
              apply list_elem_of_here.
           ++ apply elem_of_app. auto.
      * intros x Hx Hsf. apply elem_of_app in Hx. destruct Hx as [Hx|Hx].
        -- apply elem_of_cons in Hx. destruct Hx as [->|Hx]; [auto|].
           apply (Hdis _ Hx). apply elem_of_app. auto.
        -- apply (Hdis2 _ Hx). apply elem_of_app. left.
           apply elem_of_app. auto.
      * eapply step_trans; eauto.
        intros x Hx Hx2. apply (Hdis2 _ Hx2).
        apply elem_of_cons in Hx. destruct Hx as [->|Hx].
        -- apply elem_of_app. left. apply elem_of_app. right.
           apply list_elem_of_here.
        -- apply elem_of_app. auto.
    + eapply raised_back; eauto. simpl. intros o Ho. split.
      * intros Hin. apply Ho. apply elem_of_cons in Hin.
        destruct Hin as [Heq|Hin].
        -- rewrite Heq. apply elem_of_app. left. apply elem_of_app. right.
           apply list_elem_of_here.
        -- apply elem_of_app. auto.
      * intros Hin. apply Ho. apply elem_of_app. left.
        apply elem_of_app. auto.
Qed.

Lemma propagate_once fuel :
  forall par st self sf,
    closed st -> self < length st -> I par ->
    unvisited (length st)
      (if decide (Some self ∈ sf) then sf else sf ++ [Some self]) < fuel ->
    post st self (if decide (Some self ∈ sf) then sf else sf ++ [Some self])
      (propagate act fuel par st self sf).
Proof.
  induction fuel as [|fuel IH]; intros par st self sf Hc Hl Hpar Hfuel;
    [lia|].
  simpl. set (sf1 := if decide (Some self ∈ sf) then sf else sf ++ [Some self])
    in *.
  assert (Hself : Some self ∈ sf1).
  { unfold sf1. destruct (decide (Some self ∈ sf)); auto.
    apply elem_of_app. right. apply list_elem_of_here. }
  destruct (lookup_lt_is_Some_2 st self Hl) as [me Hme].
  unfold deref at 1. rewrite Hme. simpl.
  destruct (act par me) as [[me' par']|e|] eqn:Ha; simpl;
    [|exists self, me, par; auto|eapply act_fuel; eauto].
  assert (Hpar' : I par') by eauto.
  assert (Hcall : forall st tgt sf,
             closed st -> tgt < length st -> Some tgt ∈ sf ->
             unvisited (length st) sf < fuel ->
             post st tgt sf (propagate act fuel par' st tgt sf)).
  { intros st0 tgt sf0 Hc0 Hl0 Hin0 Hf0.
    specialize (IH par' st0 tgt sf0 Hc0 Hl0 Hpar').
    rewrite decide_True in IH by auto. auto. }
  assert (Hstep0 : step st (<[self := me']> st) [Some self])
    by (eapply (step_act _ _ _ _ par par'); eauto).
  assert (Hme1 : <[self := me']> st !! self = Some me')
    by (apply list_lookup_insert_eq; auto).
  assert (Hc1 : closed (<[self := me']> st)) by (eapply step_closed; eauto).
  assert (Hlen1 : length (<[self := me']> st) = length st)
    by apply length_insert.
  assert (Hw1 : wpost (<[self := me']> st) sf1
                  (walk (propagate act fuel par') Prev self
                     (Dict.keys (prev me')) (<[self := me']> st) sf1)).
  { eapply walk_once; eauto.
    - intros i Hi. apply in_keys_get. exact Hi.
    - rewrite Hlen1. lia. }
  destruct (walk (propagate act fuel par') Prev self
              (Dict.keys (prev me')) (<[self := me']> st) sf1)
    as [[st2 sf2]|e|]; simpl in *; [| |exact Hw1].
  2:{ eapply raised_back; eauto. simpl. intros o Ho. split; auto.
      intros Hin. apply list_elem_of_singleton in Hin.
      injection Hin as ->. auto. }
  destruct Hw1 as (new1 & -> & Hnd1 & Hdis1 & Hstep1).
  assert (Hme2 : st2 !! self = Some me').
  { rewrite (step_untouched _ _ _ _ Hstep1); auto.
    intros Hin. apply (Hdis1 _ Hin). auto. }
  unfold deref. rewrite Hme2. simpl.
  assert (Hlen2 : length st2 = length st)
    by (rewrite (step_length _ _ _ Hstep1); auto).
  assert (Hw2 : wpost st2 (sf1 ++ new1)
                  (walk (propagate act fuel par') Next self
                     (Dict.keys (next me')) st2 (sf1 ++ new1))).
  { eapply walk_once; eauto.
    - eapply step_closed; eauto.
    - apply elem_of_app. auto.
    - intros i Hi. apply in_keys_get. exact Hi.
    - rewrite Hlen2.
      assert (unvisited (length st) (sf1 ++ new1)
              <= unvisited (length st) sf1); [|lia].
      apply unvisited_mono. intros x Hx. apply elem_of_app. auto. }
  destruct (walk (propagate act fuel par') Next self
              (Dict.keys (next me')) st2 (sf1 ++ new1))
    as [[st3 sf3]|e|]; simpl in *; [| |exact Hw2].
  - destruct Hw2 as (new2 & -> & Hnd2 & Hdis2 & Hstep2).
    exists (new1 ++ new2). split; [|split; [|split]].
    + rewrite app_assoc. reflexivity.
    + apply NoDup_app. split; [|split]; auto.
      intros x Hx Hx2. apply (Hdis2 _ Hx2). apply elem_of_app. auto.
    + intros x Hx Hsf. apply elem_of_app in Hx. destruct Hx as [Hx|Hx].
      * apply (Hdis1 _ Hx). auto.
      * apply (Hdis2 _ Hx). apply elem_of_app. auto.
    + change (Some self :: new1 ++ new2)
        with ([Some self] ++ (new1 ++ new2)).
      eapply step_trans; [exact Hstep0| |].
      * eapply step_trans; eauto.
        intros x Hx Hx2. apply (Hdis2 _ Hx2). apply elem_of_app. auto.
      * intros x Hx Hx2. apply list_elem_of_singleton in Hx. subst x.
        apply elem_of_app in Hx2. destruct Hx2 as [Hx2|Hx2].
        -- apply (Hdis1 _ Hx2). auto.
        -- apply (Hdis2 _ Hx2). apply elem_of_app. auto.
  - assert (Hr1 : raised (<[self := me']> st) e
                    (fun o => Some o ∉ sf1)).
    { eapply raised_back; eauto. simpl. intros o Ho. split.
      - intros Hin. apply Ho. apply elem_of_app. auto.
      - intros Hin. apply Ho. apply elem_of_app. auto. }
    eapply raised_back; eauto. simpl. intros o Ho. split; auto.
    intros Hin. apply list_elem_of_singleton in Hin.
    injection Hin as ->. auto.
Qed.

End PropagateOnce.

(** ** Worked inputs *)

(** A stand-in numeric library for the worked examples below; the theorems
    hold for every [Libm], the examples need one to run. *)
Definition example_libm : Libm :=
  {| np_cos := fun _ => 1%float;
     np_sin := fun _ => 0%float;
     py_fmod := fun x _ => x |}.

(** A two-port object at rest. *)
Definition bar (dirs : option (dict float)) (p n : dict nat) : GDStructure :=
  mkGDS [GShape 0]
        [(KStr "A", (0, 0)%float); (KStr "B", (1, 0)%float)]
        [(KStr "A", Some 1%float); (KStr "B", Some 1%float)]
        dirs [] p n None.

(** Two objects linked in a cycle: each is predecessor and successor of
    the other. *)
Definition cyclic_pair : store :=
  [ bar None [(KStr "A", 1)] [(KStr "B", 1)];
    bar None [(KStr "A", 0)] [(KStr "B", 0)] ].

Section Rotate.
Context `{Libm}.

Lemma rotate_ports_fuel rad ks :
  forall me, rotate_ports rad ks me <> OutOfFuel.
Proof.
  induction ks as [|i ks IH]; simpl; intros me; [discriminate|].
  destruct (Dict.get i (endpoints me)); simpl; [|discriminate].
  destruct (endpoint_directions me) as [d|]; simpl; auto.
  destruct (nonempty d); simpl; auto.
  destruct (Dict.get i d); simpl; auto; discriminate.
Qed.

Lemma rotate_body_fuel rad n : rotate_body rad n <> OutOfFuel.
Proof.
  unfold rotate_body.
  pose proof (rotate_ports_fuel rad
                (Dict.keys (endpoints (set_structure n (structure n ++ [GRotate rad]))))
                (set_structure n (structure n ++ [GRotate rad]))) as Hf.
  destruct (rotate_ports _ _ _); simpl; congruence.
Qed.

Lemma rotate_ports_structure rad ks :
  forall me me', rotate_ports rad ks me = Ok me' -> structure me' = structure me.
Proof.
  induction ks as [|i ks IH]; simpl; intros me me' Hr.
  - congruence.
  - inv_bind Hr. inv_bind Hr. apply IH in Hr. rewrite Hr.
    simpl in Hx0.
    destruct (endpoint_directions me) as [d|]; [destruct (nonempty d)|].
    + inv_bind Hx0. injection Hx0 as <-. reflexivity.
    + injection Hx0 as <-. reflexivity.
    + injection Hx0 as <-. reflexivity.
Qed.

Lemma rotate_ports_raises rad ks :
  forall me e, rotate_ports rad ks me = Raise e -> e = KeyError.
Proof.
  induction ks as [|i ks IH]; simpl; intros me e Hr; [discriminate|].
  destruct (Dict.get i (endpoints me)); simpl in Hr; [|congruence].
  destruct (endpoint_directions me) as [d|]; simpl in Hr; eauto.
  destruct (nonempty d); simpl in Hr; eauto.
  destruct (Dict.get i d); simpl in Hr; eauto. congruence.
Qed.

Lemma rotate_body_raises rad n e : rotate_body rad n = Raise e -> e = KeyError.
Proof.
  unfold rotate_body. intros Hb.
  destruct (rotate_ports _ _ _) as [m|e'|] eqn:Hp; simpl in Hb;
    try discriminate.
  injection Hb as <-. eapply rotate_ports_raises; eauto.
Qed.

Lemma rotate_body_structure rad n n' rad' :
  rotate_body rad n = Ok (n', rad') ->
  structure n' = structure n ++ [GRotate rad] /\ rad' = rad.
Proof.
  unfold rotate_body. intros Hb. inv_bind Hb. injection Hb as <- <-.
  apply rotate_ports_structure in Hx. auto.
Qed.

(** C5. For every finite store whose links point into it -- cyclic link
    graphs included -- a top-level [rotate] call stops: it does not run out
    of fuel, and an exception can only be the [KeyError] of the rotation of
    one object (a port without an entry in a non-empty direction map).
    When it returns, the visited list has no repetition, and each
    object is either in it and has received the rotation exactly once (its
    shape got one more [rotate(rad)] call), or is not and is untouched. *)
Theorem rotate_visits_each_node_once (st : store) (self : nat) (rad : float) :
  closed st -> self < length st ->
  match rotate_from (S (length st)) rad st self [None] with
  | OutOfFuel => False
  | Raise e =>
      e = KeyError
      /\ exists o n, st !! o = Some n /\ rotate_body rad n = Raise e
  | Ok (st', sf') =>
      NoDup sf' /\ length st' = length st /\
      forall o n, st !! o = Some n ->
        exists n', st' !! o = Some n' /\
          if decide (Some o ∈ sf')
          then rotate_body rad n = Ok (n', rad)
               /\ structure n' = structure n ++ [GRotate rad]
          else n' = n
  end.
Proof.
  intros Hc Hl. unfold rotate_from.
  pose proof (propagate_once rotate_body (fun p => p = rad)
                rotate_body_frame) as Ho.
  specialize (Ho ltac:(intros par n n' par' -> Hb;
                       apply rotate_body_structure in Hb; tauto)
                 rotate_body_fuel (S (length st)) rad st self [None]
                 Hc Hl eq_refl).
  assert (Hnone : Some self ∉ [None : option nat]).
  { intros Hin. apply list_elem_of_singleton in Hin. discriminate. }
  rewrite decide_False in Ho by exact Hnone.
  assert (Hf : unvisited (length st) ([None] ++ [Some self]) < S (length st)).
  { pose proof (unvisited_add (length st) [None] self Hl Hnone).
    pose proof (unvisited_le (length st) [None]). lia. }
  specialize (Ho Hf).
  destruct (propagate rotate_body (S (length st)) rad st self [None])
    as [[st' sf']|e|]; simpl in *; [| |exact Ho].
  - destruct Ho as (new & -> & Hnd & Hdis & Hstep). split; [|split].
    + apply NoDup_cons. split.
      * intros Hin. apply elem_of_cons in Hin.
        destruct Hin as [Hin|Hin]; [discriminate|].
        apply (Hdis _ Hin). apply list_elem_of_here.
      * apply NoDup_cons. split; auto.
        intros Hin. apply (Hdis _ Hin).
        apply elem_of_cons. right. apply list_elem_of_here.
    + eapply step_length; eauto.
    + intros o n Hon. destruct Hstep as [_ Hs].
      destruct (Hs _ _ Hon) as (n' & Hn' & Hd). exists n'. split; auto.
      destruct (decide (Some o ∈ Some self :: new)) as [Hin|Hnin].
      * rewrite decide_True by (apply elem_of_cons; auto).
        destruct Hd as (p & p' & -> & Hb).
        destruct (rotate_body_structure _ _ _ _ Hb) as [Hs' ->]. auto.
      * rewrite decide_False; auto.
        intros Hin. apply elem_of_cons in Hin.
        destruct Hin as [Hin|Hin]; [discriminate|auto].
  - destruct Ho as (o & n & p & Hon & _ & -> & Hb).
    split; [eapply rotate_body_raises; eauto|eauto].
Qed.

End Rotate.

Lemma closed_cyclic_pair : closed cyclic_pair.
Proof. repeat (constructor; simpl; try lia). Defined.

Lemma rotate_visits_each_node_once_witness :
  closed cyclic_pair /\ 0 < length cyclic_pair /\
  match rotate_from (H := example_libm) (S (length cyclic_pair)) 1%float
          cyclic_pair 0 [None] with
  | OutOfFuel => False
  | Raise e =>
      e = KeyError
      /\ exists o n, cyclic_pair !! o = Some n
                     /\ rotate_body (H := example_libm) 1%float n = Raise e
  | Ok (st', sf') =>
      NoDup sf' /\ length st' = length cyclic_pair /\
      forall o n, cyclic_pair !! o = Some n ->
        exists n', st' !! o = Some n' /\
          if decide (Some o ∈ sf')
          then rotate_body (H := example_libm) 1%float n = Ok (n', 1%float)
               /\ structure n' = structure n ++ [GRotate 1%float]
          else n' = n
  end.
Proof.
  split; [exact closed_cyclic_pair|].
  split; [simpl; lia|].
  apply (rotate_visits_each_node_once (H := example_libm) cyclic_pair 0
           1%float closed_cyclic_pair).
  simpl; lia.
Defined.

(** ** C9: transforms leave links, port names and port sizes alone *)

Inductive transform :=
| TRotate (rad : float)
| TTranslate (delta : point)
| TMirror (p1 p2 : point).

Definition apply_transform `{Libm} (st : store) (self : nat) (t : transform)
    : res store :=
  match t with
  | TRotate rad => rotate st self rad
  | TTranslate delta => translate st self delta
  | TMirror p1 p2 => mirror st self p1 p2
  end.

Definition is_rotation (t : transform) : bool :=
  match t with TRotate _ => true | _ => false end.

(** C9. A [rotate], [translate] or [mirror] call that returns leaves every
    object of the store in place with the same predecessor and successor
    maps, the same port names (in the same order), the same port sizes, the
    same children and builder; only [rotate] may change the port
    directions.  What is left to change is the shape, the port positions
    and, for [rotate], the port directions. *)
Theorem transforms_keep_links_ports_dims `{Libm}
    (st st' : store) (self : nat) (t : transform) :
  apply_transform st self t = Ok st' ->
  length st' = length st /\
  forall o n, st !! o = Some n ->
    exists n', st' !! o = Some n'
      /\ prev n' = prev n /\ next n' = next n
      /\ Dict.keys (endpoints n') = Dict.keys (endpoints n)
      /\ endpoint_dims n' = endpoint_dims n
      /\ compound n' = compound n /\ method n' = method n
      /\ (is_rotation t = false ->
          endpoint_directions n' = endpoint_directions n).
Proof.
  intros Ht.
  assert (Hr : Forall2 (fun a b => same_topology a b /\
                          (is_rotation t = false ->
                           endpoint_directions b = endpoint_directions a))
                 st st').
  { destruct t as [rad|delta|p1 p2]; simpl in Ht.
    - apply rotate_frame in Ht.
      eapply Forall2_impl; [exact Ht|]. simpl. intros a b Hab.
      split; [exact Hab|discriminate].
    - apply translate_frame in Ht.
      eapply Forall2_impl; [exact Ht|]. simpl. intros a b [Hab Hd]. auto.
    - apply mirror_frame in Ht.
      eapply Forall2_impl; [exact Ht|]. simpl. intros a b [Hab Hd]. auto. }
  split; [symmetry; eapply Forall2_length; eauto|].
  intros o n Ho.
  destruct (Forall2_lookup_l _ _ _ _ _ Hr Ho)
    as (n' & Hn' & (Hp & Hx & Hk & Hd & Hc & Hm) & Hdir).
  exists n'. repeat split; auto.
Qed.

Definition cyclic_pair_moved : store :=
  [ mkGDS [GShape 0; GTranslate 1 2]
      [(KStr "A", (1, 2)%float); (KStr "B", (2, 2)%float)]
      [(KStr "A", Some 1%float); (KStr "B", Some 1%float)]
      None [] [(KStr "A", 1)] [(KStr "B", 1)] None;
    mkGDS [GShape 0; GTranslate 1 2]
      [(KStr "A", (1, 2)%float); (KStr "B", (2, 2)%float)]
      [(KStr "A", Some 1%float); (KStr "B", Some 1%float)]
      None [] [(KStr "A", 0)] [(KStr "B", 0)] None ].

Lemma transforms_keep_links_ports_dims_witness :
  apply_transform (H := example_libm) cyclic_pair 0
    (TTranslate (1, 2)%float) = Ok cyclic_pair_moved
  /\ length cyclic_pair_moved = length cyclic_pair
  /\ forall o n, cyclic_pair !! o = Some n ->
       exists n', cyclic_pair_moved !! o = Some n'
         /\ prev n' = prev n /\ next n' = next n
         /\ Dict.keys (endpoints n') = Dict.keys (endpoints n)
         /\ endpoint_dims n' = endpoint_dims n
         /\ compound n' = compound n /\ method n' = method n
         /\ (is_rotation (TTranslate (1, 2)%float) = false ->
             endpoint_directions n' = endpoint_directions n).
Proof.
  split; [vm_compute; reflexivity|].
  apply (transforms_keep_links_ports_dims (H := example_libm)
           cyclic_pair cyclic_pair_moved 0 (TTranslate (1, 2)%float)).
  vm_compute; reflexivity.
Defined.

(** ** C3: auto-orientation in connect *)

Definition plain_pair : store := [bar None [] []; bar None [] []].

Definition plain_pair_connected : store :=
  [ mkGDS [GShape 0; GTranslate 1 0]
      [(KStr "A", (1, 0)%float); (KStr "B", (2, 0)%float)]
      [(KStr "A", Some 1%float); (KStr "B", Some 1%float)]
      None [] [(KStr "A", 1)] [] None;
    mkGDS [GShape 0]
      [(KStr "A", (0, 0)%float); (KStr "B", (1, 0)%float)]
      [(KStr "A", Some 1%float); (KStr "B", Some 1%float)]
      None [] [] [(KStr "B", 0)] None ].

(** C3, as stated, fails: with auto-orientation requested ([rotate=True])
    and no direction data on either object, [connect] raises nothing; it
    moves [self] and records the link. *)
Lemma connect_without_directions_succeeds :
  has_directions (bar None [] []) = false
  /\ connect (H := example_libm) plain_pair 0 (KStr "A") 1 (KStr "B")
       (0, 0)%float false true = Ok plain_pair_connected.
Proof. split; vm_compute; reflexivity. Qed.

Section Connect.
Context `{Libm}.

(** C3, amended.  When auto-orientation is requested and one of the two
    objects has no direction data ([None] or empty), [connect] skips the
    rotation without an error and does what it does with [rotate=False].
    When both have direction data, it first rotates [self] by
    [(to.endpoint_directions[ep_to] - self.endpoint_directions[ep_self]
      - pi) % (2 pi)], and then translates and links. *)
Theorem connect_orients_iff_both_have_directions
    (st : store) (self : nat) (ep_self : key) (to : nat) (ep_to : key)
    (offset : point) (obj_link : bool) (me other : GDStructure) :
  st !! self = Some me -> st !! to = Some other ->
  (has_directions me && has_directions other = false ->
   connect st self ep_self to ep_to offset obj_link true
   = connect st self ep_self to ep_to offset obj_link false)
  /\
  (has_directions me && has_directions other = true ->
   forall d_to d_self,
     Dict.get ep_to (default [] (endpoint_directions other)) = Some d_to ->
     Dict.get ep_self (default [] (endpoint_directions me)) = Some d_self ->
     connect st self ep_self to ep_to offset obj_link true
     = (let* st1 :=
          rotate st self
            (py_fmod (d_to - d_self - np_pi)%float (2 * np_pi)%float) in
        connect st1 self ep_self to ep_to offset obj_link false)).
Proof.
  intros Hme Hother. split.
  - intros Hd. unfold connect, deref. rewrite Hme, Hother. simpl.
    rewrite Hd. reflexivity.
  - intros Hd d_to d_self Hto Hself.
    unfold connect at 1. unfold deref at 1 2. rewrite Hme, Hother. simpl.
    rewrite Hd. simpl. rewrite Hto, Hself. simpl.
    destruct (rotate st self _) as [st1| |] eqn:Hrot; simpl; auto.
    apply rotate_frame in Hrot.
    destruct (Forall2_lookup_l _ _ _ _ _ Hrot Hme) as (me1 & Hme1 & _).
    destruct (Forall2_lookup_l _ _ _ _ _ Hrot Hother) as (o1 & Ho1 & _).
    unfold connect, deref. simpl. rewrite !Hme1, !Ho1. simpl.
    rewrite andb_false_r. simpl. rewrite !Hme1, !Ho1. reflexivity.
Qed.

End Connect.

Definition facing_dirs : dict float :=
  [(KStr "A", np_pi); (KStr "B", 0%float)].

Definition facing_pair : store :=
  [bar (Some facing_dirs) [] []; bar (Some facing_dirs) [] []].

Lemma connect_orients_iff_both_have_directions_witness :
  facing_pair !! 0 = Some (bar (Some facing_dirs) [] [])
  /\ facing_pair !! 1 = Some (bar (Some facing_dirs) [] [])
  /\ (has_directions (bar (Some facing_dirs) [] [])
      && has_directions (bar (Some facing_dirs) [] []) = true ->
      forall d_to d_self,
        Dict.get (KStr "B") facing_dirs = Some d_to ->
        Dict.get (KStr "A") facing_dirs = Some d_self ->
        connect (H := example_libm) facing_pair 0 (KStr "A") 1 (KStr "B")
          (0, 0)%float false true
        = (let* st1 :=
             rotate (H := example_libm) facing_pair 0
               (py_fmod (Libm := example_libm)
                  (d_to - d_self - np_pi)%float (2 * np_pi)%float) in
           connect (H := example_libm) st1 0 (KStr "A") 1 (KStr "B")
             (0, 0)%float false false)).
Proof.
  split; [reflexivity|]. split; [reflexivity|].
  apply (connect_orients_iff_both_have_directions (H := example_libm)
           facing_pair 0 (KStr "A") 1 (KStr "B") (0, 0)%float false
           (bar (Some facing_dirs) [] []) (bar (Some facing_dirs) [] [])
           eq_refl eq_refl).
Defined.

(** ** C8: the epsilon of mirror *)

(** An object with the single port ["A"] at [p]. *)
Definition port_at (p : point) : GDStructure :=
  new_GDStructure [GShape 0] [(KStr "A", p)] [(KStr "A", Some 1%float)] None.

(** C8, evaluated on the code: for the vertical mirror line through
    [(1, 0)] and [(1, 1)] the perturbation [p1[0] += 1E-20] is absorbed by
    rounding ([1 + 1E-20 = 1] in binary64), so [p2[0] - p1[0]] is still
    zero and the slope computation divides by zero: reflecting the port
    [(2, 0)] raises [ZeroDivisionError], and so does the [mirror] call on an
    object with that port.  The claim says the division by zero never
    happens.  (On the line through [(0, 0)] and [(0, 1)] the perturbation
    does take effect and the same port is reflected to [(-2, 0)].) *)
Theorem mirror_vertical_line_divides_by_zero :
  (1 + eps_mirror =? 1)%float = true
  /\ mirror_point (1, 0)%float (1, 1)%float (2, 0)%float
     = Raise ZeroDivisionError
  /\ mirror [port_at (2, 0)%float] 0 (1, 0)%float (1, 1)%float
     = Raise ZeroDivisionError
  /\ mirror_point (0, 0)%float (0, 1)%float (2, 0)%float
     = Ok ((eps_mirror, 0)%float, (-2, 0)%float).
Proof. repeat split; vm_compute; reflexivity. Qed.

(** ** C1 and C4: seeds and neighbours in router *)

Definition open_cell : cell := mkCell (fun _ => false) (fun _ => false).

(** Ports at [(2, 1)] and [(1, 0)] on the 3 x 2 grid
    [xr = [0, 1, 2]], [yr = [1, 0]], nothing in the way. *)
Definition wrap_store : store := [port_at (2, 1)%float; port_at (1, 0)%float].

Definition wrap_args : route_args :=
  mkArgs open_cell 0 (KStr "A") 1 (KStr "A") 1%float
    [0; 1; 2]%float [1; 0]%float false "y" None "poly" "native".

(** C1, evaluated on the code.  On the 3 x 2 grid the seed is index 2, the
    last point of the first row, and the target index 4.  [lookaround]
    offers index 3, the first point of the second row, as right neighbour
    of index 2; neither test of [router] ([0 -> 1] and [1 -> 0] modulo the
    row length) sees the step from column 2 to column 0, so the first sweep
    labels index 3 with step 1 and puts it in the next frontier.  The claim
    says such a neighbour is skipped. *)
Theorem wave_crosses_row_boundary :
  (exists s, route_setup wrap_store wrap_args = Ok s
             /\ s_inside s = replicate 6 false
             /\ s_start_i s = [2%Z] /\ s_end_i s = [4%Z])
  /\ lookaround 2 3 "y" = [-1; 5; 1; 3]%Z
  /\ (2 mod 3 = 2 /\ 3 mod 3 = 0)%Z
  /\ sweep (replicate 6 false) [4%Z] 3 6 "y" 1 [2%Z]
       (mkWave (replicate 6 0%Z) [] false None)
     = mkWave [0; 1; 0; 1; 0; 1]%Z [5; 1; 3]%Z false None.
Proof.
  split; [eexists; split; [vm_compute; reflexivity|repeat split]|].
  repeat split.
Qed.

(** A structure covering [x < 1], with its port on its edge at [(1, 0)]. *)
Definition slab_cell : cell :=
  mkCell (fun c => (fst c <? 1)%float) (fun c => (fst c <? 1)%float).

Definition slab_store : store := [port_at (1, 0)%float; port_at (5, 0)%float].

Definition slab_args : route_args :=
  mkArgs slab_cell 0 (KStr "A") 1 (KStr "A") 1%float
    [0; 2; 4; 6]%float [0]%float false "y" None "poly" "native".

(** C4, evaluated on the code.  The grid points [(0, 0)] and [(2, 0)] are
    both at squared distance 1 from the port [(1, 0)]; the first lies
    inside the structure, the second outside.  The least distance is taken
    over the outside points, but the indices are then collected over all
    points, so the seed set is [[0, 1]] and holds the obstacle point 0.
    The claim says no obstacle point is ever a seed. *)
Theorem seed_set_holds_obstacle_point :
  exists s, route_setup slab_store slab_args = Ok s
            /\ s_inside s = [true; false; false; false]
            /\ s_start_i s = [0; 1]%Z.
Proof. eexists. split; [vm_compute; reflexivity|split; reflexivity]. Qed.

(** ** C2: the wave stops, and a failed route leaves the store alone *)

Lemma unlabelled_insert_le (l : list Z) (i : nat) (v : Z) :
  v <> 0%Z -> unlabelled (<[i := v]> l) <= unlabelled l.
Proof.
  intros Hv. unfold unlabelled. revert i.
  induction l as [|x l IH]; intros [|i]; simpl; auto.
  - rewrite !filter_cons. rewrite decide_False by auto.
    destruct (decide (x = 0%Z)); simpl; lia.
  - rewrite !filter_cons. specialize (IH i).
    destruct (decide (x = 0%Z)); simpl; lia.
Qed.

Lemma unlabelled_insert_lt (l : list Z) (i : nat) (v : Z) :
  v <> 0%Z -> l !! i = Some 0%Z ->
  S (unlabelled (<[i := v]> l)) = unlabelled l.
Proof.
  intros Hv. unfold unlabelled. revert i.
  induction l as [|x l IH]; intros [|i] Hi; simpl in *; try discriminate.
  - injection Hi as ->. rewrite !filter_cons.
    rewrite decide_False by auto. rewrite decide_True by auto. reflexivity.
  - rewrite !filter_cons. specialize (IH i Hi).
    destruct (decide (x = 0%Z)); simpl; lia.
Qed.

(** What a pass over the neighbours keeps: the grid size, and every index
    put in the next frontier pays with one unlabelled point. *)
Definition wave_le (lp : Z) (w w' : wave) : Prop :=
  (Z.of_nat (length (p_g w)) = lp -> Z.of_nat (length (p_g w')) = lp)
  /\ (Z.of_nat (length (p_g w)) = lp ->
      unlabelled (p_g w') + length (next_start_i w')
      <= unlabelled (p_g w) + length (next_start_i w)).

Lemma wave_le_refl lp w : wave_le lp w w.
Proof. split; auto. Qed.

Lemma wave_le_trans lp w1 w2 w3 :
  wave_le lp w1 w2 -> wave_le lp w2 w3 -> wave_le lp w1 w3.
Proof.
  intros [Ha Hb] [Hc Hd]. split; auto.
  intros Hl. specialize (Hb Hl). specialize (Hd (Ha Hl)). lia.
Qed.

Lemma visit_le inside end_i lxr lp k i w nb :
  k <> 0%Z -> wave_le lp w (fst (visit inside end_i lxr lp k i w nb)).
Proof.
  intros Hk. unfold visit.
  destruct (bool_decide (nb ∈ end_i)); simpl.
  { split; simpl; intros Hl; rewrite ?length_insert; auto.
    pose proof (unlabelled_insert_le (p_g w) (Z.to_nat nb) k Hk). lia. }
  destruct ((nb <? 0)%Z) eqn:H0; simpl; [apply wave_le_refl|].
  destruct ((nb >=? lp)%Z) eqn:H1; simpl; [apply wave_le_refl|].
  destruct ((label (p_g w) nb =? 0)%Z) eqn:H2; simpl; [|apply wave_le_refl].
  destruct (_ || _); simpl; [apply wave_le_refl|].
  destruct (default false (inside !! Z.to_nat nb)); simpl.
  { split; simpl; intros Hl; rewrite ?length_insert; auto.
    pose proof (unlabelled_insert_le (p_g w) (Z.to_nat nb) (-1)%Z
                  ltac:(discriminate)). lia. }
  split; simpl; intros Hl; rewrite ?length_insert; auto.
  rewrite length_app. simpl.
  assert (Hz : p_g w !! Z.to_nat nb = Some 0%Z).
  { unfold label in H2.
    destruct (p_g w !! Z.to_nat nb) as [z|] eqn:Hz.
    - simpl in H2. apply Z.eqb_eq in H2. congruence.
    - apply lookup_ge_None in Hz.
      apply Z.ltb_ge in H0. rewrite Z.geb_leb in H1. apply Z.leb_gt in H1.
      lia. }
  pose proof (unlabelled_insert_lt (p_g w) (Z.to_nat nb) k Hk Hz). lia.
Qed.

Lemma visit_all_le inside end_i lxr lp k i ns :
  k <> 0%Z -> forall w, wave_le lp w (visit_all inside end_i lxr lp k i ns w).
Proof.
  intros Hk. induction ns as [|nb ns IH]; intros w; simpl.
  - apply wave_le_refl.
  - pose proof (visit_le inside end_i lxr lp k i w nb Hk) as Hv.
    destruct (visit inside end_i lxr lp k i w nb) as [w' brk]. simpl in Hv.
    destruct brk; auto.
    eapply wave_le_trans; eauto.
Qed.

Lemma sweep_le inside end_i lxr lp pref k start_i :
  k <> 0%Z ->
  forall w, wave_le lp w (sweep inside end_i lxr lp pref k start_i w).
Proof.
  intros Hk. unfold sweep.
  induction start_i as [|i l IH]; intros w; simpl.
  - apply wave_le_refl.
  - eapply wave_le_trans; [|apply IH]. apply visit_all_le; auto.
Qed.

Lemma wave_loop_total inside end_i lxr lp pref fuel :
  forall k start_i w,
    (0 <= k)%Z -> Z.of_nat (length (p_g w)) = lp ->
    unlabelled (p_g w)
    + (if negb (path_found w) && nonempty start_i then 1 else 0) < fuel ->
    exists r, wave_loop fuel inside end_i lxr lp pref k start_i w = Some r.
Proof.
  induction fuel as [|fuel IH]; intros k start_i w Hk Hl Hf; [lia|].
  simpl. destruct (negb (path_found w) && nonempty start_i); [|eauto].
  set (w0 := mkWave (p_g w) [] (path_found w) (final_index w)).
  destruct (sweep_le inside end_i lxr lp pref (k + 1) start_i
              ltac:(lia) w0) as [Hlen Hcount].
  specialize (Hlen Hl). specialize (Hcount Hl). simpl in Hcount.
  apply IH; auto; [lia|].
  destruct (negb _ && nonempty _) eqn:Hc; [|lia].
  apply andb_prop in Hc. destruct Hc as [_ Hne].
  destruct (next_start_i (sweep inside end_i lxr lp pref (k + 1) start_i w0));
    [discriminate|]. simpl in Hcount. lia.
Qed.

(** The loop only stops without a path on an empty frontier. *)
Lemma wave_loop_exit inside end_i lxr lp pref fuel :
  forall k start_i w k' w',
    wave_loop fuel inside end_i lxr lp pref k start_i w = Some (k', w') ->
    path_found w' = false -> next_start_i w' = [].
Proof.
  induction fuel as [|fuel IH]; intros k start_i w k' w' Hw Hp;
    [discriminate|].
  simpl in Hw.
  destruct (negb (path_found w) && nonempty start_i) eqn:Hc; [eauto|].
  injection Hw as <- <-. simpl in *. rewrite Hp in Hc. simpl in Hc.
  destruct start_i; [reflexivity|discriminate].
Qed.

Lemma unlabelled_replicate n : unlabelled (replicate n 0%Z) = n.
Proof.
  unfold unlabelled. induction n as [|n IH]; simpl; auto.
Qed.

Lemma propagate_wave_total inside end_i lxr pref start_i :
  exists r, propagate_wave inside end_i lxr pref start_i = Some r.
Proof.
  unfold propagate_wave. apply wave_loop_total; simpl.
  - lia.
  - rewrite length_replicate. reflexivity.
  - rewrite unlabelled_replicate. destruct (nonempty start_i); lia.
Qed.

(** C2. Once the grid and the seed and target sets are set up, the wave
    propagation of [router] always comes to an end.  If it ends without
    having reached a target point, the frontier is empty and [router]
    returns its failure value together with the store it was given: no link
    map of any object is written and no routed object is added.  More
    generally every failure result of [router] carries the unchanged
    store. *)
Theorem router_no_path_leaves_store (st : store) (a : route_args) (s : setup) :
  route_setup st a = Ok s ->
  (exists k w, route_wave a s = Some (k, w)
     /\ (path_found w = false ->
         next_start_i w = [] /\ router st a = Ok (st, NoPathFound)))
  /\ (forall st', router st a = Ok (st', NoPathFound) -> st' = st).
Proof.
  intros Hs. split.
  - destruct (propagate_wave_total (s_inside s) (s_end_i s)
                (Z.of_nat (length (xr a))) (r_pref a) (s_start_i s))
      as [[k w] Hw].
    exists k, w. split; [exact Hw|]. intros Hp. split.
    + unfold propagate_wave in Hw. eapply wave_loop_exit; eauto.
    + unfold router. rewrite Hs. simpl. unfold route_wave. rewrite Hw.
      rewrite Hp. reflexivity.
  - intros st' Hr. unfold router in Hr. rewrite Hs in Hr. simpl in Hr.
    destruct (route_wave a s) as [[k w]|]; [|discriminate].
    destruct (negb (path_found w)); [congruence|].
    repeat (inv_bind Hr). discriminate.
Qed.

(** A wall along [x = 2] between ports at [(1, 1)] and [(3, 1)], on the
    5 x 3 grid [xr = [0..4]], [yr = [2, 1, 0]]. *)
Definition wall_cell : cell :=
  mkCell (fun c => (fst c =? 2)%float) (fun c => (fst c =? 2)%float).

Definition wall_store : store := [port_at (1, 1)%float; port_at (3, 1)%float].

Definition wall_args : route_args :=
  mkArgs wall_cell 0 (KStr "A") 1 (KStr "A") 1%float
    [0; 1; 2; 3; 4]%float [2; 1; 0]%float false "y" None "poly" "native".

Definition wall_setup : setup :=
  mkSetup (1, 1)%float (3, 1)%float
    (grid [0; 1; 2; 3; 4]%float [2; 1; 0]%float)
    [false; false; true; false; false;
     false; false; true; false; false;
     false; false; true; false; false]
    [6%Z] [8%Z].

Lemma router_no_path_leaves_store_witness :
  route_setup wall_store wall_args = Ok wall_setup
  /\ router wall_store wall_args = Ok (wall_store, NoPathFound)
  /\ (exists k w, route_wave wall_args wall_setup = Some (k, w)
        /\ (path_found w = false ->
            next_start_i w = []
            /\ router wall_store wall_args = Ok (wall_store, NoPathFound)))
  /\ (forall st', router wall_store wall_args = Ok (st', NoPathFound) ->
                  st' = wall_store).
Proof.
  split; [vm_compute; reflexivity|].
  split; [vm_compute; reflexivity|].
  apply (router_no_path_leaves_store wall_store wall_args wall_setup).
  vm_compute; reflexivity.
Defined.

(** ** disconnect *)

(** Everything of an object but its two link maps. *)
Definition same_payload (a b : GDStructure) : Prop :=
  structure b = structure a /\ endpoints b = endpoints a
  /\ endpoint_dims b = endpoint_dims a
  /\ endpoint_directions b = endpoint_directions a
  /\ compound b = compound a /\ method b = method a.

(** [b] is [a] with some link entries removed, all of them under port
    names of [a]. *)
Definition shrunk (a b : GDStructure) : Prop :=
  same_payload a b /\
  forall s k,
    Dict.get k (links s b) = Dict.get k (links s a)
    \/ (Dict.get k (links s b) = None /\ k ∈ Dict.keys (endpoints a)).

Lemma same_payload_refl a : same_payload a a.
Proof. repeat split. Qed.

Lemma same_payload_trans a b c :
  same_payload a b -> same_payload b c -> same_payload a c.
Proof. intros (?&?&?&?&?&?) (?&?&?&?&?&?). repeat split; congruence. Qed.

Lemma same_payload_set_links s a d : same_payload a (set_links s a d).
Proof. destruct s; repeat split. Qed.

Lemma shrunk_refl a : shrunk a a.
Proof. split; [apply same_payload_refl|auto]. Qed.

Lemma shrunk_trans a b c : shrunk a b -> shrunk b c -> shrunk a c.
Proof.
  intros [Hp1 H1] [Hp2 H2]. split; [eapply same_payload_trans; eauto|].
  intros s k. destruct Hp1 as (_ & He & _).
  destruct (H2 s k) as [Heq|[Hn Hk]].
  - rewrite Heq. apply H1.
  - right. split; auto. rewrite <- He. auto.
Qed.

Section Disconnect.
Variable self : nat.

(** As [shrunk], the removed entries all referring to [self]. *)
Definition unlinked (a b : GDStructure) : Prop :=
  same_payload a b /\
  forall s k,
    Dict.get k (links s b) = Dict.get k (links s a)
    \/ (Dict.get k (links s b) = None /\ k ∈ Dict.keys (endpoints a)
        /\ Dict.get k (links s a) = Some self).

Lemma unlinked_refl a : unlinked a a.
Proof. split; [apply same_payload_refl|auto]. Qed.

Lemma unlinked_trans a b c : unlinked a b -> unlinked b c -> unlinked a c.
Proof.
  intros [Hp1 H1] [Hp2 H2]. split; [eapply same_payload_trans; eauto|].
  intros s k. destruct Hp1 as (_ & He & _).
  destruct (H2 s k) as [Heq|(Hn & Hk & Hv)].
  - rewrite Heq. apply H1.
  - right. split; auto. rewrite <- He. split; auto.
    destruct (H1 s k) as [Heq|(Hn' & _)]; congruence.
Qed.

Lemma unlinked_shrunk a b : unlinked a b -> shrunk a b.
Proof.
  intros [Hp Hu]. split; auto.
  intros s k. destruct (Hu s k) as [?|(?&?&?)]; auto.
Qed.

(** One turn of the loop of [unlink_back]. *)
Definition unlink_turn (s : side) (x : nat) (st : store) (ne : key) : store :=
  match st !! x with
  | None => st
  | Some n =>
      if decide (Dict.get ne (links s n) = Some self)
      then <[x := set_links s n (Dict.del ne (links s n))]> st
      else st
  end.

Lemma unlink_back_fold s x st :
  unlink_back s self x st
  = match st !! x with
    | None => st
    | Some nx => fold_left (unlink_turn s x) (Dict.keys (endpoints nx)) st
    end.
Proof. reflexivity. Qed.

Lemma unlink_turn_unlinked s x st ne nx :
  st !! x = Some nx -> ne ∈ Dict.keys (endpoints nx) ->
  Forall2 unlinked st (unlink_turn s x st ne).
Proof.
  intros Hx Hne. unfold unlink_turn. rewrite Hx.
  destruct (decide (Dict.get ne (links s nx) = Some self)) as [Hg|Hg].
  - eapply related_insert; eauto using unlinked_refl.
    split; [apply same_payload_set_links|].
    intros s' k. destruct (decide (s' = s)) as [->|Hs].
    + rewrite links_set_links. destruct (decide (ne = k)) as [->|Hk].
      * right. rewrite get_del_eq. auto.
      * left. apply get_del_ne. auto.
    + left. destruct s, s'; try congruence; reflexivity.
  - apply related_refl, unlinked_refl.
Qed.

Lemma unlink_fold_unlinked s x nx ks :
  forall st,
    (exists n, st !! x = Some n /\ endpoints n = endpoints nx) ->
    (forall ne, ne ∈ ks -> ne ∈ Dict.keys (endpoints nx)) ->
    Forall2 unlinked st (fold_left (unlink_turn s x) ks st).
Proof.
  induction ks as [|ne ks IH]; intros st (n & Hn & He) Hks; simpl.
  - apply related_refl, unlinked_refl.
  - assert (Hu : Forall2 unlinked st (unlink_turn s x st ne)).
    { eapply unlink_turn_unlinked; eauto. rewrite He. apply Hks.
      apply list_elem_of_here. }
    eapply related_trans; [apply unlinked_trans|exact Hu|].
    apply IH.
    + destruct (Forall2_lookup_l _ _ _ _ _ Hu Hn)
        as (n' & Hn' & (_ & He' & _) & _).
      exists n'. split; auto. congruence.
    + intros ne' Hin. apply Hks. apply list_elem_of_further. auto.
Qed.

Lemma unlink_back_unlinked s x st :
  Forall2 unlinked st (unlink_back s self x st).
Proof.
  rewrite unlink_back_fold. destruct (st !! x) as [nx|] eqn:Hx.
  - eapply unlink_fold_unlinked; eauto.
  - apply related_refl, unlinked_refl.
Qed.

Lemma unlink_fold_post s x nx ks :
  forall st,
    (exists n, st !! x = Some n /\ endpoints n = endpoints nx) ->
    (forall ne, ne ∈ ks -> ne ∈ Dict.keys (endpoints nx)) ->
    forall ne, ne ∈ ks ->
      exists n', fold_left (unlink_turn s x) ks st !! x = Some n'
                 /\ Dict.get ne (links s n') <> Some self.
Proof.
  induction ks as [|e0 ks IH]; intros st (n & Hn & He) Hks ne Hin;
    [inversion Hin|].
  simpl.
  assert (Hu : Forall2 unlinked st (unlink_turn s x st e0)).
  { eapply unlink_turn_unlinked; eauto. rewrite He. apply Hks.
    apply list_elem_of_here. }
  destruct (Forall2_lookup_l _ _ _ _ _ Hu Hn)
    as (n1 & Hn1 & (_ & He1 & _) & _).
  assert (Hks' : forall ne', ne' ∈ ks -> ne' ∈ Dict.keys (endpoints nx))
    by (intros ne' Hin'; apply Hks; apply list_elem_of_further; auto).
  assert (Hex : exists n, unlink_turn s x st e0 !! x = Some n
                          /\ endpoints n = endpoints nx)
    by (exists n1; split; [auto|congruence]).
  apply elem_of_cons in Hin. destruct Hin as [->|Hin]; [|eauto].
  assert (Hg1 : Dict.get e0 (links s n1) <> Some self).
  { unfold unlink_turn in Hn1. rewrite Hn in Hn1.
    destruct (decide (Dict.get e0 (links s n) = Some self)) as [Hg|Hg].
    - rewrite list_lookup_insert_eq in Hn1
        by (eapply lookup_lt_Some; eauto).
      injection Hn1 as <-. rewrite links_set_links, get_del_eq. discriminate.
    - congruence. }
  pose proof (unlink_fold_unlinked s x nx ks _ Hex Hks') as Hrest.
  destruct (Forall2_lookup_l _ _ _ _ _ Hrest Hn1) as (n' & Hn' & _ & Hl).
  exists n'. split; auto.
  destruct (Hl s e0) as [Heq|[Hnone _]]; congruence.
Qed.

Lemma unlink_back_post s x st nx ne :
  st !! x = Some nx -> ne ∈ Dict.keys (endpoints nx) ->
  exists n', unlink_back s self x st !! x = Some n'
             /\ Dict.get ne (links s n') <> Some self.
Proof.
  intros Hx Hne. rewrite unlink_back_fold, Hx.
  eapply unlink_fold_post; eauto.
Qed.

Lemma disconnect_side_shrunk s e st :
  (forall me, st !! self = Some me -> e ∈ Dict.keys (endpoints me)) ->
  Forall2 shrunk st (disconnect_side s self e st).
Proof.
  intros He. unfold disconnect_side.
  destruct (st !! self) as [me|] eqn:Hme;
    [|apply related_refl, shrunk_refl].
  destruct (Dict.get e (links s me)) as [x|] eqn:Hx;
    [|apply related_refl, shrunk_refl].
  pose proof (unlink_back_unlinked (flip s) x st) as Hu.
  assert (Hs : Forall2 shrunk st (unlink_back (flip s) self x st))
    by (eapply Forall2_impl; [exact Hu|apply unlinked_shrunk]).
  destruct (Forall2_lookup_l _ _ _ _ _ Hu Hme)
    as (me1 & Hme1 & (_ & He1 & _) & _).
  rewrite Hme1.
  eapply related_trans; [apply shrunk_trans|exact Hs|].
  eapply related_insert; eauto using shrunk_refl.
  split; [apply same_payload_set_links|].
  intros s' k. destruct (decide (s' = s)) as [->|Hne].
  - rewrite links_set_links. destruct (decide (e = k)) as [->|Hk].
    + right. rewrite get_del_eq. split; auto. rewrite He1. auto.
    + left. apply get_del_ne. auto.
  - left. destruct s, s'; try congruence; reflexivity.
Qed.

Lemma disconnect_side_post s e st me :
  st !! self = Some me ->
  exists me', disconnect_side s self e st !! self = Some me'
              /\ Dict.get e (links s me') = None.
Proof.
  intros Hme. unfold disconnect_side. rewrite Hme.
  destruct (Dict.get e (links s me)) as [x|] eqn:Hx; [|eauto].
  pose proof (unlink_back_unlinked (flip s) x st) as Hu.
  destruct (Forall2_lookup_l _ _ _ _ _ Hu Hme) as (me1 & Hme1 & _).
  rewrite Hme1. eexists. split.
  - apply list_lookup_insert_eq. eapply lookup_lt_Some; eauto.
  - rewrite links_set_links. apply get_del_eq.
Qed.

Lemma disconnect_side_keeps s e st me s' k v :
  st !! self = Some me -> Dict.get k (links s' me) = Some v -> v <> self ->
  s' <> s \/ k <> e ->
  exists me', disconnect_side s self e st !! self = Some me'
              /\ Dict.get k (links s' me') = Some v.
Proof.
  intros Hme Hk Hv Hse. unfold disconnect_side. rewrite Hme.
  destruct (Dict.get e (links s me)) as [x|] eqn:Hx; [|eauto].
  pose proof (unlink_back_unlinked (flip s) x st) as Hu.
  destruct (Forall2_lookup_l _ _ _ _ _ Hu Hme) as (me1 & Hme1 & _ & Hl).
  rewrite Hme1.
  assert (Hk1 : Dict.get k (links s' me1) = Some v).
  { destruct (Hl s' k) as [Heq|(_ & _ & Hself)]; congruence. }
  eexists. split.
  - apply list_lookup_insert_eq. eapply lookup_lt_Some; eauto.
  - destruct (decide (s' = s)) as [->|Hne].
    + rewrite links_set_links. rewrite get_del_ne; auto.
      destruct Hse; congruence.
    + destruct s, s'; try congruence; exact Hk1.
Qed.

Lemma disconnect_side_unlinks s e st me x nx ne :
  st !! self = Some me -> Dict.get e (links s me) = Some x ->
  st !! x = Some nx -> ne ∈ Dict.keys (endpoints nx) ->
  exists nx', disconnect_side s self e st !! x = Some nx'
              /\ Dict.get ne (links (flip s) nx') <> Some self.
Proof.
  intros Hme He Hx Hne. unfold disconnect_side. rewrite Hme, He.
  destruct (unlink_back_post (flip s) x st nx ne Hx Hne)
    as (n1 & Hn1 & Hg).
  pose proof (unlink_back_unlinked (flip s) x st) as Hu.
  destruct (Forall2_lookup_l _ _ _ _ _ Hu Hme) as (me1 & Hme1 & _).
  rewrite Hme1. destruct (decide (x = self)) as [->|Hxs].
  - eexists. split.
    + apply list_lookup_insert_eq. eapply lookup_lt_Some; eauto.
    + rewrite links_set_links_flip. congruence.
  - exists n1. split; auto. rewrite list_lookup_insert_ne; auto.
Qed.

(** One turn of the loop of [disconnect]. *)
Definition disconnect_turn (st : store) (e : key) : store :=
  disconnect_side Prev self e (disconnect_side Next self e st).

Lemma disconnect_fold st :
  disconnect st self
  = match st !! self with
    | None => st
    | Some me => fold_left disconnect_turn (Dict.keys (endpoints me)) st
    end.
Proof. reflexivity. Qed.

Lemma disconnect_turn_shrunk e st :
  (forall me, st !! self = Some me -> e ∈ Dict.keys (endpoints me)) ->
  Forall2 shrunk st (disconnect_turn st e).
Proof.
  intros He. unfold disconnect_turn.
  pose proof (disconnect_side_shrunk Next e st He) as H1.
  eapply related_trans; [apply shrunk_trans|exact H1|].
  apply disconnect_side_shrunk. intros me Hme.
  destruct (Forall2_lookup_r _ _ _ _ _ H1 Hme)
    as (me0 & Hme0 & (_ & Hep & _) & _).
  rewrite Hep. auto.
Qed.

Lemma disconnect_fold_shrunk me ks :
  forall st,
    (exists n, st !! self = Some n /\ endpoints n = endpoints me) ->
    (forall e, e ∈ ks -> e ∈ Dict.keys (endpoints me)) ->
    Forall2 shrunk st (fold_left disconnect_turn ks st).
Proof.
  induction ks as [|e ks IH]; intros st (n & Hn & He) Hks; simpl.
  - apply related_refl, shrunk_refl.
  - assert (Hu : Forall2 shrunk st (disconnect_turn st e)).
    { apply disconnect_turn_shrunk. intros me0 Hme0.
      assert (me0 = n) by congruence. subst me0. rewrite He.
      apply Hks. apply list_elem_of_here. }
    eapply related_trans; [apply shrunk_trans|exact Hu|].
    apply IH.
    + destruct (Forall2_lookup_l _ _ _ _ _ Hu Hn)
        as (n' & Hn' & (_ & He' & _) & _).
      exists n'. split; auto. congruence.
    + intros e' Hin. apply Hks. apply list_elem_of_further. auto.
Qed.

Lemma disconnect_shrunk st : Forall2 shrunk st (disconnect st self).
Proof.
  rewrite disconnect_fold. destruct (st !! self) as [me|] eqn:Hme.
  - eapply disconnect_fold_shrunk; eauto.
  - apply related_refl, shrunk_refl.
Qed.

Lemma disconnect_turn_post e st me :
  st !! self = Some me ->
  (forall me, st !! self = Some me -> e ∈ Dict.keys (endpoints me)) ->
  exists me', disconnect_turn st e !! self = Some me'
              /\ Dict.get e (prev me') = None /\ Dict.get e (next me') = None.
Proof.
  intros Hme He. unfold disconnect_turn.
  destruct (disconnect_side_post Next e st me Hme) as (m1 & Hm1 & Hg1).
  destruct (disconnect_side_post Prev e _ m1 Hm1) as (m2 & Hm2 & Hg2).
  exists m2. repeat split; auto.
  assert (Hs : Forall2 shrunk (disconnect_side Next self e st)
                 (disconnect_side Prev self e
                    (disconnect_side Next self e st))).
  { apply disconnect_side_shrunk. intros me0 Hme0.
    pose proof (disconnect_side_shrunk Next e st He) as H1.
    destruct (Forall2_lookup_r _ _ _ _ _ H1 Hme0)
      as (me1 & Hme1 & (_ & Hep & _) & _).
    rewrite Hep. auto. }
  destruct (Forall2_lookup_l _ _ _ _ _ Hs Hm1) as (m2' & Hm2' & _ & Hl).
  assert (m2' = m2) by congruence. subst m2'.
  destruct (Hl Next e) as [Heq|[Hn _]]; simpl in *; congruence.
Qed.

Lemma disconnect_fold_post me ks :
  forall st,
    (exists n, st !! self = Some n /\ endpoints n = endpoints me) ->
    (forall e, e ∈ ks -> e ∈ Dict.keys (endpoints me)) ->
    forall e, e ∈ ks ->
      exists me', fold_left disconnect_turn ks st !! self = Some me'
                  /\ Dict.get e (prev me') = None
                  /\ Dict.get e (next me') = None.
Proof.
  induction ks as [|e0 ks IH]; intros st (n & Hn & He) Hks e Hin;
    [inversion Hin|].
  simpl.
  assert (He0 : forall m, st !! self = Some m -> e0 ∈ Dict.keys (endpoints m)).
  { intros m Hm. assert (m = n) by congruence. subst m. rewrite He.
    apply Hks. apply list_elem_of_here. }
  pose proof (disconnect_turn_shrunk e0 st He0) as Hu.
  destruct (disconnect_turn_post e0 st n Hn He0) as (n1 & Hn1 & Hp1 & Hx1).
  assert (Hep1 : endpoints n1 = endpoints me).
  { destruct (Forall2_lookup_l _ _ _ _ _ Hu Hn)
      as (n' & Hn' & (_ & He' & _) & _). congruence. }
  assert (Hks' : forall e', e' ∈ ks -> e' ∈ Dict.keys (endpoints me))
    by (intros e' Hin'; apply Hks; apply list_elem_of_further; auto).
  apply elem_of_cons in Hin. destruct Hin as [->|Hin]; [|eauto].
  pose proof (disconnect_fold_shrunk me ks (disconnect_turn st e0)
                ltac:(eauto) Hks') as Hrest.
  destruct (Forall2_lookup_l _ _ _ _ _ Hrest Hn1) as (n' & Hn' & _ & Hl).
  exists n'. split; auto. split.
  - destruct (Hl Prev e0) as [Heq|[Hnone _]]; simpl in *; congruence.
  - destruct (Hl Next e0) as [Heq|[Hnone _]]; simpl in *; congruence.
Qed.

Lemma disconnect_post st me :
  st !! self = Some me ->
  exists me', disconnect st self !! self = Some me'
    /\ endpoints me' = endpoints me
    /\ forall e, e ∈ Dict.keys (endpoints me) ->
         Dict.get e (prev me') = None /\ Dict.get e (next me') = None.
Proof.
  intros Hme.
  destruct (Forall2_lookup_l _ _ _ _ _ (disconnect_shrunk st) Hme)
    as (me' & Hme' & (_ & Hep & _) & _).
  exists me'. repeat split; auto;
    rewrite disconnect_fold, Hme in Hme';
    destruct (disconnect_fold_post me (Dict.keys (endpoints me)) st
                ltac:(eauto) ltac:(auto) e H)
      as (m & Hm & Hp & Hn); congruence.
Qed.

Lemma disconnect_fixed st me :
  st !! self = Some me ->
  (forall e, e ∈ Dict.keys (endpoints me) ->
     Dict.get e (prev me) = None /\ Dict.get e (next me) = None) ->
  disconnect st self = st.
Proof.
  intros Hme Hnone. rewrite disconnect_fold, Hme.
  induction (Dict.keys (endpoints me)) as [|e ks IH]; simpl; auto.
  assert (Ht : disconnect_turn st e = st).
  { destruct (Hnone e ltac:(apply list_elem_of_here)) as [Hp Hn].
    unfold disconnect_turn, disconnect_side. rewrite Hme. simpl.
    rewrite Hn. rewrite Hme. simpl. rewrite Hp. reflexivity. }
  rewrite Ht. apply IH. intros e' Hin. apply Hnone.
  apply list_elem_of_further. auto.
Qed.

Lemma disconnect_idempotent st :
  disconnect (disconnect st self) self = disconnect st self.
Proof.
  destruct (st !! self) as [me|] eqn:Hme.
  - destruct (disconnect_post st me Hme) as (me' & Hme' & Hep & Hnone).
    eapply disconnect_fixed; eauto. rewrite Hep. auto.
  - rewrite (disconnect_fold st), Hme. rewrite disconnect_fold, Hme.
    reflexivity.
Qed.

Lemma disconnect_turn_keeps e st me s' k v :
  st !! self = Some me -> Dict.get k (links s' me) = Some v -> v <> self ->
  k <> e ->
  exists me', disconnect_turn st e !! self = Some me'
              /\ Dict.get k (links s' me') = Some v.
Proof.
  intros Hme Hk Hv Hke. unfold disconnect_turn.
  destruct (disconnect_side_keeps Next e st me s' k v Hme Hk Hv
              ltac:(auto)) as (m1 & Hm1 & Hk1).
  eapply disconnect_side_keeps; eauto.
Qed.

Lemma disconnect_fold_unlinks me to nto ep_self ep_to ks :
  to <> self -> ep_to ∈ Dict.keys (endpoints nto) ->
  (forall e, e ∈ ks -> e ∈ Dict.keys (endpoints me)) ->
  forall st,
    ep_self ∈ ks ->
    (exists n, st !! self = Some n /\ endpoints n = endpoints me
               /\ Dict.get ep_self (prev n) = Some to) ->
    (exists n, st !! to = Some n /\ endpoints n = endpoints nto) ->
    exists nto', fold_left disconnect_turn ks st !! to = Some nto'
                 /\ Dict.get ep_to (next nto') <> Some self.
Proof.
  intros Hts Hto Hks. induction ks as [|e0 ks IH];
    intros st Hin (n & Hn & Hep & Hprev) (t & Ht & Hept); [inversion Hin|].
  simpl.
  assert (He0 : forall m, st !! self = Some m -> e0 ∈ Dict.keys (endpoints m)).
  { intros m Hm. assert (m = n) by congruence. subst m. rewrite Hep.
    apply Hks. apply list_elem_of_here. }
  assert (Hks' : forall e', e' ∈ ks -> e' ∈ Dict.keys (endpoints me))
    by (intros e' Hin'; apply Hks; apply list_elem_of_further; auto).
  pose proof (disconnect_turn_shrunk e0 st He0) as Hu.
  destruct (Forall2_lookup_l _ _ _ _ _ Hu Hn)
    as (n1 & Hn1 & (_ & Hep1 & _) & _).
  destruct (Forall2_lookup_l _ _ _ _ _ Hu Ht)
    as (t1 & Ht1 & (_ & Hept1 & _) & _).
  destruct (decide (e0 = ep_self)) as [->|Hne].
  - (* the turn of [ep_self] removes the neighbour's entry *)
    unfold disconnect_turn in *.
    destruct (disconnect_side_keeps Next ep_self st n Prev ep_self to
                Hn Hprev Hts ltac:(left; discriminate))
      as (m1 & Hm1 & Hk1).
    pose proof (disconnect_side_shrunk Next ep_self st He0) as Hs1.
    destruct (Forall2_lookup_l _ _ _ _ _ Hs1 Ht)
      as (ta & Hta & (_ & Hepta & _) & _).
    destruct (disconnect_side_unlinks Prev ep_self _ m1 to ta ep_to
                Hm1 Hk1 Hta ltac:(rewrite Hepta, Hept; exact Hto))
      as (tb & Htb & Hg).
    simpl in Hg.
    pose proof (disconnect_fold_shrunk me ks _
                  ltac:(exists n1; split; [exact Hn1|congruence]) Hks')
      as Hrest.
    destruct (Forall2_lookup_l _ _ _ _ _ Hrest Htb) as (t' & Ht' & _ & Hl).
    exists t'. split; auto.
    destruct (Hl Next ep_to) as [Heq|[Hnone _]]; simpl in *; congruence.
  - assert (Hin' : ep_self ∈ ks).
    { apply elem_of_cons in Hin. destruct Hin; [congruence|assumption]. }
    destruct (disconnect_turn_keeps e0 st n Prev ep_self to Hn Hprev Hts
                ltac:(congruence)) as (m & Hm & Hk).
    assert (m = n1) by congruence. subst m.
    apply (IH Hks' (disconnect_turn st e0) Hin').
    + exists n1. split; [exact Hn1|]. split; [congruence|exact Hk].
    + exists t1. split; [exact Ht1|congruence].
Qed.

(** After [disconnect], no neighbour reached through a port-keyed
    predecessor entry of [self] still names [self] under one of its own
    port names. *)
Lemma disconnect_unlinks_successor_entry st me to nto ep_self ep_to :
  st !! self = Some me -> ep_self ∈ Dict.keys (endpoints me) ->
  Dict.get ep_self (prev me) = Some to ->
  st !! to = Some nto -> ep_to ∈ Dict.keys (endpoints nto) ->
  exists nto', disconnect st self !! to = Some nto'
               /\ Dict.get ep_to (next nto') <> Some self.
Proof.
  intros Hme Hes Hprev Hto Het.
  destruct (decide (to = self)) as [->|Hts].
  - assert (nto = me) by congruence. subst nto.
    destruct (disconnect_post st me Hme) as (me' & Hme' & _ & Hnone).
    exists me'. split; auto. destruct (Hnone _ Het) as [_ Hn]. congruence.
  - rewrite disconnect_fold, Hme.
    eapply disconnect_fold_unlinks; eauto.
Qed.

End Disconnect.

(** ** C6: connect, then disconnect *)

Lemma link_Ok st a s k b st' :
  link st a s k b = Ok st' ->
  exists na, st !! a = Some na
             /\ st' = <[a := set_links s na (Dict.set k b (links s na))]> st.
Proof.
  unfold link. intros Hl. inv_bind Hl. apply deref_Ok in Hx.
  injection Hl as <-. eauto.
Qed.

Section ConnectDisconnect.
Context `{Libm}.

(** A port-keyed [connect] that returns has recorded both halves of the
    link, under port names of the two objects. *)
Lemma connect_records_link st self ep_self to ep_to offset rot st1 :
  connect st self ep_self to ep_to offset false rot = Ok st1 ->
  exists me tn,
    st1 !! self = Some me /\ st1 !! to = Some tn
    /\ ep_self ∈ Dict.keys (endpoints me)
    /\ ep_to ∈ Dict.keys (endpoints tn)
    /\ Dict.get ep_self (prev me) = Some to
    /\ Dict.get ep_to (next tn) = Some self.
Proof.
  unfold connect. intros Hc.
  inv_bind Hc. inv_bind Hc. inv_bind Hc. inv_bind Hc. inv_bind Hc.
  inv_bind Hc. inv_bind Hc. inv_bind Hc. simpl in Hc. inv_bind Hc.
  apply deref_Ok in Hx2, Hx3. apply lift_Ok in Hx4, Hx5.
  apply translate_frame in Hx6.
  destruct (Forall2_lookup_l _ _ _ _ _ Hx6 Hx2)
    as (me2 & Hme2 & (_ & _ & Hk2 & _) & _).
  destruct (Forall2_lookup_l _ _ _ _ _ Hx6 Hx3)
    as (to2 & Hto2 & (_ & _ & Hkt2 & _) & _).
  apply link_Ok in Hx7. destruct Hx7 as (na & Hna & ->).
  apply link_Ok in Hc. destruct Hc as (nb & Hnb & ->).
  assert (na = to2) by congruence. subst na.
  assert (Hlt : to < length x6) by (eapply lookup_lt_Some; eauto).
  assert (Hls : self < length x6) by (eapply lookup_lt_Some; eauto).
  assert (Hes : ep_self ∈ Dict.keys (endpoints me2))
    by (rewrite Hk2; eapply get_in_keys; eauto).
  assert (Het : ep_to ∈ Dict.keys (endpoints to2))
    by (rewrite Hkt2; eapply get_in_keys; eauto).
  destruct (decide (to = self)) as [->|Hne].
  - rewrite list_lookup_insert_eq in Hnb by auto. injection Hnb as <-.
    assert (to2 = me2) by congruence. subst to2.
    eexists _, _. split; [|split].
    + apply list_lookup_insert_eq. rewrite length_insert. auto.
    + apply list_lookup_insert_eq. rewrite length_insert. auto.
    + simpl. repeat split; auto; apply get_set_eq.
  - rewrite list_lookup_insert_ne in Hnb by auto.
    assert (nb = me2) by congruence. subst nb.
    eexists _, _. split; [|split].
    + apply list_lookup_insert_eq. rewrite length_insert. auto.
    + rewrite list_lookup_insert_ne by auto.
      apply list_lookup_insert_eq. auto.
    + simpl. repeat split; auto; apply get_set_eq.
Qed.

(** C6. After a port-keyed [connect(ep_self, to, ep_to)] that returns, the
    link is recorded in [self.prev] and in [to.next]; a following
    [disconnect] on [self] leaves neither entry -- no port name of [self]
    is a key of its link maps any more, and [to.next[ep_to]] is gone as
    well -- and a second [disconnect] changes nothing. *)
Theorem connect_disconnect_removes_both_halves
    (st st1 : store) (self : nat) (ep_self : key) (to : nat) (ep_to : key)
    (offset : point) (rot : bool) :
  connect st self ep_self to ep_to offset false rot = Ok st1 ->
  (exists me tn,
      st1 !! self = Some me /\ st1 !! to = Some tn
      /\ Dict.get ep_self (prev me) = Some to
      /\ Dict.get ep_to (next tn) = Some self)
  /\ (exists me2 tn2,
         disconnect st1 self !! self = Some me2
         /\ disconnect st1 self !! to = Some tn2
         /\ Dict.get ep_self (prev me2) = None
         /\ Dict.get ep_to (next tn2) = None
         /\ forall e, e ∈ Dict.keys (endpoints me2) ->
              Dict.get e (prev me2) = None /\ Dict.get e (next me2) = None)
  /\ disconnect (disconnect st1 self) self = disconnect st1 self.
Proof.
  intros Hc.
  destruct (connect_records_link _ _ _ _ _ _ _ _ Hc)
    as (me & tn & Hme & Htn & Hes & Het & Hp & Hn).
  split; [eauto 8|]. split; [|apply disconnect_idempotent].
  destruct (disconnect_post self st1 me Hme) as (me2 & Hme2 & Hep & Hnone).
  destruct (disconnect_unlinks_successor_entry self st1 me to tn ep_self
              ep_to Hme Hes Hp Htn Het) as (tn2 & Htn2 & Hg).
  exists me2, tn2. repeat split; auto.
  - apply Hnone. exact Hes.
  - destruct (Forall2_lookup_l _ _ _ _ _ (disconnect_shrunk self st1) Htn)
      as (t' & Ht' & _ & Hl).
    assert (t' = tn2) by congruence. subst t'.
    destruct (Hl Next ep_to) as [Heq|[Hnone' _]]; simpl in *; congruence.
  - apply Hnone. rewrite <- Hep. auto.
  - apply Hnone. rewrite <- Hep. auto.
Qed.

End ConnectDisconnect.

Lemma connect_disconnect_removes_both_halves_witness :
  connect (H := example_libm) plain_pair 0 (KStr "A") 1 (KStr "B")
    (0, 0)%float false true = Ok plain_pair_connected
  /\ (exists me tn,
         plain_pair_connected !! 0 = Some me
         /\ plain_pair_connected !! 1 = Some tn
         /\ Dict.get (KStr "A") (prev me) = Some 1
         /\ Dict.get (KStr "B") (next tn) = Some 0)
  /\ (exists me2 tn2,
         disconnect plain_pair_connected 0 !! 0 = Some me2
         /\ disconnect plain_pair_connected 0 !! 1 = Some tn2
         /\ Dict.get (KStr "A") (prev me2) = None
         /\ Dict.get (KStr "B") (next tn2) = None
         /\ forall e, e ∈ Dict.keys (endpoints me2) ->
              Dict.get e (prev me2) = None /\ Dict.get e (next me2) = None)
  /\ disconnect (disconnect plain_pair_connected 0) 0
     = disconnect plain_pair_connected 0.
Proof.
  split; [vm_compute; reflexivity|].
  apply (connect_disconnect_removes_both_halves (H := example_libm)
           plain_pair plain_pair_connected 0 (KStr "A") 1 (KStr "B")
           (0, 0)%float true).
  vm_compute; reflexivity.
Defined.

(** ** C10: what disconnect leaves in place *)

(** The store reached from [plain_pair] (objects S = 0 and T = 1) by
    [S.connect('A', T, 'B')], then [cluster([S], {'IN': (5, 5)}, ...)],
    which replaces the ports of S, then [S.connect('IN', T, 'B')].  The
    first link is now recorded in [S.prev] under ['A'], no longer a port
    name of S, and in [T.next] under the port name ['B'] of T. *)
Definition stale_key_store : store :=
  [ mkGDS [GShape 0; GTranslate 1 0; GTranslate (-4) (-5)]
      [(KStr "IN", (1, 0)%float)] [(KStr "IN", None)] (Some [])
      [] [(KStr "A", 1); (KStr "IN", 1)] [] None;
    mkGDS [GShape 0; GTranslate (-4) (-5)]
      [(KStr "A", (-4, -5)%float); (KStr "B", (-3, -5)%float)]
      [(KStr "A", Some 1%float); (KStr "B", Some 1%float)] None
      [] [] [(KStr "B", 0)] None ].

(** C10, as stated, fails: the entry [S.prev['A'] = T] is under a key that
    is not a port name of S, and [disconnect] on S keeps it, but removes
    its other half [T.next['B'] = S]: S reaches T through its port ['IN'],
    and ['B'] is a port name of T. *)
Lemma disconnect_drops_half_under_neighbour_port :
  (let* st1 := connect (H := example_libm) plain_pair 0 (KStr "A") 1
                 (KStr "B") (0, 0)%float false true in
   let* (st2, _) := cluster st1 [0] [(KStr "IN", (5, 5)%float)]
                      [(KStr "IN", None)] None None false in
   connect (H := example_libm) st2 0 (KStr "IN") 1 (KStr "B")
     (0, 0)%float false true) = Ok stale_key_store
  /\ (exists s t,
        stale_key_store !! 0 = Some s /\ stale_key_store !! 1 = Some t
        /\ (KStr "A" ∉ Dict.keys (endpoints s))
        /\ Dict.get (KStr "A") (prev s) = Some 1
        /\ Dict.get (KStr "B") (next t) = Some 0)
  /\ (exists s' t',
        disconnect stale_key_store 0 !! 0 = Some s'
        /\ disconnect stale_key_store 0 !! 1 = Some t'
        /\ Dict.get (KStr "A") (prev s') = Some 1
        /\ Dict.get (KStr "B") (next t') = None).
Proof.
  split; [vm_compute; reflexivity|]. split.
  - eexists _, _. split; [reflexivity|]. split; [reflexivity|].
    split; [|split; reflexivity].
    simpl. intros Hin. apply list_elem_of_singleton in Hin. discriminate.
  - eexists _, _. split; [vm_compute; reflexivity|].
    split; [vm_compute; reflexivity|]. split; reflexivity.
Qed.

(** C10, amended.  [disconnect] on [self] removes no entry recorded under
    a key that is not a port name of the object holding it.  So for a link
    between [self] and [x] whose entry in the map of [self] is under a key
    that is not a port name of [self], that entry stays; and its other half
    in the map of [x] stays as well when its key is not a port name of
    [x] -- as for the identity keys of [connect] with [obj_link] and the
    [AUTOROUTE_*] and [COMPOUND_*] keys on objects without ports of these
    names. *)
Theorem disconnect_keeps_entries_under_non_port_keys
    (st : store) (self x : nat) (me nx : GDStructure) (s : side)
    (k k' : key) :
  st !! self = Some me -> st !! x = Some nx ->
  Dict.get k (links s me) = Some x ->
  Dict.get k' (links (flip s) nx) = Some self ->
  k ∉ Dict.keys (endpoints me) ->
  (exists me', disconnect st self !! self = Some me'
               /\ Dict.get k (links s me') = Some x)
  /\ (k' ∉ Dict.keys (endpoints nx) ->
      exists nx', disconnect st self !! x = Some nx'
                  /\ Dict.get k' (links (flip s) nx') = Some self).
Proof.
  intros Hme Hx Hk Hk' Hnp.
  pose proof (disconnect_shrunk self st) as Hs. split.
  - destruct (Forall2_lookup_l _ _ _ _ _ Hs Hme) as (me' & Hme' & _ & Hl).
    exists me'. split; auto.
    destruct (Hl s k) as [Heq|[_ Hin]]; [congruence|contradiction].
  - intros Hnp'.
    destruct (Forall2_lookup_l _ _ _ _ _ Hs Hx) as (nx' & Hnx' & _ & Hl).
    exists nx'. split; auto.
    destruct (Hl (flip s) k') as [Heq|[_ Hin]]; [congruence|contradiction].
Qed.

(** The router's link between the end object 0 and the routed object 2. *)
Definition routed_store : store :=
  [ mkGDS [GShape 0] [(KStr "A", (2, 1)%float)] [(KStr "A", Some 1%float)]
      None [] [] [(KStr "AUTOROUTE_A", 2)] None;
    mkGDS [GShape 0] [(KStr "A", (1, 0)%float)] [(KStr "A", Some 1%float)]
      None [] [] [(KStr "AUTOROUTE_B", 2)] None;
    mkGDS [GPolyPath [(1, 0); (1, 0); (1, 1); (2, 1)]%float
             (inl [1; 1; 1; 1]%float)]
      [(KStr "A", (1, 0)%float); (KStr "B", (2, 1)%float)]
      [(KStr "A", Some 1%float); (KStr "B", Some 1%float)]
      None [] [(KStr "AUTOROUTE_A", 0); (KStr "AUTOROUTE_B", 1)] [] None ].

Lemma disconnect_keeps_entries_under_non_port_keys_witness :
  router wrap_store wrap_args = Ok (routed_store, Routed 2)
  /\ (exists me', disconnect routed_store 0 !! 0 = Some me'
                  /\ Dict.get (KStr "AUTOROUTE_A") (links Next me') = Some 2)
  /\ (KStr "AUTOROUTE_A"
        ∉ Dict.keys
            [(KStr "A", (1, 0)%float); (KStr "B", (2, 1)%float)] ->
      exists nx', disconnect routed_store 0 !! 2 = Some nx'
                  /\ Dict.get (KStr "AUTOROUTE_A") (links (flip Next) nx')
                     = Some 0).
Proof.
  split; [vm_compute; reflexivity|].
  refine (disconnect_keeps_entries_under_non_port_keys routed_store 0 2
            _ _ Next (KStr "AUTOROUTE_A") (KStr "AUTOROUTE_A")
            eq_refl eq_refl eq_refl eq_refl _).
  simpl. intros Hin. apply list_elem_of_singleton in Hin. discriminate.
Defined.

(** ** C7: copy *)

(** The successor map [copy] gives the new object: its children, keyed by
    position. *)
Definition child_links (l : list nat) : dict nat :=
  imap (fun i c => (KInt (Z.of_nat i), c)) l.

(** The containment below [o] is a tree of depth at most [d]. *)
Fixpoint depth_le (d : nat) (st : store) (o : nat) : Prop :=
  match d with
  | O => False
  | S d' => exists n, st !! o = Some n /\ Forall (depth_le d' st) (compound n)
  end.

(** [c] in [st'] is a copy of [o] in [st], made of objects allocated in
    [lo, hi): same shape, ports, sizes and directions, no predecessor, the
    children's copies as successors and as children, and so on below. *)
Fixpoint is_copy (d : nat) (st st' : store) (lo hi : nat) (o c : nat)
    : Prop :=
  match d with
  | O => False
  | S d' =>
      exists n cn,
        st !! o = Some n /\ st' !! c = Some cn /\ lo <= c < hi
        /\ structure cn = structure n /\ endpoints cn = endpoints n
        /\ endpoint_dims cn = endpoint_dims n
        /\ endpoint_directions cn = endpoint_directions n
        /\ prev cn = [] /\ next cn = child_links (compound cn)
        /\ method cn = None
        /\ Forall2 (is_copy d' st st' lo hi) (compound n) (compound cn)
  end.

(** [st'] extends [st]: every object of [st] is still there, unchanged. *)
Definition extends (st st' : store) : Prop :=
  forall x n, st !! x = Some n -> st' !! x = Some n.

Lemma extends_trans st1 st2 st3 :
  extends st1 st2 -> extends st2 st3 -> extends st1 st3.
Proof. intros H1 H2 x n Hx. auto. Qed.

Lemma extends_app st l : extends st (st ++ l).
Proof. intros x n Hx. apply lookup_app_l_Some. exact Hx. Qed.

Lemma extends_insert_fresh st st' o n :
  extends st st' -> length st <= o -> extends st (<[o := n]> st').
Proof.
  intros He Hl x m Hx. rewrite list_lookup_insert_ne; auto.
  apply lookup_lt_Some in Hx. lia.
Qed.

Lemma Forall2_impl_Forall {A B} (P : A -> Prop) (Q R : A -> B -> Prop) l k :
  Forall P l -> Forall2 Q l k -> (forall x y, P x -> Q x y -> R x y) ->
  Forall2 R l k.
Proof.
  intros HP HQ Himp. induction HQ; constructor; inversion HP; subst; auto.
Qed.

Lemma depth_le_extends d :
  forall st st' o, extends st st' -> depth_le d st o -> depth_le d st' o.
Proof.
  induction d as [|d IH]; simpl; intros st st' o He Hd; [exact Hd|].
  destruct Hd as (n & Hn & Hc). exists n. split; [auto|].
  eapply Forall_impl; [exact Hc|]. intros c Hdc. eapply IH; eauto.
Qed.

Lemma is_copy_stable d :
  forall st st' st'' lo hi o c,
    (forall x, lo <= x < hi -> st'' !! x = st' !! x) ->
    is_copy d st st' lo hi o c -> is_copy d st st'' lo hi o c.
Proof.
  induction d as [|d IH]; simpl; intros st st' st'' lo hi o c Hag Hc;
    [exact Hc|].
  destruct Hc as (n & cn & Hn & Hcn & Hr & Hrest).
  exists n, cn. split; [exact Hn|]. split; [rewrite Hag; auto|].
  split; [exact Hr|].
  destruct Hrest as (?&?&?&?&?&?&?&Hf). repeat split; auto.
  eapply Forall2_impl; [exact Hf|]. intros a b Hab. eapply IH; eauto.
Qed.

Lemma is_copy_widen d :
  forall st st' lo hi lo' hi' o c,
    lo' <= lo -> hi <= hi' ->
    is_copy d st st' lo hi o c -> is_copy d st st' lo' hi' o c.
Proof.
  induction d as [|d IH]; simpl; intros st st' lo hi lo' hi' o c Hlo Hhi Hc;
    [exact Hc|].
  destruct Hc as (n & cn & Hn & Hcn & Hr & Hrest).
  exists n, cn. split; [exact Hn|]. split; [exact Hcn|]. split; [lia|].
  destruct Hrest as (?&?&?&?&?&?&?&Hf). repeat split; auto.
  eapply Forall2_impl; [exact Hf|]. intros a b Hab. eapply IH; eauto.
Qed.

Lemma is_copy_original d :
  forall st0 st st' lo hi o c,
    extends st0 st -> depth_le d st0 o ->
    is_copy d st st' lo hi o c -> is_copy d st0 st' lo hi o c.
Proof.
  induction d as [|d IH]; simpl; intros st0 st st' lo hi o c He Hd Hc;
    [exact Hc|].
  destruct Hd as (n0 & Hn0 & Hch).
  destruct Hc as (n & cn & Hn & Hcn & Hr & Hrest).
  assert (n = n0) by (apply He in Hn0; congruence). subst n.
  exists n0, cn. split; [exact Hn0|]. split; [exact Hcn|]. split; [exact Hr|].
  destruct Hrest as (?&?&?&?&?&?&?&Hf). repeat split; auto.
  eapply Forall2_impl_Forall; [exact Hch|exact Hf|].
  intros a b Ha Hab. eapply IH; eauto.
Qed.

Lemma child_links_get_fresh l : Dict.get (KInt (Z.of_nat (length l)))
                                  (child_links l) = None.
Proof.
  unfold child_links.
  assert (Hg : forall (f : nat -> nat) (l : list nat) k,
             (forall i, i < length l -> KInt (Z.of_nat (f i)) <> k) ->
             Dict.get k (imap (fun i c => (KInt (Z.of_nat (f i)), c)) l)
             = None).
  { clear. intros f l. revert f.
    induction l as [|c l IH]; intros f k Hk; simpl; auto.
    rewrite decide_False by (apply (Hk 0); simpl; lia).
    apply (IH (fun i => f (S i))). intros i Hi. apply Hk. simpl. lia. }
  apply (Hg (fun i => i)). intros i Hi Heq. injection Heq. lia.
Qed.

Lemma dict_set_fresh {V} (k : key) (v : V) (d : dict V) :
  Dict.get k d = None -> Dict.set k v d = d ++ [(k, v)].
Proof.
  induction d as [|[k' v'] d IH]; simpl; auto.
  destruct (decide (k' = k)); [discriminate|].
  intros Hg. rewrite IH; auto.
Qed.

Lemma child_links_snoc l c :
  Dict.set (KInt (Z.of_nat (length l))) c (child_links l)
  = child_links (l ++ [c]).
Proof.
  rewrite dict_set_fresh by apply child_links_get_fresh.
  unfold child_links. rewrite imap_app. simpl.
  rewrite Nat.add_0_r. reflexivity.
Qed.

(** The new object while the loop of [copy] fills it: the copied fields,
    no predecessor, and the child copies made so far as successors. *)
Definition building (me : GDStructure) (acc : list nat) (cur : GDStructure)
    : Prop :=
  structure cur = structure me /\ endpoints cur = endpoints me
  /\ endpoint_dims cur = endpoint_dims me
  /\ endpoint_directions cur = endpoint_directions me
  /\ prev cur = [] /\ next cur = child_links acc /\ method cur = None.

Definition copy_ok (d : nat) : Prop :=
  forall st o,
    depth_le d st o ->
    exists st',
      copy d st o = Ok (st', length st) /\ length st < length st'
      /\ extends st st'
      /\ is_copy d st st' (length st) (length st') o (length st).

Lemma copy_children_spec d st me :
  copy_ok d ->
  forall cs done st_cur acc cur,
    extends st st_cur -> length st < length st_cur ->
    st_cur !! length st = Some cur -> building me acc cur ->
    Forall2 (is_copy d st st_cur (S (length st)) (length st_cur)) done acc ->
    Forall (depth_le d st) cs ->
    exists st_fin comp fin,
      copy_children (copy d) (length st) cs (Z.of_nat (length acc)) st_cur acc
      = Ok (st_fin, comp)
      /\ extends st st_fin /\ length st < length st_fin
      /\ st_fin !! length st = Some fin /\ building me comp fin
      /\ compound fin = compound cur
      /\ Forall2 (is_copy d st st_fin (S (length st)) (length st_fin))
           (done ++ cs) comp.
Proof.
  intros Hcopy. induction cs as [|c cs IH];
    intros done st_cur acc cur Hext Hlen Hcur Hb Hdone Hcs; simpl.
  - exists st_cur, acc, cur. rewrite app_nil_r. repeat split; auto;
      apply Hb.
  - inversion Hcs as [|? ? Hc Hcs']; subst.
    destruct (Hcopy st_cur c (depth_le_extends _ _ _ _ Hext Hc))
      as (st1 & Hcp & Hl1 & He1 & Hic).
    rewrite Hcp. simpl.
    assert (Hcur1 : st1 !! length st = Some cur) by auto.
    unfold deref. rewrite Hcur1. simpl.
    set (cur' := set_next cur
                   (Dict.set (KInt (Z.of_nat (length acc))) (length st_cur)
                      (next cur))).
    set (st2 := <[length st := cur']> st1).
    assert (Hag : forall x, S (length st) <= x -> st2 !! x = st1 !! x).
    { intros x Hx. unfold st2. apply list_lookup_insert_ne. lia. }
    assert (Hl2 : length st2 = length st1) by apply length_insert.
    replace (Z.of_nat (length acc) + 1)%Z
      with (Z.of_nat (length (acc ++ [length st_cur])))
      by (rewrite length_app; simpl; lia).
    destruct (IH (done ++ [c]) st2 (acc ++ [length st_cur]) cur')
      as (st_fin & comp & fin & Hloop & Hef & Hlf & Hfin & Hbf & Hcf & Hall).
    + unfold st2. apply extends_insert_fresh; [|lia].
      eapply extends_trans; eauto.
    + lia.
    + unfold st2. apply list_lookup_insert_eq. lia.
    + destruct Hb as (?&?&?&?&?&Hnx&?). unfold cur'.
      repeat split; simpl; auto.
      rewrite Hnx. apply child_links_snoc.
    + apply Forall2_app.
      * eapply Forall2_impl; [exact Hdone|]. intros a b Hab.
        eapply is_copy_widen with (lo := S (length st))
                                  (hi := length st_cur); [lia|lia|].
        eapply is_copy_stable; [|exact Hab].
        intros x Hx. rewrite Hag by lia.
        destruct (lookup_lt_is_Some_2 st_cur x ltac:(lia)) as [n Hn].
        rewrite Hn. auto.
      * constructor; [|constructor].
        eapply is_copy_widen with (lo := length st_cur)
                                  (hi := length st1); [lia|lia|].
        eapply is_copy_stable; [intros x Hx; apply Hag; lia|].
        eapply is_copy_original; eauto.
    + exact Hcs'.
    + exists st_fin, comp, fin. rewrite <- app_assoc in Hall.
      repeat split; auto; try apply Hbf.
Qed.

Lemma copy_spec d : copy_ok d.
Proof.
  induction d as [|d IH]; intros st o Hd; simpl in Hd; [contradiction|].
  destruct Hd as (me & Hme & Hch). simpl.
  unfold deref at 1. rewrite Hme. simpl.
  set (nw := new_GDStructure (structure me) (endpoints me)
               (endpoint_dims me) (endpoint_directions me)).
  destruct (copy_children_spec d st me IH (compound me) [] (st ++ [nw]) []
              nw) as (st_fin & comp & fin & Hloop & Hef & Hlf & Hfin & Hbf
                      & Hcf & Hall); auto.
  - apply extends_app.
  - rewrite length_app; simpl; lia.
  - rewrite lookup_app_r by lia. rewrite Nat.sub_diag. reflexivity.
  - repeat split.
  - change (Z.of_nat (length (@nil nat))) with 0%Z in Hloop.
    simpl in Hall. rewrite Hloop. simpl.
    unfold deref. rewrite Hfin. simpl.
    eexists. split; [reflexivity|]. rewrite length_insert.
    split; [lia|]. split; [apply extends_insert_fresh; auto|].
    exists me, (set_compound fin comp).
    destruct Hbf as (?&?&?&?&?&?&?).
    split; [reflexivity|].
    split; [apply list_lookup_insert_eq; lia|].
    split; [lia|]. simpl. repeat split; auto.
    eapply Forall2_impl; [exact Hall|]. intros a b Hab.
    eapply is_copy_widen with (lo := S (length st))
                              (hi := length st_fin); [lia|lia|].
    eapply is_copy_stable; [|exact Hab].
    intros x Hx. apply list_lookup_insert_ne. lia.
Qed.

(** The pair after [cluster([P, C], {'IN': (0, 0)}, {'IN': None})]: object
    0 holds object 1 as its child. *)
Definition clustered_pair : store :=
  [ mkGDS [GShape 0] [(KStr "IN", (0, 0)%float)] [(KStr "IN", None)]
      (Some []) [1] [] [(KStr "COMPOUND_0", 1)] None;
    mkGDS [GShape 0]
      [(KStr "A", (0, 0)%float); (KStr "B", (1, 0)%float)]
      [(KStr "A", Some 1%float); (KStr "B", Some 1%float)]
      None [] [(KStr "COMPOUND_0", 0)] [] None ].

(** The object after [cluster([P, P], {'IN': (0, 0)}, {'IN': None})]: it
    is its own child. *)
Definition self_child : store :=
  [ mkGDS [GShape 0] [(KStr "IN", (0, 0)%float)] [(KStr "IN", None)]
      (Some []) [0] [(KStr "COMPOUND_0", 0)] [(KStr "COMPOUND_0", 0)] None ].

(** The recursion of [copy] on an object that is its own child never
    comes back. *)
Lemma copy_own_child_no_return fuel :
  forall st n,
    st !! 0 = Some n -> compound n = [0] -> copy fuel st 0 = OutOfFuel.
Proof.
  induction fuel as [|fuel IH]; intros st n Hn Hc; simpl; [reflexivity|].
  unfold deref. rewrite Hn. simpl. rewrite Hc. simpl.
  rewrite (IH _ n); auto. apply lookup_app_l_Some. exact Hn.
Qed.

(** C7, as stated, fails: the copy of an object with a child does not have
    an empty successor map; it holds the copy of the child under the key
    [0].  And [copy] does not return for every object: on an object that
    contains itself the recursion does not end. *)
Lemma copy_of_parent_has_successor :
  cluster plain_pair [0; 1] [(KStr "IN", (0, 0)%float)] [(KStr "IN", None)]
    None None false = Ok (clustered_pair, Some 0)
  /\ (exists st' cn,
        copy 2 clustered_pair 0 = Ok (st', 2)
        /\ st' !! 2 = Some cn
        /\ next cn = [(KInt 0, 3)] /\ next cn <> [])
  /\ cluster [bar None [] []] [0; 0] [(KStr "IN", (0, 0)%float)]
       [(KStr "IN", None)] None None false = Ok (self_child, Some 0)
  /\ (forall fuel, copy fuel self_child 0 = OutOfFuel).
Proof.
  split; [vm_compute; reflexivity|]. split.
  - eexists _, _. split; [vm_compute; reflexivity|].
    split; [reflexivity|]. split; [reflexivity|discriminate].
  - split; [vm_compute; reflexivity|].
    intros fuel. eapply copy_own_child_no_return; reflexivity.
Qed.

(** C7, amended.  For an object whose containment is a finite tree,
    [copy] returns a new object, leaving every existing object as it is.
    The new object has the shape, ports, port sizes and port directions of
    the original, an empty predecessor map, and as successor map exactly
    its own children keyed by their position [0, 1, ...] (empty when there
    are no children); its children are, one for one and recursively in the
    same sense, copies of the original's children. *)
Theorem copy_duplicates_and_relinks_children
    (d : nat) (st : store) (self : nat) :
  depth_le (S d) st self ->
  exists st' me cn,
    copy (S d) st self = Ok (st', length st)
    /\ extends st st'
    /\ st !! self = Some me /\ st' !! length st = Some cn
    /\ structure cn = structure me /\ endpoints cn = endpoints me
    /\ endpoint_dims cn = endpoint_dims me
    /\ endpoint_directions cn = endpoint_directions me
    /\ prev cn = [] /\ next cn = child_links (compound cn)
    /\ Forall2 (is_copy d st st' (length st) (length st'))
         (compound me) (compound cn).
Proof.
  intros Hd.
  destruct (copy_spec (S d) st self Hd) as (st' & Hc & Hl & He & Hic).
  simpl in Hic.
  destruct Hic as (me & cn & Hme & Hcn & _ & Hs & Hep & Hdm & Hdr & Hp
                   & Hn & _ & Hf).
  exists st', me, cn. repeat split; auto.
Qed.

Lemma copy_duplicates_and_relinks_children_witness :
  depth_le 2 clustered_pair 0
  /\ exists st' me cn,
       copy 2 clustered_pair 0 = Ok (st', length clustered_pair)
       /\ extends clustered_pair st'
       /\ clustered_pair !! 0 = Some me
       /\ st' !! length clustered_pair = Some cn
       /\ structure cn = structure me /\ endpoints cn = endpoints me
       /\ endpoint_dims cn = endpoint_dims me
       /\ endpoint_directions cn = endpoint_directions me
       /\ prev cn = [] /\ next cn = child_links (compound cn)
       /\ Forall2 (is_copy 1 clustered_pair st' (length clustered_pair)
                     (length st'))
            (compound me) (compound cn).
Proof.
  assert (Hd : depth_le 2 clustered_pair 0).
  { simpl. eexists. split; [reflexivity|].
    repeat constructor. eexists. split; [reflexivity|constructor]. }
  split; [exact Hd|].
  exact (copy_duplicates_and_relinks_children 1 clustered_pair 0 Hd).
Defined.

(* ================================================================== *)
(** * Further properties of the code *)


(** ** Transforms move exactly the connected component *)

(** [tgt] is an entry of a link map of [o]. *)
Definition linked (st : store) (o tgt : nat) : Prop :=
  exists n s k, st !! o = Some n /\ Dict.get k (links s n) = Some tgt.

(** [o] can be reached from [self] along predecessor and successor
    entries. *)
Definition reachable (st : store) : nat -> nat -> Prop := rtc (linked st).

Lemma linked_related st st' o tgt :
  Forall2 same_topology st st' -> linked st o tgt -> linked st' o tgt.
Proof.
  intros Hr (n & s & k & Hn & Hk).
  destruct (Forall2_lookup_l _ _ _ _ _ Hr Hn) as (n' & Hn' & Hp & Hx & _).
  exists n', s, k. split; [exact Hn'|]. destruct s; simpl in *; congruence.
Qed.

(** All link targets of [o] are in the visited list. *)
Definition covers (st : store) (sf : list (option nat)) (o : nat) : Prop :=
  forall tgt, linked st o tgt -> Some tgt ∈ sf.

(** What a call on [o] with the list [sf] (holding [o]) adds: only objects
    reachable from [o], and with each added object all its neighbours. *)
Definition spreads (st : store) (o : nat) (sf sf' : list (option nat))
    : Prop :=
  (forall x, x ∈ sf -> x ∈ sf')
  /\ (forall x, x ∈ sf' -> x ∈ sf \/ exists o', x = Some o' /\ reachable st o o')
  /\ (forall o', o' = o \/ (Some o' ∈ sf' /\ Some o' ∉ sf) -> covers st sf' o').

Section PropagateComponent.
Context {P : Type} (act : P -> GDStructure -> res (GDStructure * P)).
Hypothesis act_frame :
  forall par n n' par', act par n = Ok (n', par') -> same_topology n n'.
Variable st0 : store.

Lemma walk_component call s self ks :
  (forall st tgt sf st' sf',
      call st tgt sf = Ok (st', sf') -> Forall2 same_topology st st') ->
  (forall st tgt sf st' sf',
      Forall2 same_topology st0 st -> call st tgt sf = Ok (st', sf') ->
      Some tgt ∈ sf -> spreads st0 tgt sf sf') ->
  forall st sf st' sf',
    Forall2 same_topology st0 st ->
    walk call s self ks st sf = Ok (st', sf') ->
    (forall x, x ∈ sf -> x ∈ sf')
    /\ (forall x, x ∈ sf' ->
          x ∈ sf \/ exists o', x = Some o' /\ reachable st0 self o')
    /\ (forall i me tgt,
          i ∈ ks -> st0 !! self = Some me ->
          Dict.get i (links s me) = Some tgt -> Some tgt ∈ sf')
    /\ (forall o', Some o' ∈ sf' -> Some o' ∉ sf -> covers st0 sf' o').
Proof.
  intros Hframe Hcall. induction ks as [|i ks IH];
    intros st sf st' sf' Hrel Hw; simpl in Hw.
  - injection Hw as <- <-. repeat split; auto.
    + intros i me tgt Hin. inversion Hin.
    + intros o' Hin Hnin. contradiction.
  - inv_bind Hw. apply deref_Ok in Hx. inv_bind Hw. apply lift_Ok in Hx0.
    rename x into me_cur, x0 into tgt.
    assert (Hlinks : forall me, st0 !! self = Some me ->
                                links s me_cur = links s me).
    { intros me Hme.
      destruct (Forall2_lookup_l _ _ _ _ _ Hrel Hme)
        as (m & Hm & Hp & Hn & _).
      assert (m = me_cur) by congruence. subst m.
      destruct s; simpl; auto. }
    assert (Hlk : linked st0 self tgt).
    { destruct (Forall2_lookup_r _ _ _ _ _ Hrel Hx) as (me & Hme & _).
      exists me, s, i. split; auto. rewrite <- (Hlinks me Hme). auto. }
    destruct (decide (Some tgt ∈ sf)) as [Hin|Hnin].
    + destruct (IH _ _ _ _ Hrel Hw) as (H1 & H2 & H3 & H4).
      repeat split; auto.
      intros j me t Hj Hme Hg. apply elem_of_cons in Hj.
      destruct Hj as [->|Hj]; [|eauto].
      rewrite <- (Hlinks me Hme) in Hg.
      assert (t = tgt) by congruence. subst t. auto.
    + inv_bind Hw. destruct x as [st1 sf1].
      assert (Hrel1 : Forall2 same_topology st0 st1).
      { eapply related_trans; eauto using same_topology_trans. }
      assert (Htin : Some tgt ∈ sf ++ [Some tgt])
        by (apply elem_of_app; right; apply list_elem_of_here).
      destruct (Hcall _ _ _ _ _ Hrel Hx1 Htin) as (C1 & C2 & C3).
      destruct (IH _ _ _ _ Hrel1 Hw) as (H1 & H2 & H3 & H4).
      assert (Hsub : forall x, x ∈ sf -> x ∈ sf1)
        by (intros x Hx'; apply C1; apply elem_of_app; auto).
      repeat split.
      * auto.
      * intros x Hx'. destruct (H2 x Hx') as [Hs1|Hr]; [|auto].
        destruct (C2 x Hs1) as [Hs|(o' & -> & Hr)].
        -- apply elem_of_app in Hs. destruct Hs as [Hs|Hs]; [auto|].
           apply list_elem_of_singleton in Hs. subst x. right.
           exists tgt. split; auto. apply rtc_once. exact Hlk.
        -- right. exists o'. split; auto.
           eapply rtc_l; eauto.
      * intros j me t Hj Hme Hg. apply elem_of_cons in Hj.
        destruct Hj as [->|Hj]; [|eauto].
        rewrite <- (Hlinks me Hme) in Hg.
        assert (t = tgt) by congruence. subst t. apply H1, C1, Htin.
      * intros o' Hin' Hnin'.
        destruct (decide (Some o' ∈ sf1)) as [Hs1|Hs1]; [|auto].
        assert (Hc : covers st0 sf1 o').
        { apply C3. destruct (decide (o' = tgt)) as [->|Hne]; [auto|].
          right. split; auto. intros Hin2. apply elem_of_app in Hin2.
          destruct Hin2 as [Hin2|Hin2]; [contradiction|].
          apply list_elem_of_singleton in Hin2. congruence. }
        intros t Ht. apply H1, Hc, Ht.
Qed.

Lemma propagate_component fuel :
  forall par st self sf st' sf',
    Forall2 same_topology st0 st ->
    propagate act fuel par st self sf = Ok (st', sf') ->
    spreads st0 self
      (if decide (Some self ∈ sf) then sf else sf ++ [Some self]) sf'.
Proof.
  induction fuel as [|fuel IH]; intros par st self sf st' sf' Hrel Hp;
    [discriminate|].
  simpl in Hp.
  set (sf1 := if decide (Some self ∈ sf) then sf else sf ++ [Some self]) in *.
  inv_bind Hp. apply deref_Ok in Hx. rename x into me.
  inv_bind Hp. destruct x as [me' par'].
  inv_bind Hp. destruct x as [st2 sf2].
  inv_bind Hp. apply deref_Ok in Hx2. rename x into me2.
  assert (Hcallf : forall st tgt sf st' sf',
             propagate act fuel par' st tgt sf = Ok (st', sf') ->
             Forall2 same_topology st st').
  { intros. eapply propagate_frame;
      eauto using same_topology_refl, same_topology_trans. }
  assert (Hcall : forall st tgt sf st' sf',
             Forall2 same_topology st0 st ->
             propagate act fuel par' st tgt sf = Ok (st', sf') ->
             Some tgt ∈ sf -> spreads st0 tgt sf sf').
  { intros sa tgt sfa sa' sfa' Hra Hpa Hin.
    specialize (IH par' sa tgt sfa sa' sfa' Hra Hpa).
    rewrite decide_True in IH by auto. exact IH. }
  assert (Hrel1 : Forall2 same_topology st0 (<[self := me']> st)).
  { eapply related_trans; eauto using same_topology_trans.
    eapply related_insert; eauto using same_topology_refl. }
  destruct (walk_component _ _ _ _ Hcallf Hcall _ _ _ _ Hrel1 Hx1)
    as (A1 & A2 & A3 & A4).
  assert (Hrel2 : Forall2 same_topology st0 st2).
  { eapply related_trans; eauto using same_topology_trans.
    eapply walk_frame; eauto using same_topology_refl, same_topology_trans. }
  destruct (walk_component _ _ _ _ Hcallf Hcall _ _ _ _ Hrel2 Hp)
    as (B1 & B2 & B3 & B4).
  split; [auto|]. split.
  - intros x Hx'. destruct (B2 x Hx') as [Hs2|Hr]; auto.
  - intros o' [->|[Hin Hnin]].
    + intros tgt (n & s & k & Hn & Hk).
      destruct (Forall2_lookup_l _ _ _ _ _ Hrel1 Hn)
        as (m1 & Hm1 & Hp1 & Hn1 & _).
      rewrite list_lookup_insert_eq in Hm1
        by (eapply lookup_lt_Some; eauto).
      injection Hm1 as <-.
      destruct (Forall2_lookup_l _ _ _ _ _ Hrel2 Hn)
        as (m2 & Hm2 & Hp2 & Hn2 & _).
      assert (m2 = me2) by congruence. subst m2.
      destruct s; simpl in Hk.
      * apply B1. eapply (A3 k n tgt); eauto.
        rewrite Hp1. eapply get_in_keys; eauto.
      * eapply (B3 k n tgt); eauto.
        rewrite Hn2. eapply get_in_keys; eauto.
    + destruct (decide (Some o' ∈ sf2)) as [Hs2|Hs2]; [|auto].
      intros tgt Ht. apply B1. eapply A4; eauto.
Qed.

End PropagateComponent.

Section TopComponent.
Context {P : Type} (act : P -> GDStructure -> res (GDStructure * P)).
Variable I : P -> Prop.
Hypothesis act_frame :
  forall par n n' par', act par n = Ok (n', par') -> same_topology n n'.
Hypothesis act_inv :
  forall par n n' par', I par -> act par n = Ok (n', par') -> I par'.
Hypothesis act_fuel : forall par n, act par n <> OutOfFuel.

(** A top-level transform call on a closed store stops; an exception is
    the exception of one object's body; and when the call returns, the
    body has run exactly once on every object reachable from [self] and on
    no other object. *)
Lemma propagate_top_component par st self :
  closed st -> self < length st -> I par ->
  match propagate_top act par st self with
  | OutOfFuel => False
  | Raise e => exists o n p, st !! o = Some n /\ I p /\ act p n = Raise e
  | Ok st' =>
      length st' = length st /\
      forall o n, st !! o = Some n ->
        exists n', st' !! o = Some n'
                   /\ (reachable st self o -> acted act I n n')
                   /\ (~ reachable st self o -> n' = n)
  end.
Proof.
  intros Hc Hl Hpar. unfold propagate_top.
  pose proof (propagate_once act I act_frame act_inv act_fuel
                (S (length st)) par st self [None] Hc Hl Hpar) as Ho.
  assert (Hnone : Some self ∉ [None : option nat]).
  { intros Hin. apply list_elem_of_singleton in Hin. discriminate. }
  rewrite decide_False in Ho by exact Hnone.
  assert (Hf : unvisited (length st) ([None] ++ [Some self]) < S (length st)).
  { pose proof (unvisited_add (length st) [None] self Hl Hnone).
    pose proof (unvisited_le (length st) [None]). lia. }
  specialize (Ho Hf).
  destruct (propagate act (S (length st)) par st self [None])
    as [[st' sf']|e|] eqn:Hp; simpl in Ho |- *; [| |exact Ho].
  2:{ destruct Ho as (o & n & p & Hon & _ & Hip & Hb).
      exists o, n, p. auto. }
  destruct Ho as (new & -> & Hnd & Hdis & Hstep).
  split; [eapply step_length; eauto|].
  pose proof (propagate_component act act_frame st _ _ _ _ _ _ _
                (related_refl _ same_topology_refl st) Hp) as Hsp.
  rewrite decide_False in Hsp by exact Hnone.
  destruct Hsp as (S1 & S2 & S3). simpl in S1, S2, S3.
  assert (Hvis : forall o, reachable st self o ->
                           Some o ∈ None :: Some self :: new).
  { apply (rtc_ind_r (fun o => Some o ∈ None :: Some self :: new) self).
    - apply elem_of_cons. right. apply list_elem_of_here.
    - intros y z Hy Hyz IHr. apply (S3 y); [|exact Hyz].
      destruct (decide (y = self)) as [->|Hne]; [auto|].
      right. split; [exact IHr|].
      intros Hin. apply elem_of_cons in Hin.
      destruct Hin as [Hin|Hin]; [discriminate|].
      apply list_elem_of_singleton in Hin. congruence. }
  intros o n Hon. destruct Hstep as [_ Hs].
  destruct (Hs _ _ Hon) as (n' & Hn' & Hd). exists n'. split; [exact Hn'|].
  split.
  - intros Hr. rewrite decide_True in Hd; [exact Hd|].
    specialize (Hvis o Hr). apply elem_of_cons in Hvis.
    destruct Hvis as [Hv|Hv]; [discriminate|exact Hv].
  - intros Hnr. rewrite decide_False in Hd; [exact Hd|].
    intros Hin. apply Hnr.
    destruct (S2 (Some o)) as [Hin1|(o' & Heq & Hr)].
    + apply elem_of_cons. right. exact Hin.
    + apply elem_of_cons in Hin1. destruct Hin1 as [Hin1|Hin1];
        [discriminate|].
      apply list_elem_of_singleton in Hin1. injection Hin1 as ->.
      apply rtc_refl.
    + injection Heq as ->. exact Hr.
Qed.

End TopComponent.

(** *** Dictionaries with distinct keys *)

Lemma get_app_notin {V} (k : key) (d1 d2 : dict V) :
  k ∉ Dict.keys d1 -> Dict.get k (d1 ++ d2) = Dict.get k d2.
Proof.
  induction d1 as [|[k' v'] d1 IH]; simpl; intros Hn; auto.
  rewrite decide_False.
  - apply IH. intros Hin. apply Hn. apply list_elem_of_further. exact Hin.
  - intros ->. apply Hn. apply list_elem_of_here.
Qed.

Lemma set_app_notin {V} (k : key) (v : V) (d1 d2 : dict V) :
  k ∉ Dict.keys d1 -> Dict.set k v (d1 ++ d2) = d1 ++ Dict.set k v d2.
Proof.
  induction d1 as [|[k' v'] d1 IH]; simpl; intros Hn; auto.
  rewrite decide_False.
  - f_equal. apply IH. intros Hin. apply Hn.
    apply list_elem_of_further. exact Hin.
  - intros ->. apply Hn. apply list_elem_of_here.
Qed.

Lemma get_None_not_in_keys {V} (k : key) (d : dict V) :
  Dict.get k d = None <-> k ∉ Dict.keys d.
Proof.
  split.
  - intros Hg Hin. apply in_keys_get in Hin. destruct Hin as [v Hv].
    congruence.
  - intros Hn. destruct (Dict.get k d) as [v|] eqn:Hg; auto.
    exfalso. apply Hn. eapply get_in_keys; eauto.
Qed.

(** *** translate *)

Definition shift (delta : point) (kv : key * point) : key * point :=
  (fst kv, (fst (snd kv) + fst delta, snd (snd kv) + snd delta)%float).

Lemma translate_ports_shift delta todo :
  forall done me me',
    endpoints me = done ++ todo ->
    NoDup (Dict.keys (done ++ todo)) ->
    translate_ports delta (Dict.keys todo) me = Ok me' ->
    endpoints me' = done ++ map (shift delta) todo.
Proof.
  induction todo as [|[k v] todo IH]; intros done me me' He Hnd Ht;
    simpl in Ht.
  - injection Ht as <-. rewrite He. reflexivity.
  - assert (Hk : k ∉ Dict.keys done).
    { unfold Dict.keys in Hnd. rewrite map_app in Hnd.
      apply NoDup_app in Hnd. destruct Hnd as (_ & Hdis & _).
      intros Hin. apply (Hdis _ Hin). apply list_elem_of_here. }
    rewrite He, get_app_notin in Ht by exact Hk.
    simpl in Ht. rewrite decide_True in Ht by reflexivity. simpl in Ht.
    rewrite set_app_notin in Ht by exact Hk.
    simpl in Ht. rewrite decide_True in Ht by reflexivity.
    apply (IH (done ++ [(k, (fst v + fst delta, snd v + snd delta)%float)]))
      in Ht.
    + rewrite Ht, <- app_assoc. reflexivity.
    + simpl. rewrite <- app_assoc. reflexivity.
    + rewrite <- app_assoc. simpl.
      unfold Dict.keys in *. rewrite map_app in *. simpl in *. exact Hnd.
Qed.

Lemma translate_ports_total delta ks :
  forall me,
    (forall k, k ∈ ks -> is_Some (Dict.get k (endpoints me))) ->
    exists me', translate_ports delta ks me = Ok me'.
Proof.
  induction ks as [|i ks IH]; intros me Hks; simpl; [eauto|].
  destruct (Hks i ltac:(apply list_elem_of_here)) as [v Hv].
  rewrite Hv. simpl. apply IH. intros k Hk. simpl.
  destruct (decide (i = k)) as [->|Hne].
  - rewrite get_set_eq. eauto.
  - rewrite get_set_ne by exact Hne. apply Hks.
    apply list_elem_of_further. exact Hk.
Qed.

Lemma translate_body_total delta n :
  exists n', translate_body delta n = Ok (n', delta).
Proof.
  unfold translate_body.
  destruct (translate_ports_total delta
              (Dict.keys (endpoints n))
              (set_structure n
                 (structure n ++ [GTranslate (fst delta) (snd delta)])))
    as [n' Hn'].
  - intros k Hk. apply in_keys_get. exact Hk.
  - exists n'. simpl in *. rewrite Hn'. reflexivity.
Qed.

Lemma translate_body_spec delta n n' delta' :
  translate_body delta n = Ok (n', delta') ->
  delta' = delta
  /\ structure n' = structure n ++ [GTranslate (fst delta) (snd delta)]
  /\ (NoDup (Dict.keys (endpoints n)) ->
      endpoints n' = map (shift delta) (endpoints n)).
Proof.
  unfold translate_body. intros Hb. inv_bind Hb. injection Hb as <- <-.
  split; [reflexivity|]. split.
  - assert (Hs : forall ks me me',
               translate_ports delta ks me = Ok me' ->
               structure me' = structure me).
    { clear. induction ks as [|i ks IH]; simpl; intros me me' Ht.
      - congruence.
      - inv_bind Ht. apply IH in Ht. rewrite Ht. reflexivity. }
    apply Hs in Hx. rewrite Hx. reflexivity.
  - intros Hnd. apply (translate_ports_shift delta (endpoints n) []) in Hx;
      auto.
Qed.

(** X1. On a store whose links point into it, [translate] always returns,
    and it moves exactly the connected component of [self]: every object
    reachable from [self] along predecessor and successor entries gets one
    [translate(dx, dy)] call on its shape and has each of its ports shifted
    by [delta] (its links, port names, sizes and directions kept), and
    every other object is left as it is. *)
Theorem translate_moves_exactly_the_component
    (st : store) (self : nat) (delta : point) :
  closed st -> self < length st ->
  exists st',
    translate st self delta = Ok st' /\ length st' = length st /\
    forall o n, st !! o = Some n ->
      exists n', st' !! o = Some n'
        /\ (reachable st self o ->
            structure n'
            = structure n ++ [GTranslate (fst delta) (snd delta)]
            /\ (NoDup (Dict.keys (endpoints n)) ->
                endpoints n' = map (shift delta) (endpoints n))
            /\ same_but_position n n')
        /\ (~ reachable st self o -> n' = n).
Proof.
  intros Hc Hl.
  pose proof (propagate_top_component translate_body (fun p => p = delta)
                ltac:(intros par n n' par' Hb;
                      apply translate_body_frame in Hb; apply Hb)
                ltac:(intros par n n' par' -> Hb;
                      apply translate_body_spec in Hb; tauto)
                ltac:(intros par n Hb;
                      destruct (translate_body_total par n) as [n' Hn'];
                      congruence)
                delta st self Hc Hl eq_refl) as Ht.
  unfold translate.
  destruct (propagate_top translate_body delta st self) as [st'|e|];
    [|exfalso|contradiction].
  - exists st'. split; [reflexivity|]. destruct Ht as [Hlen Ht].
    split; [exact Hlen|]. intros o n Hon.
    destruct (Ht o n Hon) as (n' & Hn' & Hr & Hnr).
    exists n'. split; [exact Hn'|]. split; [|exact Hnr].
    intros Hreach. destruct (Hr Hreach) as (p & p' & -> & Hb).
    pose proof (translate_body_frame _ _ _ _ Hb) as Hf.
    apply translate_body_spec in Hb. destruct Hb as (_ & Hs & He). auto.
  - destruct Ht as (o & n & p & _ & -> & Hb).
    destruct (translate_body_total delta n) as [n' Hn']. congruence.
Qed.

Lemma translate_moves_exactly_the_component_witness :
  closed cyclic_pair /\ 0 < length cyclic_pair /\
  exists st',
    translate cyclic_pair 0 (1, 2)%float = Ok st'
    /\ length st' = length cyclic_pair /\
    forall o n, cyclic_pair !! o = Some n ->
      exists n', st' !! o = Some n'
        /\ (reachable cyclic_pair 0 o ->
            structure n'
            = structure n ++ [GTranslate (fst (1, 2)%float)
                                (snd (1, 2)%float)]
            /\ (NoDup (Dict.keys (endpoints n)) ->
                endpoints n' = map (shift (1, 2)%float) (endpoints n))
            /\ same_but_position n n')
        /\ (~ reachable cyclic_pair 0 o -> n' = n).
Proof.
  split; [exact closed_cyclic_pair|]. split; [simpl; lia|].
  apply (translate_moves_exactly_the_component cyclic_pair 0 (1, 2)%float
           closed_cyclic_pair).
  simpl; lia.
Defined.

(** *** rotate *)

(** The direction map of [n], when it is in use ([if
    self.endpoint_directions:]), has an entry for every port of [n]. *)
Definition directions_cover (n : GDStructure) : Prop :=
  match endpoint_directions n with
  | Some d =>
      nonempty d = true ->
      forall k, k ∈ Dict.keys (endpoints n) -> is_Some (Dict.get k d)
  | None => True
  end.

Section RotateTotal.
Context `{Libm}.

Lemma rotate_ports_total rad ks :
  forall me,
    (forall k, k ∈ ks -> is_Some (Dict.get k (endpoints me))) ->
    match endpoint_directions me with
    | Some d =>
        nonempty d = true -> forall k, k ∈ ks -> is_Some (Dict.get k d)
    | None => True
    end ->
    exists me', rotate_ports rad ks me = Ok me'.
Proof.
  induction ks as [|i ks IH]; intros me Hks Hd; simpl; [eauto|].
  destruct (Hks i ltac:(apply list_elem_of_here)) as [v Hv].
  rewrite Hv. simpl.
  assert (Hks' : forall k, k ∈ ks ->
                   is_Some (Dict.get k (Dict.set i (VecRot rad v)
                                          (endpoints me)))).
  { intros k Hk. destruct (decide (i = k)) as [->|Hne].
    - rewrite get_set_eq. eauto.
    - rewrite get_set_ne by exact Hne. apply Hks.
      apply list_elem_of_further. exact Hk. }
  destruct (endpoint_directions me) as [d|] eqn:Hdir.
  - destruct (nonempty d) eqn:Hne.
    + destruct (Hd eq_refl i ltac:(apply list_elem_of_here)) as [a Ha].
      rewrite Ha. simpl. apply IH; simpl; auto.
      intros _ k Hk. destruct (decide (i = k)) as [->|Hik].
      * rewrite get_set_eq. eauto.
      * rewrite get_set_ne by exact Hik. apply (Hd eq_refl).
        apply list_elem_of_further. exact Hk.
    + simpl. apply IH; simpl; auto. rewrite Hdir. congruence.
  - simpl. apply IH; simpl; auto. rewrite Hdir. exact Logic.I.
Qed.

Lemma rotate_body_total rad n :
  directions_cover n -> exists n', rotate_body rad n = Ok (n', rad).
Proof.
  intros Hd. unfold rotate_body.
  destruct (rotate_ports_total rad (Dict.keys (endpoints n))
              (set_structure n (structure n ++ [GRotate rad])))
    as [n' Hn'].
  - intros k Hk. apply in_keys_get. exact Hk.
  - exact Hd.
  - exists n'. simpl in *. rewrite Hn'. reflexivity.
Qed.

(** X2. On a store whose links point into it and whose objects all have
    complete direction data (none, empty, or one entry per port),
    [rotate] returns, and it turns exactly the connected component of
    [self]: every object reachable from [self] receives the rotation body
    once (one more [rotate(rad)] on its shape), every other object is left
    as it is. *)
Theorem rotate_turns_exactly_the_component
    (st : store) (self : nat) (rad : float) :
  closed st -> self < length st ->
  (forall o n, st !! o = Some n -> directions_cover n) ->
  exists st',
    rotate st self rad = Ok st' /\ length st' = length st /\
    forall o n, st !! o = Some n ->
      exists n', st' !! o = Some n'
        /\ (reachable st self o ->
            rotate_body rad n = Ok (n', rad)
            /\ structure n' = structure n ++ [GRotate rad])
        /\ (~ reachable st self o -> n' = n).
Proof.
  intros Hc Hl Hcov.
  pose proof (propagate_top_component rotate_body (fun p => p = rad)
                rotate_body_frame
                ltac:(intros par n n' par' -> Hb;
                      apply rotate_body_structure in Hb; tauto)
                rotate_body_fuel rad st self Hc Hl eq_refl) as Ht.
  unfold rotate.
  destruct (propagate_top rotate_body rad st self) as [st'|e|];
    [|exfalso|contradiction].
  - exists st'. split; [reflexivity|]. destruct Ht as [Hlen Ht].
    split; [exact Hlen|]. intros o n Hon.
    destruct (Ht o n Hon) as (n' & Hn' & Hr & Hnr).
    exists n'. split; [exact Hn'|]. split; [|exact Hnr].
    intros Hreach. destruct (Hr Hreach) as (p & p' & -> & Hb).
    destruct (rotate_body_structure _ _ _ _ Hb) as [Hs ->]. auto.
  - destruct Ht as (o & n & p & Hon & -> & Hb).
    destruct (rotate_body_total rad n (Hcov o n Hon)) as [n' Hn'].
    congruence.
Qed.

End RotateTotal.

(** Two objects with direction data, linked in a cycle, and a third one on
    its own. *)
Definition directed_pair_and_single : store :=
  [ bar (Some facing_dirs) [(KStr "A", 1)] [(KStr "B", 1)];
    bar (Some facing_dirs) [(KStr "A", 0)] [(KStr "B", 0)];
    bar None [] [] ].

Lemma closed_directed_pair_and_single : closed directed_pair_and_single.
Proof. repeat (constructor; simpl; try lia). Defined.

Lemma directions_cover_directed_pair_and_single :
  forall o n, directed_pair_and_single !! o = Some n -> directions_cover n.
Proof.
  intros [|[|[|o]]] n Ho; simpl in Ho; try discriminate;
    injection Ho as <-; unfold directions_cover; simpl; auto;
    intros _ k Hk; change (is_Some (Dict.get k facing_dirs));
    apply in_keys_get; exact Hk.
Defined.

Lemma rotate_turns_exactly_the_component_witness :
  closed directed_pair_and_single /\ 0 < length directed_pair_and_single
  /\ (forall o n, directed_pair_and_single !! o = Some n ->
                  directions_cover n)
  /\ exists st',
       rotate (H := example_libm) directed_pair_and_single 0 1%float = Ok st'
       /\ length st' = length directed_pair_and_single /\
       forall o n, directed_pair_and_single !! o = Some n ->
         exists n', st' !! o = Some n'
           /\ (reachable directed_pair_and_single 0 o ->
               rotate_body (H := example_libm) 1%float n = Ok (n', 1%float)
               /\ structure n' = structure n ++ [GRotate 1%float])
           /\ (~ reachable directed_pair_and_single 0 o -> n' = n).
Proof.
  split; [exact closed_directed_pair_and_single|]. split; [simpl; lia|].
  split; [exact directions_cover_directed_pair_and_single|].
  apply (rotate_turns_exactly_the_component (H := example_libm)
           directed_pair_and_single 0 1%float
           closed_directed_pair_and_single).
  - simpl; lia.
  - exact directions_cover_directed_pair_and_single.
Defined.

(** *** mirror *)

Lemma py_div_fuel x y : py_div x y <> OutOfFuel.
Proof. unfold py_div. destruct (y =? 0)%float; discriminate. Qed.

Lemma py_sq_fuel a : py_sq a <> OutOfFuel.
Proof.
  unfold py_sq. simpl.
  destruct (is_infinity (a * a) && negb (is_infinity a)); discriminate.
Qed.

Lemma mirror_point_fuel p1 p2 v : mirror_point p1 p2 v <> OutOfFuel.
Proof.
  unfold mirror_point.
  match goal with
  | |- bind (py_div ?x ?y) _ <> _ =>
      pose proof (py_div_fuel x y) as Ha; destruct (py_div x y) as [a| |]
  end; simpl; try congruence.
  pose proof (py_sq_fuel a) as Ha2.
  destruct (py_sq a) as [a2| |]; simpl; try congruence.
  match goal with
  | |- bind (py_div ?x ?y) _ <> _ =>
      pose proof (py_div_fuel x y) as Hd; destruct (py_div x y) as [d| |]
  end; simpl; congruence.
Qed.

Lemma mirror_ports_fuel ks :
  forall p1 p2 me, mirror_ports ks p1 p2 me <> OutOfFuel.
Proof.
  induction ks as [|k ks IH]; simpl; intros p1 p2 me; [discriminate|].
  destruct (Dict.get k (endpoints me)) as [v|]; simpl; [|discriminate].
  pose proof (mirror_point_fuel p1 p2 v) as Hp.
  destruct (mirror_point p1 p2 v) as [[p1' v2]| |]; simpl;
    [apply IH|discriminate|congruence].
Qed.

Lemma mirror_ports_line ks :
  forall p1 p2 me me' q1 q2,
    mirror_ports ks p1 p2 me = Ok (me', (q1, q2)) ->
    q2 = p2 /\ structure me' = structure me.
Proof.
  induction ks as [|k ks IH]; simpl; intros p1 p2 me me' q1 q2 Hm.
  - injection Hm as <- <- <-. auto.
  - inv_bind Hm. inv_bind Hm. destruct x0 as [p1' v2].
    apply IH in Hm. destruct Hm as [-> Hs]. rewrite Hs. auto.
Qed.

(** X3. When a [mirror] call on a store whose links point into it returns,
    it has reflected exactly the connected component of [self]: every
    object reachable from [self] received one [mirror] call on its shape,
    across a line ending in the given [p2], with links, port names, sizes
    and directions kept; every other object is left as it is. *)
Theorem mirror_reflects_exactly_the_component
    (st st' : store) (self : nat) (p1 p2 : point) :
  closed st -> self < length st ->
  mirror st self p1 p2 = Ok st' ->
  length st' = length st /\
  forall o n, st !! o = Some n ->
    exists n', st' !! o = Some n'
      /\ (reachable st self o ->
          (exists q1, structure n' = structure n ++ [GMirror q1 p2])
          /\ same_but_position n n')
      /\ (~ reachable st self o -> n' = n).
Proof.
  intros Hc Hl Hm.
  pose proof (propagate_top_component mirror_body (fun p => snd p = p2)
                ltac:(intros par n n' par' Hb;
                      apply mirror_body_frame in Hb; apply Hb)
                ltac:(intros [a b] n n' [a' b'] Hi Hb; simpl in *;
                      unfold mirror_body in Hb;
                      apply mirror_ports_line in Hb; destruct Hb; congruence)
                ltac:(intros [a b] n; unfold mirror_body;
                      apply mirror_ports_fuel)
                (p1, p2) st self Hc Hl eq_refl) as Ht.
  unfold mirror in Hm. rewrite Hm in Ht. destruct Ht as [Hlen Ht].
  split; [exact Hlen|]. intros o n Hon.
  destruct (Ht o n Hon) as (n' & Hn' & Hr & Hnr).
  exists n'. split; [exact Hn'|]. split; [|exact Hnr].
  intros Hreach. destruct (Hr Hreach) as ([a b] & [a' b'] & Hi & Hb).
  simpl in Hi. subst b. split.
  - unfold mirror_body in Hb. apply mirror_ports_line in Hb.
    destruct Hb as [_ Hs]. simpl in Hs. eauto.
  - eapply mirror_body_frame; eauto.
Qed.

Definition cyclic_pair_mirrored : store :=
  [ mkGDS [GShape 0; GMirror (0, 0)%float (1, 1)%float]
      [(KStr "A", (0, 0)%float); (KStr "B", (0, 1)%float)]
      [(KStr "A", Some 1%float); (KStr "B", Some 1%float)]
      None [] [(KStr "A", 1)] [(KStr "B", 1)] None;
    mkGDS [GShape 0; GMirror (0, 0)%float (1, 1)%float]
      [(KStr "A", (0, 0)%float); (KStr "B", (0, 1)%float)]
      [(KStr "A", Some 1%float); (KStr "B", Some 1%float)]
      None [] [(KStr "A", 0)] [(KStr "B", 0)] None ].

Lemma mirror_reflects_exactly_the_component_witness :
  closed cyclic_pair /\ 0 < length cyclic_pair
  /\ mirror cyclic_pair 0 (0, 0)%float (1, 1)%float = Ok cyclic_pair_mirrored
  /\ length cyclic_pair_mirrored = length cyclic_pair
  /\ forall o n, cyclic_pair !! o = Some n ->
       exists n', cyclic_pair_mirrored !! o = Some n'
         /\ (reachable cyclic_pair 0 o ->
             (exists q1,
                 structure n' = structure n ++ [GMirror q1 (1, 1)%float])
             /\ same_but_position n n')
         /\ (~ reachable cyclic_pair 0 o -> n' = n).
Proof.
  split; [exact closed_cyclic_pair|]. split; [simpl; lia|].
  split; [vm_compute; reflexivity|].
  apply (mirror_reflects_exactly_the_component cyclic_pair
           cyclic_pair_mirrored 0 (0, 0)%float (1, 1)%float
           closed_cyclic_pair).
  - simpl; lia.
  - vm_compute; reflexivity.
Defined.

(** ** disconnect removes links only *)

(** X4. [disconnect] changes nothing but link maps, and never adds or
    redirects a link: every object keeps its shape, ports, sizes,
    directions, children and builder; every link entry present afterwards
    was present before with the same target; and an entry that is gone was
    recorded under a port name of the object that held it. *)
Theorem disconnect_only_removes_links (st : store) (self : nat) :
  length (disconnect st self) = length st /\
  forall o n, st !! o = Some n ->
    exists n', disconnect st self !! o = Some n'
      /\ same_payload n n'
      /\ (forall s k v, Dict.get k (links s n') = Some v ->
                        Dict.get k (links s n) = Some v)
      /\ (forall s k, is_Some (Dict.get k (links s n)) ->
                      Dict.get k (links s n') = None ->
                      k ∈ Dict.keys (endpoints n)).
Proof.
  pose proof (disconnect_shrunk self st) as Hs. split.
  - symmetry. eapply Forall2_length; eauto.
  - intros o n Ho.
    destruct (Forall2_lookup_l _ _ _ _ _ Hs Ho) as (n' & Hn' & Hp & Hl).
    exists n'. split; [exact Hn'|]. split; [exact Hp|]. split.
    + intros s k v Hg. destruct (Hl s k) as [Heq|[Hnone _]]; congruence.
    + intros s k [v Hv] Hnone.
      destruct (Hl s k) as [Heq|[_ Hin]]; [congruence|exact Hin].
Qed.

Section DisconnectOthers.
Variable self : nat.

Lemma unlink_back_other s x st o n :
  o <> x -> st !! o = Some n -> unlink_back s self x st !! o = Some n.
Proof.
  intros Hox. rewrite unlink_back_fold.
  destruct (st !! x) as [nx|]; [|auto].
  generalize (Dict.keys (endpoints nx)). intros ks. revert st.
  induction ks as [|ne ks IH]; intros st Ho; simpl; [exact Ho|].
  apply IH. unfold unlink_turn.
  destruct (st !! x) as [m|]; [|exact Ho].
  destruct (decide (Dict.get ne (links s m) = Some self)); [|exact Ho].
  rewrite list_lookup_insert_ne by congruence. exact Ho.
Qed.

Lemma unlink_back_stranger s x st o n :
  st !! o = Some n ->
  (forall k, Dict.get k (links s n) <> Some self) ->
  unlink_back s self x st !! o = Some n.
Proof.
  intros Ho Hn. destruct (decide (o = x)) as [->|Hox];
    [|apply unlink_back_other; auto].
  rewrite unlink_back_fold, Ho.
  generalize (Dict.keys (endpoints n)). intros ks. revert Ho.
  generalize st. clear st.
  induction ks as [|ne ks IH]; intros st Ho; simpl; [exact Ho|].
  apply IH. unfold unlink_turn. rewrite Ho.
  destruct (decide (Dict.get ne (links s n) = Some self)) as [Hg|];
    [destruct (Hn _ Hg)|exact Ho].
Qed.

(** What [disconnect] on [self] may do to another object. *)
Definition spared (n n' : GDStructure) : Prop :=
  unlinked self n n'
  /\ ((forall s k, Dict.get k (links s n) <> Some self) -> n' = n).

Lemma spared_refl n : spared n n.
Proof. split; [apply unlinked_refl|auto]. Qed.

Lemma spared_trans a b c : spared a b -> spared b c -> spared a c.
Proof.
  intros [Hu1 He1] [Hu2 He2]. split; [eapply unlinked_trans; eauto|].
  intros Hn. rewrite (He1 Hn) in *. auto.
Qed.

Lemma disconnect_side_spared s e st o n :
  o <> self -> st !! o = Some n ->
  exists n', disconnect_side s self e st !! o = Some n' /\ spared n n'.
Proof.
  intros Hos Ho. unfold disconnect_side.
  destruct (st !! self) as [me|] eqn:Hme;
    [|eauto using spared_refl].
  destruct (Dict.get e (links s me)) as [x|] eqn:Hx;
    [|eauto using spared_refl].
  pose proof (unlink_back_unlinked self (flip s) x st) as Hu.
  destruct (Forall2_lookup_l _ _ _ _ _ Hu Ho) as (n1 & Hn1 & Hun).
  assert (Hgoal : unlink_back (flip s) self x st !! o = Some n1
                  /\ spared n n1).
  { split; [exact Hn1|]. split; [exact Hun|].
    intros Hnone.
    pose proof (unlink_back_stranger (flip s) x st o n Ho
                  ltac:(intros k; apply Hnone)) as Hsame.
    congruence. }
  destruct (unlink_back (flip s) self x st !! self) as [me1|];
    [|eauto].
  rewrite list_lookup_insert_ne by congruence. eauto.
Qed.

Lemma disconnect_fold_spared ks :
  forall st o n,
    o <> self -> st !! o = Some n ->
    exists n', fold_left (disconnect_turn self) ks st !! o = Some n'
               /\ spared n n'.
Proof.
  induction ks as [|e ks IH]; intros st o n Hos Ho; simpl;
    [eauto using spared_refl|].
  destruct (disconnect_side_spared Next e st o n Hos Ho)
    as (n1 & Hn1 & Hs1).
  destruct (disconnect_side_spared Prev e _ o n1 Hos Hn1)
    as (n2 & Hn2 & Hs2).
  destruct (IH (disconnect_turn self st e) o n2 Hos Hn2)
    as (n3 & Hn3 & Hs3).
  exists n3. split; [exact Hn3|].
  eapply spared_trans; [|exact Hs3]. eapply spared_trans; eauto.
Qed.

End DisconnectOthers.

(** X5. In an object other than [self], [disconnect] on [self] removes
    only entries that pointed to [self]: a link of that object to anything
    else is still there afterwards, and an object that holds no link to
    [self] at all is left exactly as it was. *)
Theorem disconnect_spares_links_to_others
    (st : store) (self o : nat) (n : GDStructure) :
  o <> self -> st !! o = Some n ->
  exists n', disconnect st self !! o = Some n'
    /\ (forall s k v, Dict.get k (links s n) = Some v -> v <> self ->
                      Dict.get k (links s n') = Some v)
    /\ ((forall s k, Dict.get k (links s n) <> Some self) -> n' = n).
Proof.
  intros Hos Ho. rewrite disconnect_fold.
  destruct (st !! self) as [me|].
  - destruct (disconnect_fold_spared self (Dict.keys (endpoints me))
                st o n Hos Ho) as (n' & Hn' & [_ Hl] & Hsame).
    exists n'. split; [exact Hn'|]. split; [|exact Hsame].
    intros s k v Hg Hv. destruct (Hl s k) as [Heq|(_ & _ & Hself)];
      congruence.
  - exists n. split; [exact Ho|]. auto.
Qed.

(** Object 0 is connected to 1 under its port name; 1 also links to 2. *)
Definition chain_of_three : store :=
  [ bar None [] [(KStr "B", 1)];
    bar None [(KStr "A", 0)] [(KStr "B", 2)];
    bar None [(KStr "A", 1)] [] ].

Lemma disconnect_spares_links_to_others_witness :
  1 <> 0 /\ chain_of_three !! 1
            = Some (bar None [(KStr "A", 0)] [(KStr "B", 2)])
  /\ exists n', disconnect chain_of_three 0 !! 1 = Some n'
       /\ (forall s k v,
              Dict.get k (links s (bar None [(KStr "A", 0)] [(KStr "B", 2)]))
              = Some v ->
              v <> 0 -> Dict.get k (links s n') = Some v)
       /\ ((forall s k,
               Dict.get k (links s (bar None [(KStr "A", 0)] [(KStr "B", 2)]))
               <> Some 0) ->
           n' = bar None [(KStr "A", 0)] [(KStr "B", 2)]).
Proof.
  split; [lia|]. split; [reflexivity|].
  apply (disconnect_spares_links_to_others chain_of_three 0 1);
    [lia|reflexivity].
Defined.

(** ** connect and the ports it names *)

Section ConnectPorts.
Context `{Libm}.

Lemma rotate_returns st self rad :
  closed st -> self < length st ->
  (forall o n, st !! o = Some n -> directions_cover n) ->
  exists st', rotate st self rad = Ok st'.
Proof.
  intros Hc Hl Hcov.
  pose proof (propagate_top_component rotate_body (fun p => p = rad)
                rotate_body_frame
                ltac:(intros par n n' par' -> Hb;
                      apply rotate_body_structure in Hb; tauto)
                rotate_body_fuel rad st self Hc Hl eq_refl) as Ht.
  unfold rotate.
  destruct (propagate_top rotate_body rad st self) as [st'|e|];
    [eauto|exfalso|contradiction].
  destruct Ht as (o & n & p & Hon & -> & Hb).
  destruct (rotate_body_total rad n (Hcov o n Hon)) as [n' Hn']. congruence.
Qed.

(** [translate] on a closed store: it returns, and the body has run on the
    component of [self] and nowhere else. *)
Lemma translate_acts st self delta :
  closed st -> self < length st ->
  exists st',
    translate st self delta = Ok st' /\ length st' = length st
    /\ Forall2 same_but_position st st'
    /\ forall o n, st !! o = Some n ->
         exists n', st' !! o = Some n'
           /\ (reachable st self o -> translate_body delta n = Ok (n', delta))
           /\ (~ reachable st self o -> n' = n).
Proof.
  intros Hc Hl.
  pose proof (propagate_top_component translate_body (fun p => p = delta)
                ltac:(intros par n n' par' Hb;
                      apply translate_body_frame in Hb; apply Hb)
                ltac:(intros par n n' par' -> Hb;
                      apply translate_body_spec in Hb; tauto)
                ltac:(intros par n Hb;
                      destruct (translate_body_total par n) as [n' Hn'];
                      congruence)
                delta st self Hc Hl eq_refl) as Ht.
  pose proof (translate_frame st self delta) as Hf.
  unfold translate in *.
  destruct (propagate_top translate_body delta st self) as [st'|e|];
    [|exfalso|contradiction].
  - exists st'. split; [reflexivity|]. destruct Ht as [Hlen Ht].
    split; [exact Hlen|]. split; [apply Hf; reflexivity|].
    intros o n Hon.
    destruct (Ht o n Hon) as (n' & Hn' & Hr & Hnr).
    exists n'. split; [exact Hn'|]. split; [|exact Hnr].
    intros Hreach. destruct (Hr Hreach) as (p & p' & -> & Hb).
    pose proof (translate_body_spec _ _ _ _ Hb) as [-> _]. exact Hb.
  - destruct Ht as (o & n & p & _ & -> & Hb).
    destruct (translate_body_total delta n) as [n' Hn']. congruence.
Qed.

(** X6. [connect] returns only when both named ports exist: whatever the
    flags, a returning call means that [ep_self] is a port of [self] and
    [ep_to] a port of [to] in the store it was given. *)
Theorem connect_returns_only_on_existing_ports
    (st st' : store) (self : nat) (ep_self : key) (to : nat) (ep_to : key)
    (offset : point) (obj_link rot : bool) :
  connect st self ep_self to ep_to offset obj_link rot = Ok st' ->
  exists me other,
    st !! self = Some me /\ st !! to = Some other
    /\ ep_self ∈ Dict.keys (endpoints me)
    /\ ep_to ∈ Dict.keys (endpoints other).
Proof.
  unfold connect. intros Hc.
  inv_bind Hc. inv_bind Hc. inv_bind Hc. inv_bind Hc. inv_bind Hc.
  inv_bind Hc. inv_bind Hc. clear Hc.
  apply deref_Ok in Hx, Hx0, Hx2, Hx3. apply lift_Ok in Hx4, Hx5.
  assert (Hf : Forall2 same_topology st x1).
  { destruct (has_directions x && has_directions x0 && rot).
    - inv_bind Hx1. inv_bind Hx1. eapply rotate_frame; eauto.
    - injection Hx1 as <-. apply related_refl. apply same_topology_refl. }
  destruct (Forall2_lookup_r _ _ _ _ _ Hf Hx2)
    as (m & Hm & (_ & _ & Hk & _)).
  destruct (Forall2_lookup_r _ _ _ _ _ Hf Hx3)
    as (t & Ht & (_ & _ & Hkt & _)).
  assert (m = x) by congruence. assert (t = x0) by congruence. subst m t.
  exists x, x0. repeat split; auto.
  - rewrite <- Hk. eapply get_in_keys; eauto.
  - rewrite <- Hkt. eapply get_in_keys; eauto.
Qed.

(** X7. On a store whose links point into it and whose objects have
    complete direction data, [connect] returns whenever both named ports
    exist, with any offset and any flags, and the store keeps its size. *)
Theorem connect_returns_when_ports_exist
    (st : store) (self : nat) (ep_self : key) (to : nat) (ep_to : key)
    (offset : point) (obj_link rot : bool) (me other : GDStructure) :
  closed st ->
  (forall o n, st !! o = Some n -> directions_cover n) ->
  st !! self = Some me -> st !! to = Some other ->
  ep_self ∈ Dict.keys (endpoints me) ->
  ep_to ∈ Dict.keys (endpoints other) ->
  exists st',
    connect st self ep_self to ep_to offset obj_link rot = Ok st'
    /\ length st' = length st.
Proof.
  intros Hc Hcov Hme Hto Hes Het.
  assert (Hl : self < length st) by (eapply lookup_lt_Some; eauto).
  assert (Hlt : to < length st) by (eapply lookup_lt_Some; eauto).
  unfold connect, deref. rewrite Hme, Hto. simpl.
  match goal with
  | |- context [bind (if ?c then ?t else ?e) _] =>
      assert (Hst1 : exists st1,
                 (if c then t else e) = Ok st1
                 /\ Forall2 same_topology st st1)
  end.
  { destruct (has_directions me && has_directions other && rot) eqn:Hd.
    - apply andb_prop in Hd. destruct Hd as [Hd _].
      apply andb_prop in Hd. destruct Hd as [Hdm Hdo].
      pose proof (Hcov _ _ Hme) as Cm. pose proof (Hcov _ _ Hto) as Co.
      unfold has_directions, directions_cover in *.
      destruct (endpoint_directions me) as [dm|]; [|discriminate].
      destruct (endpoint_directions other) as [dt|]; [|discriminate].
      destruct (Co Hdo ep_to Het) as [a Ha].
      destruct (Cm Hdm ep_self Hes) as [b Hb].
      simpl. rewrite Ha, Hb. simpl.
      destruct (rotate_returns st self
                  (py_fmod (a - b - np_pi) (2 * np_pi)) Hc Hl Hcov)
        as [st1 Hr].
      exists st1. split; [exact Hr|]. eapply rotate_frame; eauto.
    - exists st. split; [reflexivity|].
      apply related_refl. apply same_topology_refl. }
  destruct Hst1 as (st1 & -> & Hf). simpl.
  destruct (Forall2_lookup_l _ _ _ _ _ Hf Hme)
    as (me1 & Hme1 & (_ & _ & Hk & _)).
  destruct (Forall2_lookup_l _ _ _ _ _ Hf Hto)
    as (to1 & Hto1 & (_ & _ & Hkt & _)).
  rewrite Hme1, Hto1. simpl.
  destruct (in_keys_get ep_to (endpoints to1)) as [e_to He_to];
    [rewrite Hkt; exact Het|].
  destruct (in_keys_get ep_self (endpoints me1)) as [e_self He_self];
    [rewrite Hk; exact Hes|].
  rewrite He_to, He_self. simpl.
  pose proof (Forall2_length _ _ _ Hf) as Hlen1.
  match goal with
  | |- context [translate st1 self ?d] =>
      destruct (translate_acts st1 self d
                  ltac:(eapply closed_related; eauto) ltac:(lia))
        as (st2 & -> & Hlen2 & _)
  end.
  simpl. unfold link, deref.
  destruct (lookup_lt_is_Some_2 st2 to ltac:(lia)) as [n2 Hn2].
  destruct obj_link; simpl; rewrite Hn2; simpl.
  - match goal with
    | |- context [<[to := ?v]> st2 !! self] =>
        destruct (lookup_lt_is_Some_2 (<[to := v]> st2) self
                    ltac:(rewrite length_insert; lia)) as [n3 Hn3]
    end.
    rewrite Hn3. simpl. eexists. split; [reflexivity|].
    rewrite !length_insert. lia.
  - match goal with
    | |- context [<[to := ?v]> st2 !! self] =>
        destruct (lookup_lt_is_Some_2 (<[to := v]> st2) self
                    ltac:(rewrite length_insert; lia)) as [n3 Hn3]
    end.
    rewrite Hn3. simpl. eexists. split; [reflexivity|].
    rewrite !length_insert. lia.
Qed.

End ConnectPorts.

Lemma connect_returns_only_on_existing_ports_witness :
  connect (H := example_libm) plain_pair 0 (KStr "A") 1 (KStr "B")
    (0, 0)%float false true = Ok plain_pair_connected
  /\ exists me other,
       plain_pair !! 0 = Some me /\ plain_pair !! 1 = Some other
       /\ KStr "A" ∈ Dict.keys (endpoints me)
       /\ KStr "B" ∈ Dict.keys (endpoints other).
Proof.
  split; [vm_compute; reflexivity|].
  apply (connect_returns_only_on_existing_ports (H := example_libm)
           plain_pair plain_pair_connected 0 (KStr "A") 1 (KStr "B")
           (0, 0)%float false true).
  vm_compute; reflexivity.
Defined.

Lemma closed_facing_pair : closed facing_pair.
Proof. repeat (constructor; simpl; try lia). Defined.

Lemma directions_cover_facing_pair :
  forall o n, facing_pair !! o = Some n -> directions_cover n.
Proof.
  intros [|[|o]] n Ho; simpl in Ho; try discriminate;
    injection Ho as <-; unfold directions_cover; simpl;
    intros _ k Hk; change (is_Some (Dict.get k facing_dirs));
    apply in_keys_get; exact Hk.
Defined.

Lemma connect_returns_when_ports_exist_witness :
  closed facing_pair
  /\ (forall o n, facing_pair !! o = Some n -> directions_cover n)
  /\ facing_pair !! 0 = Some (bar (Some facing_dirs) [] [])
  /\ facing_pair !! 1 = Some (bar (Some facing_dirs) [] [])
  /\ KStr "A" ∈ Dict.keys (endpoints (bar (Some facing_dirs) [] []))
  /\ KStr "B" ∈ Dict.keys (endpoints (bar (Some facing_dirs) [] []))
  /\ exists st',
       connect (H := example_libm) facing_pair 0 (KStr "A") 1 (KStr "B")
         (0, 0)%float false true = Ok st'
       /\ length st' = length facing_pair.
Proof.
  assert (Ha : KStr "A" ∈ Dict.keys (endpoints (bar (Some facing_dirs) [] [])))
    by (apply list_elem_of_here).
  assert (Hb : KStr "B" ∈ Dict.keys (endpoints (bar (Some facing_dirs) [] [])))
    by (apply list_elem_of_further, list_elem_of_here).
  split; [exact closed_facing_pair|].
  split; [exact directions_cover_facing_pair|].
  split; [reflexivity|]. split; [reflexivity|].
  split; [exact Ha|]. split; [exact Hb|].
  exact (connect_returns_when_ports_exist (H := example_libm)
           facing_pair 0 (KStr "A") 1 (KStr "B") (0, 0)%float false true
           (bar (Some facing_dirs) [] []) (bar (Some facing_dirs) [] [])
           closed_facing_pair directions_cover_facing_pair
           eq_refl eq_refl Ha Hb).
Defined.

(** ** cluster *)

Lemma compound_key_inj i j : compound_key i = compound_key j -> i = j.
Proof.
  assert (Hs : forall a b, KStr a = KStr b -> a = b)
    by (intros a b Hab; injection Hab as ->; reflexivity).
  unfold compound_key. intros Hk. apply Hs in Hk.
  apply (inj (String.app "COMPOUND_")) in Hk.
  apply (inj pretty) in Hk. exact Hk.
Qed.

Lemma Forall_dict_set {V} (P : key * V -> Prop) (k : key) (v : V)
    (d : dict V) :
  Forall P d -> P (k, v) -> Forall P (Dict.set k v d).
Proof.
  intros Hd Hk. induction Hd as [|[k' v'] d Hx Hd IH]; simpl.
  - constructor; [exact Hk|constructor].
  - destruct (decide (k' = k)); constructor; auto.
Qed.

(** One link assignment [a.<s>[k] = b]. *)
Lemma link_spec st a s k b st' :
  link st a s k b = Ok st' ->
  length st' = length st
  /\ (exists na', st' !! a = Some na' /\ Dict.get k (links s na') = Some b)
  /\ (forall o, o <> a -> st' !! o = st !! o)
  /\ (forall o n, st !! o = Some n ->
        exists n', st' !! o = Some n' /\ same_payload n n'
          /\ forall s' k', o <> a \/ s' <> s \/ k' <> k ->
               Dict.get k' (links s' n') = Dict.get k' (links s' n))
  /\ (closed st -> b < length st -> closed st').
Proof.
  intros Hl. apply link_Ok in Hl. destruct Hl as (na & Hna & ->).
  assert (Ha : a < length st) by (eapply lookup_lt_Some; eauto).
  split; [apply length_insert|]. split; [|split; [|split]].
  - eexists. split; [apply list_lookup_insert_eq; exact Ha|].
    rewrite links_set_links. apply get_set_eq.
  - intros o Ho. apply list_lookup_insert_ne. congruence.
  - intros o n Ho. destruct (decide (o = a)) as [->|Hne].
    + assert (n = na) by congruence. subst n.
      eexists. split; [apply list_lookup_insert_eq; exact Ha|].
      split; [apply same_payload_set_links|].
      intros s' k' Hd. destruct (decide (s' = s)) as [->|Hs].
      * rewrite links_set_links. apply get_set_ne.
        destruct Hd as [Hd|[Hd|Hd]]; congruence.
      * destruct s, s'; try congruence; reflexivity.
    + exists n. split; [rewrite list_lookup_insert_ne by congruence; auto|].
      split; [apply same_payload_refl|auto].
  - intros Hc Hb. unfold closed in *. rewrite Forall_lookup in *.
    intros i n Hi. rewrite length_insert.
    destruct (decide (i = a)) as [->|Hne].
    + rewrite list_lookup_insert_eq in Hi by exact Ha. injection Hi as <-.
      destruct (Hc _ _ Hna) as [Hp Hn].
      destruct s; simpl; split; auto;
        apply Forall_dict_set; auto.
    + rewrite list_lookup_insert_ne in Hi by congruence. eauto.
Qed.

(** The linking loop of [cluster], started at position [i]. *)
Lemma cluster_links_spec head objs :
  forall i st st',
    cluster_links head objs i st = Ok st' ->
    length st' = length st
    /\ (forall o, o <> head -> o ∉ objs -> st' !! o = st !! o)
    /\ (forall o n, st !! o = Some n ->
          exists n', st' !! o = Some n' /\ same_payload n n'
            /\ (Dict.get (compound_key 0) (prev n) = Some head ->
                Dict.get (compound_key 0) (prev n') = Some head)
            /\ (forall j, j < i ->
                  Dict.get (compound_key j) (next n')
                  = Dict.get (compound_key j) (next n)))
    /\ (forall j o, objs !! j = Some o ->
          (exists hn, st' !! head = Some hn
                      /\ Dict.get (compound_key (i + j)) (next hn) = Some o)
          /\ exists on, st' !! o = Some on
                        /\ Dict.get (compound_key 0) (prev on) = Some head)
    /\ (closed st -> head < length st -> closed st').
Proof.
  induction objs as [|x objs IH]; simpl; intros i st st' Hcl.
  - injection Hcl as <-. split; [reflexivity|]. split; [auto|].
    split; [|split; [|auto]].
    + intros o n Ho. exists n. repeat split; auto.
    + intros j o Hj. discriminate.
  - inv_bind Hcl. inv_bind Hcl. rename x0 into st1, x1 into st2.
    destruct (link_spec _ _ _ _ _ _ Hx) as (Hl1 & Hh1 & Hf1 & Hp1 & Hc1).
    destruct (link_spec _ _ _ _ _ _ Hx0) as (Hl2 & Hh2 & Hf2 & Hp2 & Hc2).
    destruct (IH _ _ _ Hcl) as (Hl3 & Hf3 & Hp3 & Hm3 & Hc3).
    assert (Hxlt : x < length st).
    { destruct Hh2 as (n & Hn & _). apply lookup_lt_Some in Hn. lia. }
    split; [lia|]. split; [|split; [|split]].
    + intros o Ho Hnin. rewrite Hf3, Hf2, Hf1; auto.
      * intros ->. apply Hnin. apply list_elem_of_here.
      * intros Hin. apply Hnin. apply list_elem_of_further. exact Hin.
    + intros o n Ho.
      destruct (Hp1 o n Ho) as (n1 & Hn1 & Hs1 & Hk1).
      destruct (Hp2 o n1 Hn1) as (n2 & Hn2 & Hs2 & Hk2).
      destruct (Hp3 o n2 Hn2) as (n3 & Hn3 & Hs3 & Hk3 & Hj3).
      exists n3. split; [exact Hn3|].
      split; [eauto using same_payload_trans|]. split.
      * intros Hg. apply Hk3.
        destruct (decide (o = x)) as [->|Hox].
        -- destruct Hh2 as (n2' & Hn2' & Hg2).
           assert (n2' = n2) by congruence. subst n2'. exact Hg2.
        -- pose proof (Hk2 Prev (compound_key 0) ltac:(auto)) as E2.
           pose proof (Hk1 Prev (compound_key 0)
                         ltac:(right; left; congruence)) as E1.
           simpl in E1, E2. congruence.
      * intros j Hj. rewrite Hj3 by lia.
        pose proof (Hk2 Next (compound_key j)
                      ltac:(right; left; congruence)) as E2.
        assert (E1 : Dict.get (compound_key j) (links Next n1)
                     = Dict.get (compound_key j) (links Next n)).
        { apply Hk1. right. right.
          intros Hk. apply compound_key_inj in Hk. lia. }
        simpl in E1, E2. congruence.
    + intros j o Hj. destruct j as [|j]; simpl in Hj.
      * injection Hj as ->. rewrite Nat.add_0_r.
        destruct Hh1 as (h1 & Hh1 & Hg1).
        destruct (Hp2 head h1 Hh1) as (h2 & Hh2' & _ & Hk2).
        destruct (Hp3 head h2 Hh2') as (h3 & Hh3 & _ & _ & Hj3).
        destruct Hh2 as (o2 & Ho2 & Hg2).
        destruct (Hp3 o o2 Ho2) as (o3 & Ho3 & _ & Hk3 & _).
        split.
        -- exists h3. split; [exact Hh3|]. rewrite Hj3 by lia.
           pose proof (Hk2 Next (compound_key i)
                         ltac:(right; left; congruence)) as E2.
           simpl in E2, Hg1. congruence.
        -- exists o3. split; [exact Ho3|]. auto.
      * replace (i + S j) with (S i + j) by lia. apply Hm3. exact Hj.
    + intros Hc Hh. apply Hc3; [|lia]. apply Hc2; [|lia]. apply Hc1; auto.
Qed.

(** A [cluster] call that returns an object. *)
Lemma cluster_Ok st objs ne nd ndir m ic st' h :
  cluster st objs ne nd ndir m ic = Ok (st', Some h) ->
  exists others hn hn',
    objs = h :: others /\ st !! h = Some hn /\ st' !! h = Some hn'
    /\ length st' = length st
    /\ structure hn' = structure hn
    /\ endpoints hn' = ne /\ endpoint_dims hn' = nd
    /\ endpoint_directions hn' = Some (default [] ndir)
    /\ compound hn' = compound hn ++ others
    /\ method hn' = m
    /\ (forall j o, others !! j = Some o ->
          Dict.get (compound_key j) (next hn') = Some o
          /\ exists on, st' !! o = Some on
                        /\ Dict.get (compound_key 0) (prev on) = Some h)
    /\ (forall o, o ∉ objs -> st' !! o = st !! o)
    /\ (closed st -> closed st').
Proof.
  unfold cluster. intros Hcl. inv_bind Hcl. destruct x; [discriminate|].
  destruct objs as [|head others]; [discriminate|].
  inv_bind Hcl. inv_bind Hcl. injection Hcl as <- <-.
  apply deref_Ok in Hx0.
  assert (Hh : head < length st) by (eapply lookup_lt_Some; eauto).
  destruct (cluster_links_spec _ _ _ _ _ Hx1)
    as (Hl & Hf & Hp & Hm & Hc).
  rewrite length_insert in Hl.
  match type of Hx1 with
  | cluster_links _ _ _ (<[head := ?v]> st) = _ => set (n0 := v) in *
  end.
  destruct (Hp head n0 ltac:(apply list_lookup_insert_eq; exact Hh))
    as (hn' & Hhn' & (Hs & He & Hd & Hdir & Hco & Hme) & _).
  exists others, x, hn'.
  split; [reflexivity|]. split; [exact Hx0|]. split; [exact Hhn'|].
  split; [exact Hl|]. split; [exact Hs|]. split; [exact He|].
  split; [exact Hd|]. split; [exact Hdir|]. split; [exact Hco|].
  split; [exact Hme|]. split; [|split].
  - intros j o Hj. destruct (Hm j o Hj) as [(hn2 & Hhn2 & Hg) Ho].
    split; [|exact Ho]. assert (hn2 = hn') by congruence. subst hn2.
    exact Hg.
  - intros o Hnin. rewrite Hf.
    + apply list_lookup_insert_ne. intros ->. apply Hnin.
      apply list_elem_of_here.
    + intros ->. apply Hnin. apply list_elem_of_here.
    + intros Hin. apply Hnin. apply list_elem_of_further. exact Hin.
  - intros Hcst. apply Hc; [|rewrite length_insert; exact Hh].
    unfold closed in *. rewrite Forall_lookup in *.
    intros i n Hi. rewrite length_insert.
    destruct (decide (i = head)) as [->|Hne].
    + rewrite list_lookup_insert_eq in Hi by exact Hh. injection Hi as <-.
      unfold n0. simpl. eauto.
    + rewrite list_lookup_insert_ne in Hi by congruence. eauto.
Qed.

(** X8. [cluster] refuses -- returns [False] -- exactly when overwriting is
    not allowed ([ignore_conflict] off) and one of the new port names is
    already a port of the first object of the list; and a refusing call
    has changed nothing in the store. *)
Theorem cluster_refuses_exactly_on_port_conflict
    (st st' : store) (objs : list nat) (ne : dict point)
    (nd : dict (option float)) (ndir : option (dict float))
    (m : option nat) (ic : bool) (r : option nat) :
  cluster st objs ne nd ndir m ic = Ok (st', r) ->
  (r = None <->
   ic = false
   /\ exists head rest n k,
        objs = head :: rest /\ st !! head = Some n
        /\ k ∈ Dict.keys ne /\ k ∈ Dict.keys (endpoints n))
  /\ (r = None -> st' = st).
Proof.
  unfold cluster. intros Hcl. inv_bind Hcl. rename x into c.
  destruct c.
  - injection Hcl as <- <-. split; [|reflexivity].
    split; [intros _|reflexivity].
    destruct ic; [discriminate|]. split; [reflexivity|].
    destruct ne as [|e ne']; [discriminate|].
    destruct objs as [|head rest]; [discriminate|].
    inv_bind Hx. apply deref_Ok in Hx0. injection Hx as Hx.
    match type of Hx with
    | _ || existsb ?f ?l = true =>
        change (existsb f (Dict.keys (e :: ne')) = true) in Hx
    end.
    apply existsb_exists in Hx. destruct Hx as (k & Hin & Hk).
    apply bool_decide_eq_true in Hk.
    exists head, rest, x, k. repeat split; auto.
    + apply list_elem_of_In. exact Hin.
    + destruct Hk as [v Hv]. eapply get_in_keys; eauto.
  - destruct objs as [|head rest]; [discriminate|].
    inv_bind Hcl. inv_bind Hcl. injection Hcl as <- <-.
    split; [|discriminate]. split; [discriminate|].
    intros (-> & head' & rest' & n & k & Ho & Hn & Hk & Hkn).
    injection Ho as <- <-. exfalso.
    destruct ne as [|e ne']; [inversion Hk|].
    unfold deref in Hx. rewrite Hn in Hx. simpl in Hx.
    injection Hx as Hx.
    assert (Ht : existsb
                   (fun i => bool_decide (is_Some (Dict.get i (endpoints n))))
                   (Dict.keys (e :: ne')) = true).
    { apply existsb_exists. exists k. split.
      - apply list_elem_of_In. exact Hk.
      - apply bool_decide_eq_true. apply in_keys_get. exact Hkn. }
    simpl in Ht, Hx. congruence.
Qed.

Lemma cluster_refuses_exactly_on_port_conflict_witness :
  cluster plain_pair [0; 1] [(KStr "A", (0, 0)%float)]
    [(KStr "A", None)] None None false = Ok (plain_pair, None)
  /\ (@None nat = None <->
      false = false
      /\ exists head rest n k,
           [0; 1] = head :: rest /\ plain_pair !! head = Some n
           /\ k ∈ Dict.keys [(KStr "A", (0, 0)%float)]
           /\ k ∈ Dict.keys (endpoints n))
  /\ (@None nat = None -> plain_pair = plain_pair).
Proof.
  split; [vm_compute; reflexivity|].
  apply (cluster_refuses_exactly_on_port_conflict plain_pair plain_pair
           [0; 1] [(KStr "A", (0, 0)%float)] [(KStr "A", None)]
           None None false None).
  vm_compute; reflexivity.
Defined.

(** X9. A [cluster] call that returns an object returns the first object
    of the list, with its shape kept, its ports, sizes, directions and
    builder replaced by the arguments (no directions given: an empty map)
    and the other objects appended to its children; for every position [j]
    the first object then holds the [j]-th other object as successor under
    [COMPOUND_j], and that object holds the first one as predecessor under
    [COMPOUND_0]; objects outside the list are untouched. *)
Theorem cluster_links_every_member
    (st st' : store) (objs : list nat) (ne : dict point)
    (nd : dict (option float)) (ndir : option (dict float))
    (m : option nat) (ic : bool) (h : nat) :
  cluster st objs ne nd ndir m ic = Ok (st', Some h) ->
  exists others hn hn',
    objs = h :: others /\ st !! h = Some hn /\ st' !! h = Some hn'
    /\ length st' = length st
    /\ structure hn' = structure hn
    /\ endpoints hn' = ne /\ endpoint_dims hn' = nd
    /\ endpoint_directions hn' = Some (default [] ndir)
    /\ compound hn' = compound hn ++ others
    /\ method hn' = m
    /\ (forall j o, others !! j = Some o ->
          Dict.get (compound_key j) (next hn') = Some o
          /\ exists on, st' !! o = Some on
                        /\ Dict.get (compound_key 0) (prev on) = Some h)
    /\ (forall o, o ∉ objs -> st' !! o = st !! o).
Proof.
  intros Hcl.
  destruct (cluster_Ok _ _ _ _ _ _ _ _ _ Hcl)
    as (others & hn & hn' & H1 & H2 & H3 & H4 & H5 & H6 & H7 & H8 & H9
        & H10 & H11 & H12 & _).
  exists others, hn, hn'. tauto.
Qed.

Lemma cluster_links_every_member_witness :
  cluster plain_pair [0; 1] [(KStr "IN", (0, 0)%float)]
    [(KStr "IN", None)] None None false = Ok (clustered_pair, Some 0)
  /\ exists others hn hn',
       [0; 1] = 0 :: others /\ plain_pair !! 0 = Some hn
       /\ clustered_pair !! 0 = Some hn'
       /\ length clustered_pair = length plain_pair
       /\ structure hn' = structure hn
       /\ endpoints hn' = [(KStr "IN", (0, 0)%float)]
       /\ endpoint_dims hn' = [(KStr "IN", None)]
       /\ endpoint_directions hn' = Some (default [] None)
       /\ compound hn' = compound hn ++ others
       /\ method hn' = None
       /\ (forall j o, others !! j = Some o ->
             Dict.get (compound_key j) (next hn') = Some o
             /\ exists on, clustered_pair !! o = Some on
                  /\ Dict.get (compound_key 0) (prev on) = Some 0)
       /\ (forall o, o ∉ [0; 1] -> clustered_pair !! o = plain_pair !! o).
Proof.
  split; [vm_compute; reflexivity|].
  apply (cluster_links_every_member plain_pair clustered_pair [0; 1]
           [(KStr "IN", (0, 0)%float)] [(KStr "IN", None)] None None
           false 0).
  vm_compute; reflexivity.
Defined.

(** X10. After a [cluster] call that returned an object, the members move
    as one: on a store whose links pointed into it, a [translate] started
    on any object of the list returns and moves every object of the list
    (each gets the same [translate(dx, dy)] call on its shape). *)
Theorem cluster_members_move_together
    (st st1 : store) (objs : list nat) (ne : dict point)
    (nd : dict (option float)) (ndir : option (dict float))
    (m : option nat) (ic : bool) (h a : nat) (delta : point) :
  closed st ->
  cluster st objs ne nd ndir m ic = Ok (st1, Some h) ->
  a ∈ objs ->
  exists st2,
    translate st1 a delta = Ok st2
    /\ forall o, o ∈ objs ->
         exists n1 n2,
           st1 !! o = Some n1 /\ st2 !! o = Some n2
           /\ structure n2
              = structure n1 ++ [GTranslate (fst delta) (snd delta)].
Proof.
  intros Hc Hcl Ha.
  destruct (cluster_Ok _ _ _ _ _ _ _ _ _ Hcl)
    as (others & hn & hn' & -> & _ & Hh & _ & _ & _ & _ & _ & _ & _
        & Hm & _ & Hc1).
  specialize (Hc1 Hc).
  assert (Hdown : forall o, o ∈ h :: others -> reachable st1 h o).
  { intros o Ho. apply elem_of_cons in Ho. destruct Ho as [->|Ho].
    - apply rtc_refl.
    - apply list_elem_of_lookup_1 in Ho. destruct Ho as [j Hj].
      destruct (Hm j o Hj) as [Hg _].
      apply rtc_once. exists hn', Next, (compound_key j). auto. }
  assert (Hup : forall o, o ∈ h :: others -> reachable st1 o h).
  { intros o Ho. apply elem_of_cons in Ho. destruct Ho as [->|Ho].
    - apply rtc_refl.
    - apply list_elem_of_lookup_1 in Ho. destruct Ho as [j Hj].
      destruct (Hm j o Hj) as [_ (on & Hon & Hg)].
      apply rtc_once. exists on, Prev, (compound_key 0). auto. }
  assert (Hin : forall o, o ∈ h :: others -> is_Some (st1 !! o)).
  { intros o Ho. apply elem_of_cons in Ho. destruct Ho as [->|Ho]; [eauto|].
    apply list_elem_of_lookup_1 in Ho. destruct Ho as [j Hj].
    destruct (Hm j o Hj) as [_ (on & Hon & _)]. eauto. }
  destruct (Hin a Ha) as [na Hna].
  destruct (translate_acts st1 a delta Hc1
              ltac:(eapply lookup_lt_Some; eauto))
    as (st2 & Ht & _ & _ & Hact).
  exists st2. split; [exact Ht|]. intros o Ho.
  destruct (Hin o Ho) as [n1 Hn1].
  destruct (Hact o n1 Hn1) as (n2 & Hn2 & Hr & _).
  exists n1, n2. split; [exact Hn1|]. split; [exact Hn2|].
  assert (Hreach : reachable st1 a o).
  { unfold reachable. etransitivity; [apply Hup|apply Hdown]; auto. }
  apply Hr in Hreach. apply translate_body_spec in Hreach. tauto.
Qed.

Lemma cluster_members_move_together_witness :
  closed plain_pair
  /\ cluster plain_pair [0; 1] [(KStr "IN", (0, 0)%float)]
       [(KStr "IN", None)] None None false = Ok (clustered_pair, Some 0)
  /\ 1 ∈ [0; 1]
  /\ exists st2,
       translate clustered_pair 1 (1, 2)%float = Ok st2
       /\ forall o, o ∈ [0; 1] ->
            exists n1 n2,
              clustered_pair !! o = Some n1 /\ st2 !! o = Some n2
              /\ structure n2
                 = structure n1 ++ [GTranslate (fst (1, 2)%float)
                                      (snd (1, 2)%float)].
Proof.
  assert (Hc : closed plain_pair)
    by (repeat (constructor; simpl; try lia)).
  assert (Hin : 1 ∈ [0; 1])
    by (apply list_elem_of_further, list_elem_of_here).
  split; [exact Hc|]. split; [vm_compute; reflexivity|].
  split; [exact Hin|].
  apply (cluster_members_move_together plain_pair clustered_pair [0; 1]
           [(KStr "IN", (0, 0)%float)] [(KStr "IN", None)] None None
           false 0 1 (1, 2)%float Hc); [vm_compute; reflexivity|exact Hin].
Defined.

(** ** router: what a found route looks like *)

Lemma py_nth_elem {A} (l : list A) (i : Z) (x : A) :
  py_nth l i = Ok x -> x ∈ l.
Proof.
  unfold py_nth. intros Hn.
  destruct (_ && _); [|destruct (_ && _); [|discriminate]];
    apply lift_Ok in Hn; eapply list_elem_of_lookup_2; eauto.
Qed.

(** The backtrace only appends grid points to the path it was given. *)
Lemma backtrace_extends n :
  forall k p labels lxr lp sp pref switched this_index acc tr,
    backtrace n k p labels lxr lp sp pref switched this_index acc = Ok tr ->
    exists more, tr = acc ++ more /\ Forall (fun c => c ∈ p) more.
Proof.
  induction n as [|n IH]; simpl;
    intros k p labels lxr lp sp pref switched this_index acc tr Hb.
  - injection Hb as <-. exists []. rewrite app_nil_r. auto.
  - inv_bind Hb. destruct x as [nb|].
    + inv_bind Hb. apply IH in Hb. destruct Hb as (more & -> & Hm).
      exists (x :: more). rewrite <- app_assoc. split; [reflexivity|].
      constructor; [eapply py_nth_elem; eauto|exact Hm].
    + apply IH in Hb. exact Hb.
Qed.

Lemma route_setup_ports st a su :
  route_setup st a = Ok su ->
  exists f t,
    st !! fr_str a = Some f /\ st !! to_str a = Some t
    /\ Dict.get (fr_ep a) (endpoints f) = Some (s_fr su)
    /\ Dict.get (to_ep a) (endpoints t) = Some (s_to su)
    /\ s_p su = grid (xr a) (yr a).
Proof.
  unfold route_setup. intros Hs.
  inv_bind Hs. inv_bind Hs. inv_bind Hs. inv_bind Hs. inv_bind Hs.
  inv_bind Hs. inv_bind Hs. injection Hs as <-.
  apply deref_Ok in Hx, Hx1. apply lift_Ok in Hx0, Hx2.
  exists x, x1. simpl. auto.
Qed.

Lemma route_widths_ends st a n ws :
  route_widths st a n = Ok ws ->
  if uniform_width a then ws = inr (r_width a)
  else exists f t fr_w to_w l,
      st !! fr_str a = Some f /\ st !! to_str a = Some t
      /\ Dict.get (fr_ep a) (endpoint_dims f) = Some fr_w
      /\ Dict.get (to_ep a) (endpoint_dims t) = Some to_w
      /\ ws = inl l
      /\ head l = Some (default (r_width a) to_w)
      /\ last l = Some (default (r_width a) fr_w)
      /\ length l = Nat.max n 4.
Proof.
  unfold route_widths. destruct (uniform_width a); simpl; intros Hw.
  - congruence.
  - inv_bind Hw. inv_bind Hw. inv_bind Hw. inv_bind Hw. injection Hw as <-.
    apply deref_Ok in Hx, Hx1. apply lift_Ok in Hx0, Hx2.
    exists x1, x, x2, x0. eexists.
    split; [exact Hx1|]. split; [exact Hx|]. split; [exact Hx2|].
    split; [exact Hx0|]. split; [reflexivity|]. split; [reflexivity|].
    split.
    + set (b := default (r_width a) x2). rewrite !app_comm_cons.
      change [b; b] with ([b] ++ [b]). rewrite app_assoc.
      apply last_snoc.
    + simpl. rewrite length_app, length_replicate. simpl. lia.
Qed.

(** A [router] call that returns a route. *)
Lemma router_Ok (st st' : store) (a : route_args) (s : nat) :
  router st a = Ok (st', Routed s) ->
  exists f t fr to r mid,
    st !! fr_str a = Some f /\ st !! to_str a = Some t
    /\ Dict.get (fr_ep a) (endpoints f) = Some fr
    /\ Dict.get (to_ep a) (endpoints t) = Some to
    /\ s = length st /\ length st' = S (length st)
    /\ st' !! s = Some r
    /\ (exists ws, structure r = [GPolyPath (to :: mid ++ [fr]) ws]
                   \/ structure r = [GFlexPath (to :: mid ++ [fr]) ws])
    /\ mid <> [] /\ Forall (fun c => c ∈ grid (xr a) (yr a)) mid
    /\ endpoints r = [(KStr "A", to); (KStr "B", fr)]
    /\ (if uniform_width a
        then endpoint_dims r
             = [(KStr "A", Some (r_width a)); (KStr "B", Some (r_width a))]
        else exists to_w fr_w,
            Dict.get (to_ep a) (endpoint_dims t) = Some to_w
            /\ Dict.get (fr_ep a) (endpoint_dims f) = Some fr_w
            /\ endpoint_dims r
               = [(KStr "A", Some (default (r_width a) to_w));
                  (KStr "B", Some (default (r_width a) fr_w))])
    /\ prev r = [(KStr "AUTOROUTE_A", fr_str a);
                 (KStr "AUTOROUTE_B", to_str a)]
    /\ next r = [] /\ compound r = []
    /\ (exists fn, st' !! fr_str a = Some fn /\ same_payload f fn
          /\ Dict.get (KStr "AUTOROUTE_A") (next fn) = Some s)
    /\ (exists tn, st' !! to_str a = Some tn /\ same_payload t tn
          /\ Dict.get (KStr "AUTOROUTE_B") (next tn) = Some s)
    /\ (forall o, o <> fr_str a -> o <> to_str a -> o < length st ->
          st' !! o = st !! o)
    /\ (closed st -> closed st').
Proof.
  unfold router. intros Hr. inv_bind Hr. rename x into su, Hx into Hsu.
  destruct (route_wave a su) as [[k w]|]; [|discriminate].
  destruct (negb (path_found w)); [discriminate|].
  inv_bind Hr. rename x into final, Hx into Hfinal.
  inv_bind Hr. rename x into c, Hx into Hc.
  inv_bind Hr. rename x into trace, Hx into Htrace.
  inv_bind Hr. rename x into ws, Hx into Hws.
  inv_bind Hr. rename x into r, Hx into Hshape.
  inv_bind Hr. rename x into e_b, Hx into Hlast.
  inv_bind Hr. rename x into st2, Hx into Hl1.
  inv_bind Hr. rename x into st3, Hx into Hl2.
  inv_bind Hr. rename x into st4, Hx into Hl3.
  inv_bind Hr. rename x into st5, Hx into Hl4.
  injection Hr as <- <-.
  destruct (route_setup_ports _ _ _ Hsu)
    as (f & t & Hf & Ht & Hfr & Hto & Hp).
  apply backtrace_extends in Htrace.
  destruct Htrace as (more & -> & Hmore).
  apply lift_Ok in Hlast. rewrite last_snoc in Hlast.
  injection Hlast as <-.
  assert (Hflt : fr_str a < length st) by (eapply lookup_lt_Some; eauto).
  assert (Htlt : to_str a < length st) by (eapply lookup_lt_Some; eauto).
  match type of Hl1 with
  | link (st ++ [?v]) _ _ _ _ = _ => set (n0 := v) in *
  end.
  set (st1 := st ++ [n0]) in *.
  assert (Hs1 : st1 !! length st = Some n0)
    by (apply list_lookup_middle; reflexivity).
  assert (Hold : forall o, o < length st -> st1 !! o = st !! o)
    by (intros o Ho; apply lookup_app_l; exact Ho).
  destruct (link_spec _ _ _ _ _ _ Hl1) as (Hn1 & Hg1 & Hf1 & Hp1 & Hc1).
  destruct (link_spec _ _ _ _ _ _ Hl2) as (Hn2 & Hg2 & Hf2 & Hp2 & Hc2).
  destruct (link_spec _ _ _ _ _ _ Hl3) as (Hn3 & _ & Hf3 & _ & Hc3).
  destruct (link_spec _ _ _ _ _ _ Hl4) as (Hn4 & _ & Hf4 & _ & Hc4).
  assert (Hs3 : st3 !! length st = Some n0).
  { rewrite Hf2, Hf1 by lia. exact Hs1. }
  apply link_Ok in Hl3. destruct Hl3 as (na & Hna & ->).
  assert (na = n0) by congruence. subst na.
  apply link_Ok in Hl4. destruct Hl4 as (nb & Hnb & ->).
  rewrite list_lookup_insert_eq in Hnb
    by (eapply lookup_lt_Some; exact Hs3).
  injection Hnb as <-.
  assert (Hlen1 : length st1 = S (length st)).
  { unfold st1. rewrite length_app. simpl. lia. }
  exists f, t, (s_fr su), (s_to su).
  eexists. exists (c :: more).
  split; [exact Hf|]. split; [exact Ht|]. split; [exact Hfr|].
  split; [exact Hto|]. split; [reflexivity|].
  split; [rewrite !length_insert; lia|].
  split; [apply list_lookup_insert_eq; rewrite length_insert; lia|].
  split; [|split; [discriminate|split; [|split; [reflexivity|split]]]].
  - exists ws. simpl.
    replace (s_to su :: (c :: more) ++ [s_fr su])
      with (([s_to su; c] ++ more) ++ [s_fr su]) by reflexivity.
    destruct (String.eqb (pathmethod a) "poly").
    + injection Hshape as <-. left. reflexivity.
    + destruct (String.eqb (pathmethod a) "flex"); [|discriminate].
      injection Hshape as <-. right. reflexivity.
  - rewrite <- Hp. constructor; [eapply py_nth_elem; eauto|exact Hmore].
  - apply route_widths_ends in Hws. simpl.
    destruct (uniform_width a).
    + subst ws. reflexivity.
    + destruct Hws as (f' & t' & fr_w & to_w & l & Hf' & Ht' & Hfw & Htw
                       & -> & Hhd & Hla & _).
      assert (f' = f) by congruence. assert (t' = t) by congruence.
      subst f' t'. exists to_w, fr_w. rewrite Hhd, Hla. auto.
  - split; [reflexivity|]. split; [reflexivity|]. split; [reflexivity|].
    split; [|split; [|split]].
    + destruct Hg1 as (f1 & Hf1' & Hgf1).
      destruct (Hp1 (fr_str a) f ltac:(rewrite Hold by lia; exact Hf))
        as (f1' & Hf1'' & Hpay1 & _).
      assert (f1' = f1) by congruence. subst f1'.
      destruct (Hp2 (fr_str a) f1 Hf1') as (f2 & Hf2' & Hpay2 & Hk2).
      exists f2. split.
      * rewrite !list_lookup_insert_ne by lia. exact Hf2'.
      * split; [eapply same_payload_trans; eauto|].
        pose proof (Hk2 Next (KStr "AUTOROUTE_A")
                      ltac:(right; right; discriminate)) as E.
        simpl in E, Hgf1. congruence.
    + destruct Hg2 as (t2 & Ht2 & Hgt2).
      destruct (Hp1 (to_str a) t ltac:(rewrite Hold by lia; exact Ht))
        as (t1 & Ht1 & Hpay1 & _).
      destruct (Hp2 (to_str a) t1 Ht1) as (t2' & Ht2' & Hpay2 & _).
      assert (t2' = t2) by congruence. subst t2'.
      exists t2. split.
      * rewrite !list_lookup_insert_ne by lia. exact Ht2.
      * split; [eapply same_payload_trans; eauto|exact Hgt2].
    + intros o Hof Hot Ho.
      rewrite !list_lookup_insert_ne by lia.
      rewrite Hf2, Hf1 by congruence. apply Hold. exact Ho.
    + intros Hcl. apply Hc4; [|lia]. apply Hc3; [|lia].
      apply Hc2; [|lia]. apply Hc1; [|lia].
      unfold closed, st1 in *. rewrite Forall_app. split.
      * eapply Forall_impl; [exact Hcl|]. rewrite length_app. simpl.
        intros n [Hp' Hn']. split.
        -- eapply Forall_impl; [exact Hp'|]. simpl. intros; lia.
        -- eapply Forall_impl; [exact Hn'|]. simpl. intros; lia.
      * constructor; [|constructor]. simpl. split; constructor.
Qed.



(** The open 3 x 2 grid after routing: the route is object 2. *)
Definition wrap_routed : store :=
  [ mkGDS [GShape 0] [(KStr "A", (2, 1)%float)] [(KStr "A", Some 1%float)]
      None [] [] [(KStr "AUTOROUTE_A", 2)] None;
    mkGDS [GShape 0] [(KStr "A", (1, 0)%float)] [(KStr "A", Some 1%float)]
      None [] [] [(KStr "AUTOROUTE_B", 2)] None;
    mkGDS
      [GPolyPath [(1, 0); (1, 0); (1, 1); (2, 1)]%float
         (inl [1; 1; 1; 1]%float)]
      [(KStr "A", (1, 0)%float); (KStr "B", (2, 1)%float)]
      [(KStr "A", Some 1%float); (KStr "B", Some 1%float)]
      None [] [(KStr "AUTOROUTE_A", 0); (KStr "AUTOROUTE_B", 1)] [] None ].






(** X13. A found route welds its two end objects into one linked group:
    after a [router] call that returned a route (on a store whose links
    pointed into it), a [translate] started on the [fr] object, on the [to]
    object or on the route returns and moves all three, each by the same
    [translate(dx, dy)] call on its shape. *)
Theorem routed_ends_move_together
    (st st1 : store) (a : route_args) (s start : nat) (delta : point) :
  closed st ->
  router st a = Ok (st1, Routed s) ->
  start ∈ [fr_str a; to_str a; s] ->
  exists st2,
    translate st1 start delta = Ok st2
    /\ forall o, o ∈ [fr_str a; to_str a; s] ->
         exists n1 n2,
           st1 !! o = Some n1 /\ st2 !! o = Some n2
           /\ structure n2
              = structure n1 ++ [GTranslate (fst delta) (snd delta)].
Proof.
  intros Hc Hr Hstart.
  destruct (router_Ok _ _ _ _ Hr)
    as (f & t & fr & to & r & mid & _ & _ & _ & _ & _ & _ & Hs & _ & _ & _
        & _ & _ & Hprev & _ & _ & (fn & Hfn & _ & Hgf)
        & (tn & Htn & _ & Hgt) & _ & Hc1).
  specialize (Hc1 Hc).
  assert (Hdown : forall o, o ∈ [fr_str a; to_str a; s] ->
                            reachable st1 s o).
  { intros o Ho. repeat (apply elem_of_cons in Ho; destruct Ho as [->|Ho]);
      [| |apply rtc_refl|inversion Ho].
    - apply rtc_once. exists r, Prev, (KStr "AUTOROUTE_A").
      split; [exact Hs|]. simpl. rewrite Hprev. reflexivity.
    - apply rtc_once. exists r, Prev, (KStr "AUTOROUTE_B").
      split; [exact Hs|]. simpl. rewrite Hprev. reflexivity. }
  assert (Hup : forall o, o ∈ [fr_str a; to_str a; s] ->
                          reachable st1 o s).
  { intros o Ho. repeat (apply elem_of_cons in Ho; destruct Ho as [->|Ho]);
      [| |apply rtc_refl|inversion Ho].
    - apply rtc_once. exists fn, Next, (KStr "AUTOROUTE_A"). auto.
    - apply rtc_once. exists tn, Next, (KStr "AUTOROUTE_B"). auto. }
  assert (Hin : forall o, o ∈ [fr_str a; to_str a; s] ->
                          is_Some (st1 !! o)).
  { intros o Ho. repeat (apply elem_of_cons in Ho; destruct Ho as [->|Ho]);
      [eauto|eauto|eauto|inversion Ho]. }
  destruct (Hin start Hstart) as [na Hna].
  destruct (translate_acts st1 start delta Hc1
              ltac:(eapply lookup_lt_Some; eauto))
    as (st2 & Ht & _ & _ & Hact).
  exists st2. split; [exact Ht|]. intros o Ho.
  destruct (Hin o Ho) as [n1 Hn1].
  destruct (Hact o n1 Hn1) as (n2 & Hn2 & Hreach & _).
  exists n1, n2. split; [exact Hn1|]. split; [exact Hn2|].
  assert (Hso : reachable st1 start o).
  { unfold reachable. etransitivity; [apply Hup|apply Hdown]; auto. }
  apply Hreach in Hso. apply translate_body_spec in Hso. tauto.
Qed.

Lemma routed_ends_move_together_witness :
  closed wrap_store
  /\ router wrap_store wrap_args = Ok (wrap_routed, Routed 2)
  /\ 0 ∈ [fr_str wrap_args; to_str wrap_args; 2]
  /\ exists st2,
       translate wrap_routed 0 (1, 2)%float = Ok st2
       /\ forall o, o ∈ [fr_str wrap_args; to_str wrap_args; 2] ->
            exists n1 n2,
              wrap_routed !! o = Some n1 /\ st2 !! o = Some n2
              /\ structure n2
                 = structure n1 ++ [GTranslate (fst (1, 2)%float)
                                      (snd (1, 2)%float)].
Proof.
  assert (Hc : closed wrap_store)
    by (repeat (constructor; simpl; try lia)).
  assert (Hin : 0 ∈ [fr_str wrap_args; to_str wrap_args; 2])
    by (apply list_elem_of_here).
  split; [exact Hc|]. split; [vm_compute; reflexivity|].
  split; [exact Hin|].
  apply (routed_ends_move_together wrap_store wrap_routed wrap_args 2 0
           (1, 2)%float Hc); [vm_compute; reflexivity|exact Hin].
Defined.

(** ** The wave: what the labels mean *)

Lemma argwhere_eq_range d m :
  forall i e, e ∈ argwhere_eq d m i ->
    (i <= e < i + Z.of_nat (length d))%Z.
Proof.
  induction d as [|x d IH]; simpl; intros i e He; [inversion He|].
  destruct (x =? m)%float.
  - apply elem_of_cons in He. destruct He as [->|He]; [lia|].
    apply IH in He. lia.
  - apply IH in He. lia.
Qed.

Lemma nearest_range p inside port l :
  nearest p inside port = Ok l ->
  forall e, e ∈ l -> (0 <= e < Z.of_nat (length p))%Z.
Proof.
  unfold nearest. intros Hn. inv_bind Hn. injection Hn as <-.
  intros e He. apply argwhere_eq_range in He.
  rewrite length_map in He. lia.
Qed.

Section WaveSound.
Variables (inside : list bool) (end_i : list Z) (lxr lp : Z).
Hypothesis end_in_range : forall e, e ∈ end_i -> (0 <= e < lp)%Z.

(** What holds of the wave state while step [k] is being labelled: the
    label list has the grid size; a found target is the recorded final
    index and carries the label [k]; and an obstacle point outside the
    target set carries no step number. *)
Definition sound (k : Z) (w : wave) : Prop :=
  Z.of_nat (length (p_g w)) = lp
  /\ (path_found w = true ->
      (1 <= k)%Z
      /\ exists fi, final_index w = Some fi /\ fi ∈ end_i
                    /\ p_g w !! Z.to_nat fi = Some k)
  /\ (forall j, inside !! j = Some true -> Z.of_nat j ∉ end_i ->
        j < length (p_g w) ->
        p_g w !! j = Some 0%Z \/ p_g w !! j = Some (-1)%Z).

Lemma visit_sound k i w nb :
  (1 <= k)%Z -> sound k w ->
  sound k (fst (visit inside end_i lxr lp k i w nb)).
Proof.
  intros Hk Hw. pose proof Hw as (Hlen & Hfound & Hobst). unfold visit.
  destruct (bool_decide (nb ∈ end_i)) eqn:Hend; simpl.
  { apply bool_decide_eq_true in Hend.
    pose proof (end_in_range nb Hend) as Hr.
    split; [|split]; simpl.
    - rewrite length_insert. exact Hlen.
    - intros _. split; [exact Hk|]. exists nb.
      split; [reflexivity|]. split; [exact Hend|].
      apply list_lookup_insert_eq. lia.
    - intros j Hj Hne Hlt. rewrite length_insert in Hlt.
      rewrite list_lookup_insert_ne; [auto|].
      intros Heq. apply Hne. subst j. rewrite Z2Nat.id by lia. exact Hend. }
  destruct ((nb <? 0)%Z) eqn:H0; simpl; [exact Hw|].
  destruct ((nb >=? lp)%Z) eqn:H1; simpl; [exact Hw|].
  destruct ((label (p_g w) nb =? 0)%Z) eqn:H2; simpl; [|exact Hw].
  destruct (_ || _); simpl; [exact Hw|].
  apply Z.ltb_ge in H0. rewrite Z.geb_leb in H1. apply Z.leb_gt in H1.
  assert (Hz : p_g w !! Z.to_nat nb = Some 0%Z).
  { unfold label in H2.
    destruct (p_g w !! Z.to_nat nb) as [z|] eqn:Hz.
    - simpl in H2. apply Z.eqb_eq in H2. congruence.
    - apply lookup_ge_None in Hz. lia. }
  assert (Hkeep : forall v,
             path_found w = true ->
             (1 <= k)%Z
             /\ exists fi, final_index w = Some fi /\ fi ∈ end_i
                  /\ <[Z.to_nat nb := v]> (p_g w) !! Z.to_nat fi = Some k).
  { intros v Hp. destruct (Hfound Hp) as (Hk' & fi & Hfi & Hin & Hl).
    split; [exact Hk'|]. exists fi. split; [exact Hfi|].
    split; [exact Hin|]. rewrite list_lookup_insert_ne; [exact Hl|].
    intros Heq. rewrite Heq in Hz. assert (k = 0%Z) by congruence. lia. }
  destruct (default false (inside !! Z.to_nat nb)) eqn:Hins; simpl.
  - split; [|split]; simpl.
    + rewrite length_insert. exact Hlen.
    + apply Hkeep.
    + intros j Hj Hne Hlt. rewrite length_insert in Hlt.
      destruct (decide (Z.to_nat nb = j)) as [<-|Hnj].
      * right. apply list_lookup_insert_eq. exact Hlt.
      * rewrite list_lookup_insert_ne by exact Hnj. auto.
  - split; [|split]; simpl.
    + rewrite length_insert. exact Hlen.
    + apply Hkeep.
    + intros j Hj Hne Hlt. rewrite length_insert in Hlt.
      rewrite list_lookup_insert_ne; [auto|].
      intros Heq. subst j. rewrite Hj in Hins. discriminate.
Qed.

Lemma visit_all_sound k i ns :
  (1 <= k)%Z ->
  forall w, sound k w -> sound k (visit_all inside end_i lxr lp k i ns w).
Proof.
  intros Hk. induction ns as [|nb ns IH]; intros w Hw; simpl; [exact Hw|].
  pose proof (visit_sound k i w nb Hk Hw) as Hv.
  destruct (visit inside end_i lxr lp k i w nb) as [w' brk]. simpl in Hv.
  destruct brk; auto.
Qed.

Lemma sweep_sound pref k start_i :
  (1 <= k)%Z ->
  forall w, sound k w -> sound k (sweep inside end_i lxr lp pref k start_i w).
Proof.
  intros Hk. unfold sweep.
  induction start_i as [|i l IH]; intros w Hw; simpl; [exact Hw|].
  apply IH. apply visit_all_sound; auto.
Qed.

Lemma wave_loop_sound pref fuel :
  forall k start_i w k' w',
    (0 <= k)%Z -> sound k w ->
    wave_loop fuel inside end_i lxr lp pref k start_i w = Some (k', w') ->
    (0 <= k')%Z /\ sound k' w'.
Proof.
  induction fuel as [|fuel IH]; intros k start_i w k' w' Hk Hw Hl;
    [discriminate|].
  simpl in Hl.
  destruct (negb (path_found w) && nonempty start_i) eqn:Hc.
  - apply andb_prop in Hc. destruct Hc as [Hnf _].
    apply negb_true_iff in Hnf.
    apply IH in Hl; [exact Hl|lia|].
    apply sweep_sound; [lia|].
    destruct Hw as (Hlen & _ & Hobst).
    split; [exact Hlen|]. split; [simpl; congruence|exact Hobst].
  - injection Hl as <- <-. split; [exact Hk|].
    destruct Hw as (Hlen & Hfound & Hobst).
    split; [exact Hlen|]. split; [exact Hfound|exact Hobst].
Qed.

End WaveSound.

Lemma propagate_wave_sound inside end_i lxr pref start_i k w :
  (forall e, e ∈ end_i -> (0 <= e < Z.of_nat (length inside))%Z) ->
  propagate_wave inside end_i lxr pref start_i = Some (k, w) ->
  sound inside end_i (Z.of_nat (length inside)) k w.
Proof.
  intros Hend Hw. unfold propagate_wave in Hw.
  eapply wave_loop_sound in Hw; [apply Hw|exact Hend|lia|].
  split; [|split]; simpl.
  - rewrite length_replicate. reflexivity.
  - discriminate.
  - intros j _ _ Hlt. rewrite length_replicate in Hlt. left.
    apply lookup_replicate_2. exact Hlt.
Qed.

Lemma route_setup_shape st a su :
  route_setup st a = Ok su ->
  length (s_inside su) = length (s_p su)
  /\ s_p su = grid (xr a) (yr a)
  /\ (forall e, e ∈ s_end_i su ->
        (0 <= e < Z.of_nat (length (s_inside su)))%Z)
  /\ (forall e, e ∈ s_start_i su ->
        (0 <= e < Z.of_nat (length (s_inside su)))%Z).
Proof.
  unfold route_setup. intros Hs.
  inv_bind Hs. inv_bind Hs. inv_bind Hs. inv_bind Hs. inv_bind Hs.
  inv_bind Hs. inv_bind Hs. injection Hs as <-. simpl.
  assert (Hlen : length x3 = length (grid (xr a) (yr a))).
  { destruct (String.eqb (detect a) "native").
    - injection Hx3 as <-. apply length_map.
    - destruct (String.eqb (detect a) "custom"); [|discriminate].
      injection Hx3 as <-. apply length_map. }
  split; [exact Hlen|]. split; [reflexivity|]. rewrite Hlen.
  split; eapply nearest_range; eauto.
Qed.

(** X14. The wave never steps onto an obstacle: when the search of
    [router] stops, a grid point that is inside a structure and is not one
    of the target points carries no step number -- its label is [0] (never
    looked at) or [-1] (seen and rejected). *)
Theorem wave_labels_no_obstacle_point
    (st : store) (a : route_args) (su : setup) (k : Z) (w : wave) (j : nat) :
  route_setup st a = Ok su ->
  route_wave a su = Some (k, w) ->
  s_inside su !! j = Some true -> Z.of_nat j ∉ s_end_i su ->
  p_g w !! j = Some 0%Z \/ p_g w !! j = Some (-1)%Z.
Proof.
  intros Hsu Hw Hj Hne.
  destruct (route_setup_shape _ _ _ Hsu) as (_ & _ & Hend & _).
  unfold route_wave in Hw.
  apply propagate_wave_sound in Hw; [|exact Hend].
  destruct Hw as (Hlen & _ & Hobst). apply Hobst; auto.
  apply lookup_lt_Some in Hj. lia.
Qed.

Lemma wave_labels_no_obstacle_point_witness :
  route_setup slab_store slab_args
  = Ok (mkSetup (1, 0)%float (5, 0)%float
          [(0, 0); (2, 0); (4, 0); (6, 0)]%float
          [true; false; false; false] [0; 1]%Z [2; 3]%Z)
  /\ route_wave slab_args
       (mkSetup (1, 0)%float (5, 0)%float
          [(0, 0); (2, 0); (4, 0); (6, 0)]%float
          [true; false; false; false] [0; 1]%Z [2; 3]%Z)
     = Some (1%Z, mkWave [0; 0; 1; 0]%Z [] true (Some 2%Z))
  /\ [true; false; false; false] !! 0 = Some true
  /\ (Z.of_nat 0 ∉ [2; 3]%Z)
  /\ ([0; 0; 1; 0]%Z !! 0 = Some 0%Z \/ [0; 0; 1; 0]%Z !! 0 = Some (-1)%Z).
Proof.
  assert (Hne : Z.of_nat 0 ∉ [2; 3]%Z).
  { intros Hin. repeat (apply elem_of_cons in Hin;
                        destruct Hin as [Hin|Hin]; [discriminate|]).
    inversion Hin. }
  split; [vm_compute; reflexivity|]. split; [vm_compute; reflexivity|].
  split; [reflexivity|]. split; [exact Hne|].
  apply (wave_labels_no_obstacle_point slab_store slab_args
           (mkSetup (1, 0)%float (5, 0)%float
              [(0, 0); (2, 0); (4, 0); (6, 0)]%float
              [true; false; false; false] [0; 1]%Z [2; 3]%Z)
           1%Z (mkWave [0; 0; 1; 0]%Z [] true (Some 2%Z)) 0);
    [vm_compute; reflexivity|vm_compute; reflexivity|reflexivity|exact Hne].
Defined.

(** X15. When the search of [router] reports a path, the recorded final
    index is one of the target points, lies on the grid, and carries the
    number of the last step, which is at least 1. *)
Theorem wave_found_path_ends_on_target
    (st : store) (a : route_args) (su : setup) (k : Z) (w : wave) :
  route_setup st a = Ok su ->
  route_wave a su = Some (k, w) ->
  path_found w = true ->
  (1 <= k)%Z
  /\ exists fi,
       final_index w = Some fi /\ fi ∈ s_end_i su
       /\ (0 <= fi < Z.of_nat (length (grid (xr a) (yr a))))%Z
       /\ p_g w !! Z.to_nat fi = Some k.
Proof.
  intros Hsu Hw Hp.
  destruct (route_setup_shape _ _ _ Hsu) as (Hlen & Hgrid & Hend & _).
  unfold route_wave in Hw.
  apply propagate_wave_sound in Hw; [|exact Hend].
  destruct Hw as (_ & Hfound & _).
  destruct (Hfound Hp) as (Hk & fi & Hfi & Hin & Hl).
  split; [exact Hk|]. exists fi. split; [exact Hfi|]. split; [exact Hin|].
  split; [|exact Hl]. rewrite <- Hgrid, <- Hlen. apply Hend. exact Hin.
Qed.

Lemma wave_found_path_ends_on_target_witness :
  route_setup slab_store slab_args
  = Ok (mkSetup (1, 0)%float (5, 0)%float
          [(0, 0); (2, 0); (4, 0); (6, 0)]%float
          [true; false; false; false] [0; 1]%Z [2; 3]%Z)
  /\ route_wave slab_args
       (mkSetup (1, 0)%float (5, 0)%float
          [(0, 0); (2, 0); (4, 0); (6, 0)]%float
          [true; false; false; false] [0; 1]%Z [2; 3]%Z)
     = Some (1%Z, mkWave [0; 0; 1; 0]%Z [] true (Some 2%Z))
  /\ (1 <= 1)%Z
  /\ exists fi,
       Some 2%Z = Some fi /\ fi ∈ [2; 3]%Z
       /\ (0 <= fi < Z.of_nat (length (grid (xr slab_args) (yr slab_args))))%Z
       /\ [0; 0; 1; 0]%Z !! Z.to_nat fi = Some 1%Z.
Proof.
  split; [vm_compute; reflexivity|]. split; [vm_compute; reflexivity|].
  apply (wave_found_path_ends_on_target slab_store slab_args
           (mkSetup (1, 0)%float (5, 0)%float
              [(0, 0); (2, 0); (4, 0); (6, 0)]%float
              [true; false; false; false] [0; 1]%Z [2; 3]%Z)
           1%Z (mkWave [0; 0; 1; 0]%Z [] true (Some 2%Z)));
    [vm_compute; reflexivity|vm_compute; reflexivity|reflexivity].
Defined.

(** ** router on a grid of one row *)

Lemma py_nth_wraps {A} (l : list A) (i : Z) (x : A) :
  (0 <= i < Z.of_nat (length l))%Z -> l !! Z.to_nat i = Some x ->
  py_nth l (i - Z.of_nat (length l)) = Ok x.
Proof.
  intros Hi Hx. unfold py_nth.
  replace ((0 <=? i - Z.of_nat (length l))%Z) with false
    by (symmetry; apply Z.leb_gt; lia).
  simpl.
  replace ((- Z.of_nat (length l) <=? i - Z.of_nat (length l))%Z) with true
    by (symmetry; apply Z.leb_le; lia).
  replace ((i - Z.of_nat (length l) <? 0)%Z) with true
    by (symmetry; apply Z.ltb_lt; lia).
  simpl. replace (Z.of_nat (length l) + (i - Z.of_nat (length l)))%Z
    with i by lia.
  rewrite Hx. reflexivity.
Qed.

Lemma py_nth_below {A} (l : list A) (i : Z) :
  (i < - Z.of_nat (length l))%Z -> py_nth l i = Raise IndexError.
Proof.
  intros Hi. unfold py_nth.
  replace ((0 <=? i))%Z with false by (symmetry; apply Z.leb_gt; lia).
  simpl.
  replace ((- Z.of_nat (length l) <=? i))%Z with false
    by (symmetry; apply Z.leb_gt; lia).
  reflexivity.
Qed.

(** With the default preference the first neighbour looked at is the one a
    row up. *)
Lemma lookaround_first index row_len pref :
  String.eqb pref "x" = false ->
  exists rest, lookaround index row_len pref = (index - row_len)%Z :: rest.
Proof.
  intros Hp. unfold lookaround. rewrite Hp. simpl. eauto.
Qed.

(** From a labelled final index on a grid of one row, the backtrace wraps
    to the negative index of the same point and then leaves the list. *)
Lemma backtrace_single_row m k (p : list point) labels pref fi acc :
  Z.of_nat (S m) = k ->
  length labels = length p ->
  (0 <= fi < Z.of_nat (length p))%Z ->
  labels !! Z.to_nat fi = Some k ->
  String.eqb pref "x" = false ->
  backtrace (S (S m)) k p labels (Z.of_nat (length p))
    (Z.of_nat (length p)) None pref false fi acc
  = Raise IndexError.
Proof.
  intros Hk Hlen Hfi Hl Hp.
  destruct (lookup_lt_is_Some_2 p (Z.to_nat fi) ltac:(lia)) as [c Hc].
  destruct (lookaround_first fi (Z.of_nat (length p)) pref Hp) as [r1 Hr1].
  destruct (lookaround_first (fi - Z.of_nat (length p))
              (Z.of_nat (length p)) pref Hp) as [r2 Hr2].
  assert (H1 : first_labelled labels (Z.of_nat (length p)) k
                 (lookaround fi (Z.of_nat (length p)) pref)
               = Ok (Some (fi - Z.of_nat (length p))%Z)).
  { rewrite Hr1. simpl.
    replace ((fi - Z.of_nat (length p) <? Z.of_nat (length p))%Z) with true
      by (symmetry; apply Z.ltb_lt; lia).
    rewrite <- Hlen. rewrite (py_nth_wraps labels fi k) by (auto; lia).
    simpl. rewrite Z.eqb_refl. rewrite Hlen. reflexivity. }
  assert (H2 : forall this_k,
             first_labelled labels (Z.of_nat (length p)) this_k
               (lookaround (fi - Z.of_nat (length p))
                  (Z.of_nat (length p)) pref)
             = Raise IndexError).
  { intros this_k. rewrite Hr2. simpl.
    replace ((fi - Z.of_nat (length p) - Z.of_nat (length p)
              <? Z.of_nat (length p))%Z) with true
      by (symmetry; apply Z.ltb_lt; lia).
    rewrite py_nth_below by lia. reflexivity. }
  change (backtrace (S (S m)) k p labels (Z.of_nat (length p))
            (Z.of_nat (length p)) None pref false fi acc)
    with (let* hit :=
            first_labelled labels (Z.of_nat (length p)) (Z.of_nat (S m))
              (lookaround fi (Z.of_nat (length p)) pref) in
          match hit with
          | Some nb =>
              let* c := py_nth p nb in
              backtrace (S m) k p labels (Z.of_nat (length p))
                (Z.of_nat (length p)) None pref false nb (acc ++ [c])
          | None =>
              backtrace (S m) k p labels (Z.of_nat (length p))
                (Z.of_nat (length p)) None pref false fi acc
          end).
  rewrite Hk, H1. cbn [bind].
  rewrite (py_nth_wraps p fi c) by (auto; lia). cbn [bind].
  change (backtrace (S m) k p labels (Z.of_nat (length p))
            (Z.of_nat (length p)) None pref false
            (fi - Z.of_nat (length p))%Z (acc ++ [c]))
    with (let* hit :=
            first_labelled labels (Z.of_nat (length p)) (Z.of_nat m)
              (lookaround (fi - Z.of_nat (length p))
                 (Z.of_nat (length p)) pref) in
          match hit with
          | Some nb =>
              let* c' := py_nth p nb in
              backtrace m k p labels (Z.of_nat (length p))
                (Z.of_nat (length p)) None pref false nb
                ((acc ++ [c]) ++ [c'])
          | None =>
              backtrace m k p labels (Z.of_nat (length p))
                (Z.of_nat (length p)) None pref false
                (fi - Z.of_nat (length p))%Z (acc ++ [c])
          end).
  rewrite H2. reflexivity.
Qed.

Lemma grid_single_row xs y : length (grid xs [y]) = length xs.
Proof. unfold grid. simpl. rewrite app_nil_r. apply length_map. Qed.

(** X16. On a grid of a single row, with the default search preference
    (not ['x']) and no preference switch, a found path is never returned:
    whenever the search reports a path, the backtrace reads the label list
    below its first element and [router] raises [IndexError].  (The row
    above the final index is looked at first; on one row its negative
    index wraps to the final point itself, whose label matches, and the
    next step starts from that negative index.) *)
Theorem router_single_row_raises_index_error
    (st : store) (a : route_args) (su : setup) (k : Z) (w : wave) :
  length (yr a) = 1 ->
  String.eqb (r_pref a) "x" = false ->
  switch_pref a = None ->
  route_setup st a = Ok su ->
  route_wave a su = Some (k, w) ->
  path_found w = true ->
  router st a = Raise IndexError.
Proof.
  intros Hrow Hpref Hsw Hsu Hw Hp.
  destruct (route_setup_shape _ _ _ Hsu) as (Hlen & Hgrid & Hend & _).
  assert (Hlp : length (s_p su) = length (xr a)).
  { rewrite Hgrid. destruct (yr a) as [|y [|y' ys]]; try discriminate.
    apply grid_single_row. }
  pose proof Hw as Hsound. unfold route_wave in Hsound.
  apply propagate_wave_sound in Hsound; [|exact Hend].
  destruct Hsound as (Hlab & Hfound & _).
  destruct (Hfound Hp) as (Hk & fi & Hfi & Hin & Hl).
  pose proof (Hend fi Hin) as Hr.
  destruct (lookup_lt_is_Some_2 (s_p su) (Z.to_nat fi) ltac:(lia))
    as [c Hc].
  unfold router. rewrite Hsu. cbn [bind]. rewrite Hw, Hp. cbn [negb].
  rewrite Hfi. cbn [lift bind].
  assert (Hnth : py_nth (s_p su) fi = Ok c).
  { unfold py_nth.
    replace ((0 <=? fi)%Z) with true by (symmetry; apply Z.leb_le; lia).
    replace ((fi <? Z.of_nat (length (s_p su)))%Z) with true
      by (symmetry; apply Z.ltb_lt; lia).
    simpl. rewrite Hc. reflexivity. }
  rewrite Hnth. cbn [bind].
  destruct (Z.to_nat k) as [|m] eqn:Hm; [lia|].
  replace (S m + 1) with (S (S m)) by lia.
  rewrite Hsw, <- Hlp.
  rewrite (backtrace_single_row m k (s_p su) (p_g w) (r_pref a) fi
             [s_to su; c]); auto; lia.
Qed.

Lemma router_single_row_raises_index_error_witness :
  length (yr slab_args) = 1
  /\ String.eqb (r_pref slab_args) "x" = false
  /\ switch_pref slab_args = None
  /\ route_setup slab_store slab_args
     = Ok (mkSetup (1, 0)%float (5, 0)%float
             [(0, 0); (2, 0); (4, 0); (6, 0)]%float
             [true; false; false; false] [0; 1]%Z [2; 3]%Z)
  /\ route_wave slab_args
       (mkSetup (1, 0)%float (5, 0)%float
          [(0, 0); (2, 0); (4, 0); (6, 0)]%float
          [true; false; false; false] [0; 1]%Z [2; 3]%Z)
     = Some (1%Z, mkWave [0; 0; 1; 0]%Z [] true (Some 2%Z))
  /\ router slab_store slab_args = Raise IndexError.
Proof.
  split; [reflexivity|]. split; [reflexivity|]. split; [reflexivity|].
  split; [vm_compute; reflexivity|]. split; [vm_compute; reflexivity|].
  apply (router_single_row_raises_index_error slab_store slab_args
           (mkSetup (1, 0)%float (5, 0)%float
              [(0, 0); (2, 0); (4, 0); (6, 0)]%float
              [true; false; false; false] [0; 1]%Z [2; 3]%Z)
           1%Z (mkWave [0; 0; 1; 0]%Z [] true (Some 2%Z)));
    try reflexivity; vm_compute; reflexivity.
Defined.

(** ** lookaround *)

(** X17. On rows of at least two points, [lookaround] offers the left
    neighbour [index - 1] exactly when [index] is not in the first column,
    and that neighbour then lies in the row of [index]; the right
    neighbour [index + 1] is offered always, and from the last column it
    lies in the next row.  The preference only changes the order. *)
Theorem lookaround_left_neighbour_stays_in_row
    (index row_len : Z) (pref : string) :
  (2 <= row_len)%Z ->
  ((index - 1)%Z ∈ lookaround index row_len pref
   <-> (index mod row_len)%Z <> 0%Z)
  /\ ((index - 1)%Z ∈ lookaround index row_len pref ->
      ((index - 1) / row_len = index / row_len)%Z)
  /\ (index + 1)%Z ∈ lookaround index row_len pref
  /\ ((index mod row_len = row_len - 1)%Z ->
      ((index + 1) / row_len = index / row_len + 1)%Z)
  /\ lookaround index row_len "x" = rev (lookaround index row_len "y").
Proof.
  intros Hr.
  assert (Hmem : forall z,
             z ∈ lookaround index row_len pref
             <-> z = (index - row_len)%Z \/ z = (index + row_len)%Z
                 \/ ((index mod row_len)%Z <> 0%Z /\ z = (index - 1)%Z)
                 \/ z = (index + 1)%Z).
  { intros z. unfold lookaround.
    assert (Hin : z ∈ [(index - row_len)%Z; (index + row_len)%Z]
                      ++ (if (index mod row_len =? 0)%Z then []
                          else [(index - 1)%Z]) ++ [(index + 1)%Z]
                  <-> z = (index - row_len)%Z \/ z = (index + row_len)%Z
                      \/ ((index mod row_len)%Z <> 0%Z /\ z = (index - 1)%Z)
                      \/ z = (index + 1)%Z).
    { destruct (index mod row_len =? 0)%Z eqn:Hm.
      - apply Z.eqb_eq in Hm. simpl.
        rewrite !elem_of_cons, elem_of_nil. intuition lia.
      - apply Z.eqb_neq in Hm. simpl.
        rewrite !elem_of_cons, elem_of_nil. intuition lia. }
    destruct (String.eqb pref "x"); [|exact Hin].
    rewrite list_elem_of_In, <- in_rev, <- list_elem_of_In. exact Hin. }
  pose proof (Z.div_mod index row_len ltac:(lia)) as Hdm.
  pose proof (Z.mod_pos_bound index row_len ltac:(lia)) as Hb.
  split; [|split; [|split; [|split]]].
  - rewrite Hmem. intuition lia.
  - rewrite Hmem. intros Hin.
    assert (Hm : (index mod row_len)%Z <> 0%Z) by (intuition lia).
    symmetry.
    apply (Z.div_unique_pos (index - 1) row_len (index / row_len)
             (index mod row_len - 1)); lia.
  - rewrite Hmem. auto.
  - intros Hm. symmetry.
    apply (Z.div_unique_pos (index + 1) row_len (index / row_len + 1) 0);
      lia.
  - reflexivity.
Qed.

Lemma lookaround_left_neighbour_stays_in_row_witness :
  (2 <= 3)%Z
  /\ ((4 - 1)%Z ∈ lookaround 4 3 "y" <-> (4 mod 3)%Z <> 0%Z)
  /\ ((4 - 1)%Z ∈ lookaround 4 3 "y" -> ((4 - 1) / 3 = 4 / 3)%Z)
  /\ (4 + 1)%Z ∈ lookaround 4 3 "y"
  /\ ((4 mod 3 = 3 - 1)%Z -> ((4 + 1) / 3 = 4 / 3 + 1)%Z)
  /\ lookaround 4 3 "x" = rev (lookaround 4 3 "y").
Proof.
  split; [lia|].
  apply (lookaround_left_neighbour_stays_in_row 4 3 "y"). lia.
Defined.

(** ** heal *)

Lemma closed_snoc st n :
  closed st -> prev n = [] -> next n = [] -> closed (st ++ [n]).
Proof.
  intros Hc Hp Hn. unfold closed in *. rewrite Forall_app. split.
  - eapply Forall_impl; [exact Hc|]. rewrite length_app. simpl.
    intros m [Hp' Hn']. split.
    + eapply Forall_impl; [exact Hp'|]. simpl. intros; lia.
    + eapply Forall_impl; [exact Hn'|]. simpl. intros; lia.
  - constructor; [|constructor]. rewrite Hp, Hn. split; constructor.
Qed.

Lemma closed_insert st o n :
  closed st ->
  Forall (fun kv => snd kv < length st) (prev n) ->
  Forall (fun kv => snd kv < length st) (next n) ->
  closed (<[o := n]> st).
Proof.
  intros Hc Hp Hn. unfold closed in *. rewrite Forall_lookup in *.
  intros i m Hi. rewrite length_insert.
  destruct (decide (i = o)) as [->|Hne].
  - assert (Ho : o < length st).
    { apply lookup_lt_Some in Hi. rewrite length_insert in Hi. exact Hi. }
    rewrite list_lookup_insert_eq in Hi by exact Ho. injection Hi as <-.
    auto.
  - rewrite list_lookup_insert_ne in Hi by congruence. eauto.
Qed.

(** Nothing is reachable that nothing links to. *)
Lemma unreferenced_unreachable st a b :
  a <> b ->
  (forall o n s k, st !! o = Some n -> Dict.get k (links s n) <> Some b) ->
  ~ reachable st a b.
Proof.
  intros Hab Hno Hr. apply rtc_inv_r in Hr.
  destruct Hr as [->|(y & _ & (n & s & k & Hn & Hg))]; [congruence|].
  exact (Hno _ _ _ _ Hn Hg).
Qed.

(** A [heal] call that returns. *)
Lemma heal_Healed st self endpoint r look h st1 :
  heal st self endpoint r look h = Ok (Healed st1) ->
  exists me name radius e,
    endpoint = KStr name /\ st !! self = Some me
    /\ Dict.get endpoint (endpoints me) = Some e
    /\ match r with
       | Some r => radius = r
       | None => exists d, Dict.get endpoint (endpoint_dims me) = Some (Some d)
                           /\ radius = (d / 2)%float
       end
    /\ st1 = <[self :=
                 mkGDS (structure me) (endpoints me) (endpoint_dims me)
                   (endpoint_directions me) (compound me ++ [length st])
                   (Dict.set (KStr ("HEAL_" +:+ name)) (length st) (prev me))
                   (next me) (method me)]> (st ++ [circle h radius e]).
Proof.
  unfold heal. intros Hh.
  inv_bind Hh. rename x into me, Hx into Hme. apply deref_Ok in Hme.
  inv_bind Hh. rename x into rr, Hx into Hr.
  destruct rr as [radius|]; [|discriminate].
  inv_bind Hh. rename x into e, Hx into He. apply lift_Ok in He.
  destruct look as [lk|]; [|discriminate].
  destruct endpoint as [name| |]; try discriminate.
  injection Hh as <-. exists me, name, radius, e.
  split; [reflexivity|]. split; [exact Hme|]. split; [exact He|].
  split; [|reflexivity].
  destruct r as [r|].
  - injection Hr as ->. reflexivity.
  - inv_bind Hr. rename x into d, Hx into Hd. apply lift_Ok in Hd.
    destruct d as [d|]; [|discriminate].
    injection Hr as <-. eauto.
Qed.

(** The store after a returning [heal]: one more object, the healer,
    without links; [self] with the healer as predecessor and child; the
    rest as before. *)
Lemma heal_store st self endpoint r look h st1 :
  heal st self endpoint r look h = Ok (Healed st1) ->
  exists me me1 name c,
    endpoint = KStr name /\ st !! self = Some me /\ st1 !! self = Some me1
    /\ length st1 = S (length st)
    /\ st1 !! length st = Some c /\ structure c = [GShape h]
    /\ prev c = [] /\ next c = []
    /\ structure me1 = structure me /\ endpoints me1 = endpoints me
    /\ next me1 = next me
    /\ prev me1 = Dict.set (KStr ("HEAL_" +:+ name)) (length st) (prev me)
    /\ compound me1 = compound me ++ [length st]
    /\ (forall o, o <> self -> o < length st -> st1 !! o = st !! o)
    /\ (closed st -> closed st1).
Proof.
  intros Hh. apply heal_Healed in Hh.
  destruct Hh as (me & name & radius & e & -> & Hme & _ & _ & ->).
  assert (Hs : self < length st) by (eapply lookup_lt_Some; eauto).
  assert (Hs' : self < length (st ++ [circle h radius e])).
  { rewrite length_app. simpl. lia. }
  eexists me, _, name, (circle h radius e).
  split; [reflexivity|]. split; [exact Hme|].
  split; [apply list_lookup_insert_eq; exact Hs'|].
  split; [rewrite length_insert, length_app; simpl; lia|].
  split.
  { rewrite list_lookup_insert_ne by lia.
    apply list_lookup_middle. reflexivity. }
  repeat (split; [reflexivity|]). split.
  - intros o Ho Hlt. rewrite list_lookup_insert_ne by congruence.
    apply lookup_app_l. exact Hlt.
  - intros Hc. pose proof Hc as Hc0. unfold closed in Hc0.
    rewrite Forall_lookup in Hc0. destruct (Hc0 _ _ Hme) as [Hp Hn].
    apply closed_insert; [apply closed_snoc; auto| |]; simpl;
      rewrite length_app; simpl.
    + apply Forall_dict_set; [|simpl; lia].
      eapply Forall_impl; [exact Hp|]. simpl. intros; lia.
    + eapply Forall_impl; [exact Hn|]. simpl. intros; lia.
Qed.

(** X18. The healer follows its owner, the owner does not follow the
    healer.  After a returning [heal] (on a store whose links pointed into
    it) a [translate] of [self] returns and moves the healer along with
    [self]; a [translate] of the healer returns as well and leaves every
    other object, [self] included, exactly as it was. *)
Theorem healer_follows_its_owner
    (st st1 : store) (self : nat) (endpoint : key) (r : option float)
    (look : option (nat * nat)) (h : nat) (delta : point) :
  closed st ->
  heal st self endpoint r look h = Ok (Healed st1) ->
  (exists st2 c2 me1 me2,
      translate st1 self delta = Ok st2
      /\ st2 !! length st = Some c2
      /\ structure c2 = [GShape h; GTranslate (fst delta) (snd delta)]
      /\ st1 !! self = Some me1 /\ st2 !! self = Some me2
      /\ structure me2
         = structure me1 ++ [GTranslate (fst delta) (snd delta)])
  /\ (exists st3,
         translate st1 (length st) delta = Ok st3
         /\ forall o, o < length st -> st3 !! o = st1 !! o).
Proof.
  intros Hc Hh.
  destruct (heal_store _ _ _ _ _ _ _ Hh)
    as (me & me1 & name & c & -> & Hme & Hme1 & Hlen & Hc1 & Hsc & Hpc & Hnc
        & _ & _ & _ & Hprev & _ & _ & Hcl).
  specialize (Hcl Hc).
  assert (Hs : self < length st) by (eapply lookup_lt_Some; eauto).
  split.
  - destruct (translate_acts st1 self delta Hcl ltac:(lia))
      as (st2 & Ht & _ & _ & Hact).
    destruct (Hact _ _ Hc1) as (c2 & Hc2 & Hr2 & _).
    destruct (Hact _ _ Hme1) as (me2 & Hme2 & Hrs & _).
    exists st2, c2, me1, me2. split; [exact Ht|]. split; [exact Hc2|].
    assert (Hreach : reachable st1 self (length st)).
    { apply rtc_once. exists me1, Prev, (KStr ("HEAL_" +:+ name)).
      split; [exact Hme1|]. simpl. rewrite Hprev. apply get_set_eq. }
    apply Hr2 in Hreach. apply translate_body_spec in Hreach.
    destruct Hreach as (_ & Hs2 & _). rewrite Hsc in Hs2.
    split; [exact Hs2|]. split; [exact Hme1|]. split; [exact Hme2|].
    specialize (Hrs ltac:(apply rtc_refl)).
    apply translate_body_spec in Hrs. tauto.
  - destruct (translate_acts st1 (length st) delta Hcl ltac:(lia))
      as (st3 & Ht & _ & _ & Hact).
    exists st3. split; [exact Ht|]. intros o Ho.
    destruct (lookup_lt_is_Some_2 st1 o ltac:(lia)) as [n Hn].
    destruct (Hact _ _ Hn) as (n' & Hn' & _ & Hsame).
    rewrite Hn', Hn. f_equal. apply Hsame.
    intros Hr. apply rtc_inv in Hr.
    destruct Hr as [Heq|(y & (m & s & k & Hm & Hg) & _)]; [lia|].
    assert (m = c) by congruence. subst m.
    destruct s; simpl in Hg; rewrite ?Hpc, ?Hnc in Hg; discriminate.
Qed.

Lemma healer_follows_its_owner_witness :
  closed plain_pair
  /\ (exists st1,
         heal plain_pair 0 (KStr "A") None (Some (0, 0)) 9 = Ok (Healed st1)
         /\ (exists st2 c2 me1 me2,
                translate st1 0 (1, 2)%float = Ok st2
                /\ st2 !! length plain_pair = Some c2
                /\ structure c2
                   = [GShape 9; GTranslate (fst (1, 2)%float)
                                  (snd (1, 2)%float)]
                /\ st1 !! 0 = Some me1 /\ st2 !! 0 = Some me2
                /\ structure me2
                   = structure me1 ++ [GTranslate (fst (1, 2)%float)
                                         (snd (1, 2)%float)])
         /\ (exists st3,
                translate st1 (length plain_pair) (1, 2)%float = Ok st3
                /\ forall o, o < length plain_pair ->
                             st3 !! o = st1 !! o)).
Proof.
  assert (Hc : closed plain_pair)
    by (repeat (constructor; simpl; try lia)).
  split; [exact Hc|]. eexists. split; [vm_compute; reflexivity|].
  apply (healer_follows_its_owner plain_pair _ 0 (KStr "A") None
           (Some (0, 0)) 9 (1, 2)%float Hc).
  vm_compute; reflexivity.
Defined.

(** X19. A second [heal] on the same port strands the first healer.
    After two returning [heal] calls of [self] on one port (on a store
    whose links pointed into it) [self] holds both healers as children,
    but its only link, under [HEAL_<port>], goes to the second one: a
    [translate] of [self] returns, moves the second healer and leaves the
    first one exactly where it was. *)
Theorem second_heal_strands_first_healer
    (st st1 st2 : store) (self : nat) (endpoint : key)
    (r1 r2 : option float) (look1 look2 : option (nat * nat))
    (h1 h2 : nat) (delta : point) :
  closed st ->
  heal st self endpoint r1 look1 h1 = Ok (Healed st1) ->
  heal st1 self endpoint r2 look2 h2 = Ok (Healed st2) ->
  exists me me2 name st3 c3,
    endpoint = KStr name
    /\ st !! self = Some me /\ st2 !! self = Some me2
    /\ compound me2 = compound me ++ [length st; S (length st)]
    /\ Dict.get (KStr ("HEAL_" +:+ name)) (prev me2) = Some (S (length st))
    /\ translate st2 self delta = Ok st3
    /\ st3 !! length st = st2 !! length st
    /\ st3 !! S (length st) = Some c3
    /\ structure c3 = [GShape h2; GTranslate (fst delta) (snd delta)].
Proof.
  intros Hc Hh1 Hh2.
  destruct (heal_store _ _ _ _ _ _ _ Hh1)
    as (me & me1 & name & c & -> & Hme & Hme1 & Hlen1 & Hc1 & Hsc1 & Hpc1
        & Hnc1 & _ & _ & Hnext1 & Hprev1 & Hcomp1 & Hold1 & Hcl1).
  destruct (heal_store _ _ _ _ _ _ _ Hh2)
    as (me1' & me2 & name' & c' & Hname & Hme1' & Hme2 & Hlen2 & Hc2 & Hsc2
        & Hpc2 & Hnc2 & _ & _ & Hnext2 & Hprev2 & Hcomp2 & Hold2 & Hcl2).
  injection Hname as <-.
  assert (me1' = me1) by congruence. subst me1'.
  specialize (Hcl1 Hc). specialize (Hcl2 Hcl1).
  assert (Hs : self < length st) by (eapply lookup_lt_Some; eauto).
  rewrite Hlen1 in *.
  destruct (translate_acts st2 self delta Hcl2 ltac:(lia))
    as (st3 & Ht & _ & _ & Hact).
  destruct (Hact _ _ Hc2) as (c3 & Hc3 & Hr3 & _).
  assert (Hfirst : st2 !! length st = Some c).
  { rewrite Hold2 by lia. exact Hc1. }
  exists me, me2, name, st3, c3.
  split; [reflexivity|]. split; [exact Hme|]. split; [exact Hme2|].
  split; [rewrite Hcomp2, Hcomp1, <- app_assoc; reflexivity|].
  split; [rewrite Hprev2; apply get_set_eq|].
  split; [exact Ht|]. split; [|split; [exact Hc3|]].
  - destruct (Hact _ _ Hfirst) as (c1' & Hc1' & _ & Hsame).
    rewrite Hc1', Hfirst. f_equal. apply Hsame.
    apply unreferenced_unreachable; [lia|].
    intros o n s k Hn Hg.
    destruct (decide (o = self)) as [->|Hos].
    + assert (n = me2) by congruence. subst n.
      destruct s; simpl in Hg.
      * rewrite Hprev2 in Hg.
        destruct (decide (KStr ("HEAL_" +:+ name) = k)) as [<-|Hk].
        -- rewrite get_set_eq in Hg. injection Hg. lia.
        -- rewrite get_set_ne in Hg by exact Hk. rewrite Hprev1 in Hg.
           rewrite get_set_ne in Hg by exact Hk.
           pose proof (closed_links st self me Prev k _ Hc Hme Hg). lia.
      * rewrite Hnext2, Hnext1 in Hg.
        pose proof (closed_links st self me Next k _ Hc Hme Hg). lia.
    + destruct (decide (o < length st)) as [Ho|Ho].
      * rewrite Hold2, Hold1 in Hn by (auto; lia).
        pose proof (closed_links st o n s k _ Hc Hn Hg). lia.
      * assert (Hol : o < S (S (length st))).
        { apply lookup_lt_Some in Hn. lia. }
        destruct (decide (o = length st)) as [->|Ho'].
        -- assert (n = c) by congruence. subst n.
           destruct s; simpl in Hg; rewrite ?Hpc1, ?Hnc1 in Hg;
             discriminate.
        -- assert (o = S (length st)) by lia. subst o.
           assert (n = c') by congruence. subst n.
           destruct s; simpl in Hg; rewrite ?Hpc2, ?Hnc2 in Hg;
             discriminate.
  - assert (Hreach : reachable st2 self (S (length st))).
    { apply rtc_once. exists me2, Prev, (KStr ("HEAL_" +:+ name)).
      split; [exact Hme2|]. simpl. rewrite Hprev2. apply get_set_eq. }
    apply Hr3 in Hreach. apply translate_body_spec in Hreach.
    destruct Hreach as (_ & Hs3 & _). rewrite Hsc2 in Hs3. exact Hs3.
Qed.

Lemma second_heal_strands_first_healer_witness :
  closed plain_pair
  /\ exists st1 st2,
       heal plain_pair 0 (KStr "A") None (Some (0, 0)) 9 = Ok (Healed st1)
       /\ heal st1 0 (KStr "A") None (Some (0, 0)) 8 = Ok (Healed st2)
       /\ exists me me2 name st3 c3,
            KStr "A" = KStr name
            /\ plain_pair !! 0 = Some me /\ st2 !! 0 = Some me2
            /\ compound me2
               = compound me ++ [length plain_pair; S (length plain_pair)]
            /\ Dict.get (KStr ("HEAL_" +:+ name)) (prev me2)
               = Some (S (length plain_pair))
            /\ translate st2 0 (1, 2)%float = Ok st3
            /\ st3 !! length plain_pair = st2 !! length plain_pair
            /\ st3 !! S (length plain_pair) = Some c3
            /\ structure c3
               = [GShape 8; GTranslate (fst (1, 2)%float)
                              (snd (1, 2)%float)].
Proof.
  assert (Hc : closed plain_pair)
    by (repeat (constructor; simpl; try lia)).
  split; [exact Hc|]. eexists. eexists.
  split; [vm_compute; reflexivity|]. split; [vm_compute; reflexivity|].
  eapply (second_heal_strands_first_healer plain_pair _ _ 0 (KStr "A")
           None None (Some (0, 0)) (Some (0, 0)) 9 8 (1, 2)%float Hc);
    vm_compute; reflexivity.
Defined.

(** ** stacker: what flatten collects *)

(** [c] is a child of [o]. *)
Definition contains (st : store) (o c : nat) : Prop :=
  exists n, st !! o = Some n /\ c ∈ compound n.

Lemma stack_each_spec (call : list nat -> res (list nat)) st :
  (forall l out, call l = Ok out ->
     forall x, x ∈ out <-> exists c, c ∈ l /\ rtc (contains st) c x) ->
  forall inlist outlist out,
    stack_each call st inlist outlist = Ok out ->
    forall x, x ∈ out
              <-> x ∈ outlist \/ exists i, i ∈ inlist /\ rtc (contains st) i x.
Proof.
  intros Hcall. induction inlist as [|i inlist IH];
    simpl; intros outlist out Hs x.
  - injection Hs as <-. split; [auto|].
    intros [Hx|(i & Hi & _)]; [exact Hx|inversion Hi].
  - inv_bind Hs. rename x0 into n, Hx into Hn. apply deref_Ok in Hn.
    inv_bind Hs. rename x0 into sub, Hx into Hsub.
    rewrite (IH _ _ Hs x). rewrite elem_of_app, elem_of_cons.
    assert (Hsubx : x ∈ sub
                    <-> exists c, c ∈ compound n /\ rtc (contains st) c x).
    { destruct (compound n) as [|c0 cs] eqn:Hcomp; simpl in Hsub.
      - injection Hsub as <-. split; [intros Hx; inversion Hx|].
        intros (c & Hc & _). inversion Hc.
      - apply (Hcall (c0 :: cs) sub). exact Hsub. }
    rewrite Hsubx. split.
    + intros [[Hx|[->|(c & Hc & Hr)]]|(j & Hj & Hr)]; auto.
      * right. exists i. split; [apply list_elem_of_here|apply rtc_refl].
      * right. exists i. split; [apply list_elem_of_here|].
        eapply rtc_l; [|exact Hr]. exists n. auto.
      * right. exists j. split; [apply list_elem_of_further; exact Hj|].
        exact Hr.
    + intros [Hx|(j & Hj & Hr)]; [auto|].
      apply elem_of_cons in Hj. destruct Hj as [->|Hj].
      * apply rtc_inv in Hr.
        destruct Hr as [->|(c & (m & Hm & Hc) & Hr)]; [auto|].
        assert (m = n) by congruence. subst m.
        left. right. right. eauto.
      * right. eauto.
Qed.

Lemma stacker_spec st fuel :
  forall l out,
    stacker fuel st l = Ok out ->
    forall x, x ∈ out <-> exists c, c ∈ l /\ rtc (contains st) c x.
Proof.
  induction fuel as [|fuel IH]; simpl; intros l out Hs x; [discriminate|].
  rewrite (stack_each_spec _ st IH l [] out Hs x).
  split; [intros [Hx|Hx]; [inversion Hx|exact Hx]|auto].
Qed.

Lemma stack_each_total (call : list nat -> res (list nat)) st
    (P : nat -> Prop) :
  (forall i, P i ->
     exists n, st !! i = Some n
               /\ (compound n = [] \/ exists sub, call (compound n) = Ok sub)) ->
  forall inlist outlist,
    Forall P inlist -> exists out, stack_each call st inlist outlist = Ok out.
Proof.
  intros Hcall. induction inlist as [|i inlist IH]; simpl;
    intros outlist HP; [eauto|].
  apply Forall_cons in HP. destruct HP as [Hi HP].
  destruct (Hcall i Hi) as (n & Hn & Hsub).
  unfold deref. rewrite Hn. simpl.
  destruct Hsub as [->|(sub & Hsub)]; simpl; [apply IH; exact HP|].
  destruct (compound n); simpl; [apply IH; exact HP|].
  rewrite Hsub. simpl. apply IH. exact HP.
Qed.

Lemma stacker_total st d :
  forall l, Forall (depth_le d st) l ->
            exists out, stacker (S d) st l = Ok out.
Proof.
  induction d as [|d IH]; intros l Hl.
  - destruct l as [|i l]; [simpl; eauto|].
    apply Forall_cons in Hl. destruct Hl as [[] _].
  - change (stacker (S (S d)) st l)
      with (stack_each (stacker (S d) st) st l []).
    apply (stack_each_total _ st (depth_le (S d) st)); [|exact Hl].
    intros i (n & Hn & Hch). exists n. split; [exact Hn|].
    right. apply IH. exact Hch.
Qed.

(** X20. What [flatten] collects.  On objects whose containment is a
    finite tree (of depth at most [d]) the [stacker] of [flatten] returns,
    and the list it returns holds exactly the given objects and everything
    they contain, directly or through any number of children. *)
Theorem stacker_collects_contained_objects
    (st : store) (d : nat) (objectlist : list nat) :
  Forall (depth_le d st) objectlist ->
  exists out,
    stacker (S d) st objectlist = Ok out
    /\ forall x, x ∈ out
                 <-> exists c, c ∈ objectlist /\ rtc (contains st) c x.
Proof.
  intros Hd. destruct (stacker_total st d objectlist Hd) as [out Hout].
  exists out. split; [exact Hout|]. apply (stacker_spec st (S d)). exact Hout.
Qed.

Lemma stacker_collects_contained_objects_witness :
  Forall (depth_le 2 clustered_pair) [0]
  /\ exists out,
       stacker 3 clustered_pair [0] = Ok out
       /\ forall x, x ∈ out
                    <-> exists c, c ∈ [0]
                                  /\ rtc (contains clustered_pair) c x.
Proof.
  assert (Hd : Forall (depth_le 2 clustered_pair) [0]).
  { constructor; [|constructor]. simpl. eexists. split; [reflexivity|].
    repeat constructor. eexists. split; [reflexivity|constructor]. }
  split; [exact Hd|].
  exact (stacker_collects_contained_objects clustered_pair 2 [0] Hd).
Defined.

Lemma stack_each_calls (call : list nat -> res (list nat)) st o n :
  st !! o = Some n -> compound n <> [] ->
  forall inlist outlist out,
    o ∈ inlist -> stack_each call st inlist outlist = Ok out ->
    exists sub, call (compound n) = Ok sub.
Proof.
  intros Hn Hne. induction inlist as [|i inlist IH]; simpl;
    intros outlist out Hin Hs; [inversion Hin|].
  inv_bind Hs. apply deref_Ok in Hx. inv_bind Hs.
  apply elem_of_cons in Hin. destruct Hin as [->|Hin]; [|eauto].
  assert (x = n) by congruence. subst x.
  destruct (compound n); [congruence|]. simpl in Hx0. eauto.
Qed.

(** X21. [flatten] does not come back from an object that is its own
    child (as the first object is after [cluster([P, P], ...)]): whatever
    the recursion depth allowed, the [stacker] returns no list for a list
    that holds such an object. *)
Theorem stacker_never_returns_on_own_child
    (st : store) (o : nat) (fuel : nat) (objectlist out : list nat) :
  contains st o o -> o ∈ objectlist ->
  stacker fuel st objectlist <> Ok out.
Proof.
  intros (n & Hn & Hin). revert objectlist out.
  induction fuel as [|fuel IH]; simpl; intros l out Hl Hs; [discriminate|].
  destruct (stack_each_calls _ st o n Hn
              ltac:(intros He; rewrite He in Hin; inversion Hin)
              l [] out Hl Hs) as [sub Hsub].
  exact (IH _ _ Hin Hsub).
Qed.

Lemma stacker_never_returns_on_own_child_witness :
  contains self_child 0 0 /\ 0 ∈ [0]
  /\ stacker 7 self_child [0] <> Ok [0].
Proof.
  assert (Hc : contains self_child 0 0).
  { eexists. split; [reflexivity|]. apply list_elem_of_here. }
  assert (Hin : 0 ∈ [0]) by apply list_elem_of_here.
  split; [exact Hc|]. split; [exact Hin|].
  exact (stacker_never_returns_on_own_child self_child 0 7 [0] [0] Hc Hin).
Defined.

(** ** splitter and the alphabet *)

Lemma alphabet_length : length alphabet = 520.
Proof. vm_compute. reflexivity. Qed.

Lemma alphabet_NoDup : NoDup alphabet.
Proof. apply (bool_decide_unpack (NoDup alphabet)). vm_compute. exact I. Qed.

Lemma length_removelast {A} (l : list A) :
  length (removelast l) = length l - 1.
Proof.
  induction l as [|x [|y l] IH]; simpl in *; auto. lia.
Qed.

Lemma get_snoc_ne {V} (k k' : key) (v : V) (d : dict V) :
  k' <> k -> Dict.get k (d ++ [(k', v)]) = Dict.get k d.
Proof.
  intros Hne. induction d as [|[k0 v0] d IH]; simpl.
  - rewrite decide_False by exact Hne. reflexivity.
  - destruct (decide (k0 = k)); auto.
Qed.

(** The port names given out by the first [j] turns of the loop. *)
Definition outputs (j : nat) : list key :=
  map KStr (take j (drop 1 alphabet)).

Lemma outputs_fresh j name :
  alphabet !! S j = Some name ->
  KStr name ∉ KStr "A" :: outputs j.
Proof.
  intros Hn Hin. pose proof alphabet_NoDup as Hnd.
  assert (Hinj : forall a b, KStr a = KStr b -> a = b)
    by (intros a b Hab; injection Hab as ->; reflexivity).
  apply elem_of_cons in Hin. destruct Hin as [Hin|Hin].
  - apply Hinj in Hin. subst name.
    assert (H0 : alphabet !! 0 = Some "A"%string) by reflexivity.
    pose proof (NoDup_lookup _ _ _ _ Hnd Hn H0). discriminate.
  - unfold outputs in Hin. apply list_elem_of_fmap in Hin.
    destruct Hin as (s & Hs & Hin). apply Hinj in Hs. subst s.
    apply list_elem_of_lookup_1 in Hin. destruct Hin as [i Hi].
    pose proof (lookup_lt_Some _ _ _ Hi) as Hlt.
    rewrite lookup_take_lt in Hi by (rewrite length_take in Hlt; lia).
    rewrite lookup_drop in Hi.
    rewrite length_take in Hlt.
    pose proof (NoDup_lookup _ _ _ _ Hnd Hn Hi). lia.
Qed.

Section Splitter.
Variables (n : Z) (width len space : float).

Lemma splitter_loop_spec todo :
  forall i p ends epsz,
    (0 <= i)%Z -> Z.to_nat i + todo <= 519 ->
    Dict.keys ends = KStr "A" :: outputs (Z.to_nat i) ->
    Dict.keys epsz = Dict.keys ends ->
    exists p' ends' epsz',
      splitter_loop todo i n width len space p ends epsz
      = Ok (p', ends', epsz')
      /\ length p' = length p + 4 * todo
      /\ Dict.keys ends' = KStr "A" :: outputs (Z.to_nat i + todo)
      /\ Dict.keys epsz' = Dict.keys ends'
      /\ (Forall (fun kv => snd kv = Some width) epsz ->
          Forall (fun kv => snd kv = Some width) epsz')
      /\ Dict.get (KStr "A") ends' = Dict.get (KStr "A") ends
      /\ (Forall (fun kv => fst kv <> KStr "A" -> fst (snd kv) = len) ends ->
          Forall (fun kv => fst kv <> KStr "A" -> fst (snd kv) = len) ends').
Proof.
  induction todo as [|todo IH]; intros i p ends epsz Hi Hle Hk Hkz.
  - simpl. exists p, ends, epsz. rewrite !Nat.add_0_r. auto 10.
  - simpl.
    replace (Z.to_nat (i + 1)) with (S (Z.to_nat i)) by lia.
    destruct (lookup_lt_is_Some_2 alphabet (S (Z.to_nat i))
                ltac:(rewrite alphabet_length; lia)) as [name Hname].
    rewrite Hname. simpl.
    pose proof (outputs_fresh _ _ Hname) as Hfresh.
    rewrite <- Hk in Hfresh.
    assert (Hfz : KStr name ∉ Dict.keys epsz) by (rewrite Hkz; exact Hfresh).
    apply get_None_not_in_keys in Hfresh, Hfz.
    rewrite (dict_set_fresh _ _ ends Hfresh).
    rewrite (dict_set_fresh _ _ epsz Hfz).
    assert (Hout : outputs (S (Z.to_nat i))
                   = outputs (Z.to_nat i) ++ [KStr name]).
    { unfold outputs.
      rewrite (take_S_r _ _ name) by (rewrite lookup_drop; exact Hname).
      rewrite map_app. reflexivity. }
    match goal with
    | |- context [splitter_loop todo (i + 1)%Z n width len space ?p1 ?e1 ?z1]
      => destruct (IH (i + 1)%Z p1 e1 z1) as
          (p' & ends' & epsz' & Hs & Hlen & Hk' & Hkz' & Hw & Hga & Hx)
    end.
    + lia.
    + lia.
    + unfold Dict.keys in *. rewrite map_app, Hk. simpl.
      replace (Z.to_nat (i + 1)) with (S (Z.to_nat i)) by lia.
      rewrite Hout. reflexivity.
    + unfold Dict.keys in *. rewrite !map_app, Hkz. reflexivity.
    + exists p', ends', epsz'. split; [exact Hs|].
      split; [rewrite Hlen, !length_app; simpl; lia|].
      split; [rewrite Hk'; f_equal; f_equal; lia|].
      split; [exact Hkz'|]. split; [|split].
      * intros Hall. apply Hw. apply Forall_app. split; [exact Hall|].
        constructor; [reflexivity|constructor].
      * rewrite Hga. apply get_snoc_ne.
        intros Heq. apply get_None_not_in_keys in Hfresh. apply Hfresh.
        rewrite Hk, Heq. apply list_elem_of_here.
      * intros Hall. apply Hx. apply Forall_app. split; [exact Hall|].
        constructor; [reflexivity|constructor].
Qed.

Lemma splitter_loop_overrun todo :
  forall i p ends epsz,
    (0 <= i)%Z -> Z.to_nat i <= 519 -> 520 <= Z.to_nat i + todo ->
    splitter_loop todo i n width len space p ends epsz = Raise IndexError.
Proof.
  induction todo as [|todo IH]; intros i p ends epsz Hi Hle Hge; [lia|].
  simpl. replace (Z.to_nat (i + 1)) with (S (Z.to_nat i)) by lia.
  destruct (alphabet !! S (Z.to_nat i)) as [name|] eqn:Hname; simpl.
  - apply lookup_lt_Some in Hname. rewrite alphabet_length in Hname.
    apply IH; lia.
  - reflexivity.
Qed.

End Splitter.

(** X22. [splitter] has one input port and [n] output ports, named after
    the alphabet, which has 520 names.  Asked for more than 519 outputs it
    raises [IndexError]; otherwise it returns an object whose ports are
    ['A'] followed by the next [n] names of the alphabet, all distinct,
    each with a size entry equal to [width], the input at
    [(0, -width/2)] and every output at [x = length], on a polygon of
    [4n + 5] points (5 points for [n <= 0]). *)
Theorem splitter_ports (n : Z) (width len space : float) (h : nat) :
  ((519 < n)%Z -> splitter n width len space h = Raise IndexError)
  /\ ((n <= 519)%Z ->
      exists p g,
        splitter n width len space h = Ok (p, g)
        /\ length p = 4 * Z.to_nat n + 5
        /\ Dict.keys (endpoints g) = KStr "A" :: outputs (Z.to_nat n)
        /\ NoDup (Dict.keys (endpoints g))
        /\ Dict.keys (endpoint_dims g) = Dict.keys (endpoints g)
        /\ Forall (fun kv => snd kv = Some width) (endpoint_dims g)
        /\ Dict.get (KStr "A") (endpoints g) = Some (0, - width / 2)%float
        /\ Forall (fun kv => fst kv <> KStr "A" -> fst (snd kv) = len)
             (endpoints g)).
Proof.
  split; intros Hn; unfold splitter.
  - rewrite splitter_loop_overrun; [reflexivity|lia|simpl; lia|simpl; lia].
  - match goal with
    | |- context [splitter_loop _ _ _ _ _ _ ?p0 ?e0 ?z0] =>
        destruct (splitter_loop_spec n width len space (Z.to_nat n)
                    0%Z p0 e0 z0)
          as (p' & ends' & epsz' & Hs & Hlen & Hk & Hkz & Hw & Hga & Hx)
    end; [lia|simpl; lia|reflexivity|reflexivity|].
    rewrite Hs. simpl. eexists _, _. split; [reflexivity|]. simpl.
    split; [rewrite length_app, length_removelast, Hlen; simpl; lia|].
    split; [exact Hk|]. split; [|split; [exact Hkz|split; [|split]]].
    + rewrite Hk. simpl.
      assert (Hnd : NoDup (map KStr (take (S (Z.to_nat n)) alphabet))).
      { apply (NoDup_fmap_2_strong KStr).
        - intros a b _ _ Hab. injection Hab as ->. reflexivity.
        - eapply sublist_NoDup; [apply alphabet_NoDup|apply sublist_take]. }
      exact Hnd.
    + apply Hw. repeat constructor.
    + rewrite Hga. reflexivity.
    + apply Hx. constructor; [|constructor]. simpl. congruence.
Qed.

Lemma splitter_ports_witness :
  (2 <= 519)%Z
  /\ exists p g,
       splitter 2 1%float 10%float 3%float 7 = Ok (p, g)
       /\ length p = 4 * Z.to_nat 2 + 5
       /\ Dict.keys (endpoints g) = KStr "A" :: outputs (Z.to_nat 2)
       /\ NoDup (Dict.keys (endpoints g))
       /\ Dict.keys (endpoint_dims g) = Dict.keys (endpoints g)
       /\ Forall (fun kv => snd kv = Some 1%float) (endpoint_dims g)
       /\ Dict.get (KStr "A") (endpoints g) = Some (0, - 1 / 2)%float
       /\ Forall (fun kv => fst kv <> KStr "A" -> fst (snd kv) = 10%float)
            (endpoints g).
Proof.
  split; [lia|].
  apply (proj2 (splitter_ports 2 1%float 10%float 3%float 7)). lia.
Defined.

(** ** copy: the copy is detached from the original *)

(** From [lo] on, the objects of [st] link to objects from [lo] on only. *)
Definition links_from (lo : nat) (st : store) : Prop :=
  forall x n, lo <= x -> st !! x = Some n ->
    Forall (fun kv => lo <= snd kv < length st) (prev n)
    /\ Forall (fun kv => lo <= snd kv < length st) (next n).

Lemma links_from_grow lo st st' :
  links_from lo st -> lo <= length st ->
  extends st st' -> length st <= length st' ->
  links_from (length st) st' ->
  links_from lo st'.
Proof.
  intros Hl Hlo He Hlen Hnew x n Hx Hn.
  destruct (decide (x < length st)) as [Hlt|Hge].
  - destruct (lookup_lt_is_Some_2 st x Hlt) as [m Hm].
    assert (m = n) by (apply He in Hm; congruence). subst m.
    destruct (Hl x n Hx Hm) as [Hp Hq].
    split; (eapply Forall_impl; [eassumption|]); simpl; intros; lia.
  - destruct (Hnew x n ltac:(lia) Hn) as [Hp Hq].
    split; (eapply Forall_impl; [eassumption|]); simpl; intros; lia.
Qed.

Definition copy_detached (fuel : nat) : Prop :=
  forall st o st' c,
    copy fuel st o = Ok (st', c) ->
    c = length st /\ length st < length st' /\ extends st st'
    /\ links_from (length st) st'.

Lemma copy_children_detached fuel lo :
  copy_detached fuel ->
  forall cs i st_cur acc st_fin comp,
    lo < length st_cur -> links_from lo st_cur ->
    copy_children (copy fuel) lo cs i st_cur acc = Ok (st_fin, comp) ->
    length st_cur <= length st_fin
    /\ (forall x n, x < lo -> st_cur !! x = Some n -> st_fin !! x = Some n)
    /\ links_from lo st_fin.
Proof.
  intros Hcopy. induction cs as [|c cs IH];
    simpl; intros i st_cur acc st_fin comp Hlo Hl Hc.
  - injection Hc as <- <-. auto.
  - inv_bind Hc. destruct x as [st1 c_copy].
    inv_bind Hc. rename x into n, Hx0 into Hn. apply deref_Ok in Hn.
    destruct (Hcopy _ _ _ _ Hx) as (-> & Hlen1 & He1 & Hl1).
    pose proof (links_from_grow lo st_cur st1 Hl ltac:(lia) He1
                  ltac:(lia) Hl1) as Hl1'.
    apply IH in Hc.
    + destruct Hc as (Hlen & Hold & Hlf). rewrite length_insert in Hlen.
      split; [lia|]. split; [|exact Hlf].
      intros x m Hx' Hm. apply Hold; [exact Hx'|].
      rewrite list_lookup_insert_ne by lia. apply He1. exact Hm.
    + rewrite length_insert. lia.
    + intros x m Hx' Hm. rewrite length_insert.
      destruct (decide (x = lo)) as [->|Hne].
      * rewrite list_lookup_insert_eq in Hm by lia. injection Hm as <-.
        destruct (Hl1' lo n ltac:(lia) Hn) as [Hp Hq]. simpl.
        split; [exact Hp|]. apply Forall_dict_set; [exact Hq|simpl; lia].
      * rewrite list_lookup_insert_ne in Hm by congruence.
        exact (Hl1' x m Hx' Hm).
Qed.

Lemma copy_is_detached fuel : copy_detached fuel.
Proof.
  induction fuel as [|fuel IH]; intros st o st' c Hc; simpl in Hc;
    [discriminate|].
  inv_bind Hc. rename x into me, Hx into Hme. apply deref_Ok in Hme.
  inv_bind Hc. destruct x as [st1 comp]. rename Hx into Hloop.
  inv_bind Hc. rename x into n, Hx into Hn. apply deref_Ok in Hn.
  injection Hc as <- <-.
  apply (copy_children_detached fuel (length st) IH) in Hloop.
  - destruct Hloop as (Hlen & Hold & Hlf).
    rewrite length_app in Hlen. simpl in Hlen.
    split; [reflexivity|]. split; [rewrite length_insert; lia|]. split.
    + intros x m Hm. rewrite list_lookup_insert_ne
        by (apply lookup_lt_Some in Hm; lia).
      apply Hold; [apply lookup_lt_Some in Hm; lia|].
      rewrite lookup_app_l by (apply lookup_lt_Some in Hm; lia). exact Hm.
    + intros x m Hx Hm. rewrite length_insert.
      destruct (decide (x = length st)) as [->|Hne].
      * rewrite list_lookup_insert_eq in Hm by lia. injection Hm as <-.
        simpl. exact (Hlf (length st) n ltac:(lia) Hn).
      * rewrite list_lookup_insert_ne in Hm by congruence.
        exact (Hlf x m Hx Hm).
  - rewrite length_app. simpl. lia.
  - intros x m Hx Hm. rewrite length_app. simpl.
    assert (x = length st).
    { apply lookup_lt_Some in Hm. rewrite length_app in Hm. simpl in Hm.
      lia. }
    subst x. rewrite list_lookup_middle in Hm by reflexivity.
    injection Hm as <-. simpl. split; constructor.
Qed.

(** Links never lead out of a set of objects that link among
    themselves. *)
Lemma reachable_within st (S : nat -> Prop) :
  (forall o n s k t, S o -> st !! o = Some n ->
     Dict.get k (links s n) = Some t -> S t) ->
  forall a b, S a -> reachable st a b -> S b.
Proof.
  intros Hin a b Ha. revert b.
  apply (rtc_ind_r (fun o => S o) a); [exact Ha|].
  intros y z _ (n & s & k & Hn & Hg) Hy. eauto.
Qed.

(** X23. A copy is detached from its original.  After a [copy] that
    returns (on a store whose links pointed into it), no link leads from
    the copied objects to the objects that were there before, or back: a
    [translate] of the copy returns and leaves every earlier object
    exactly as it was, and a [translate] of any earlier object returns and
    leaves the copy and all the objects made with it exactly as they
    were. *)
Theorem copy_is_detached_from_original
    (fuel : nat) (st st' : store) (self c : nat) (delta : point) :
  closed st ->
  copy fuel st self = Ok (st', c) ->
  c = length st
  /\ (exists st2,
         translate st' c delta = Ok st2
         /\ forall o, o < length st -> st2 !! o = st !! o)
  /\ (forall o, o < length st ->
        exists st2,
          translate st' o delta = Ok st2
          /\ forall x, length st <= x -> st2 !! x = st' !! x).
Proof.
  intros Hc Hcp.
  destruct (copy_is_detached fuel _ _ _ _ Hcp) as (-> & Hlen & Hext & Hlf).
  assert (Hold : forall o n, o < length st -> st' !! o = Some n ->
                             st !! o = Some n).
  { intros o n Ho Hn. destruct (lookup_lt_is_Some_2 st o Ho) as [m Hm].
    pose proof (Hext _ _ Hm). congruence. }
  assert (Hc' : closed st').
  { unfold closed. rewrite Forall_lookup. intros x n Hn.
    destruct (decide (x < length st)) as [Hx|Hx].
    - apply Hold in Hn; [|exact Hx]. unfold closed in Hc.
      rewrite Forall_lookup in Hc. destruct (Hc _ _ Hn) as [Hp Hq].
      split; (eapply Forall_impl; [eassumption|]); simpl; intros; lia.
    - destruct (Hlf x n ltac:(lia) Hn) as [Hp Hq].
      split; (eapply Forall_impl; [eassumption|]); simpl; intros; lia. }
  assert (Hnew : forall a b, length st <= a -> reachable st' a b ->
                             length st <= b).
  { apply (reachable_within st' (fun o => length st <= o)).
    intros o n s k t Ho Hn Hg. destruct (Hlf o n Ho Hn) as [Hp Hq].
    apply get_in in Hg. destruct s; simpl in Hg.
    - rewrite Forall_forall in Hp. apply (Hp _ Hg).
    - rewrite Forall_forall in Hq. apply (Hq _ Hg). }
  assert (Hback : forall a b, a < length st -> reachable st' a b ->
                              b < length st).
  { apply (reachable_within st' (fun o => o < length st)).
    intros o n s k t Ho Hn Hg. apply Hold in Hn; [|exact Ho].
    eapply closed_links; eauto. }
  split; [reflexivity|]. split.
  - destruct (translate_acts st' (length st) delta Hc' Hlen)
      as (st2 & Ht & _ & _ & Hact).
    exists st2. split; [exact Ht|]. intros o Ho.
    destruct (lookup_lt_is_Some_2 st o Ho) as [n Hn].
    destruct (Hact o n (Hext _ _ Hn)) as (n' & Hn' & _ & Hsame).
    rewrite Hn', Hn. f_equal. apply Hsame.
    intros Hr. apply Hnew in Hr; lia.
  - intros o Ho.
    destruct (translate_acts st' o delta Hc' ltac:(lia))
      as (st2 & Ht & Hlen2 & _ & Hact).
    exists st2. split; [exact Ht|]. intros x Hx.
    destruct (st' !! x) as [n|] eqn:Hn.
    + destruct (Hact x n Hn) as (n' & Hn' & _ & Hsame).
      rewrite Hn'. f_equal. apply Hsame.
      intros Hr. apply Hback in Hr; lia.
    + apply lookup_ge_None. apply lookup_ge_None in Hn. lia.
Qed.

Lemma copy_is_detached_from_original_witness :
  closed clustered_pair
  /\ exists st',
       copy 2 clustered_pair 0 = Ok (st', 2)
       /\ 2 = length clustered_pair
       /\ (exists st2,
              translate st' 2 (1, 2)%float = Ok st2
              /\ forall o, o < length clustered_pair ->
                           st2 !! o = clustered_pair !! o)
       /\ (forall o, o < length clustered_pair ->
             exists st2,
               translate st' o (1, 2)%float = Ok st2
               /\ forall x, length clustered_pair <= x ->
                            st2 !! x = st' !! x).
Proof.
  assert (Hc : closed clustered_pair)
    by (repeat (constructor; simpl; try lia)).
  split; [exact Hc|]. eexists. split; [vm_compute; reflexivity|].
  eapply (copy_is_detached_from_original 2 clustered_pair _ 0 2
            (1, 2)%float Hc).
  vm_compute; reflexivity.
Defined.

(** ** connect makes one group of two *)

Section ConnectGroup.
Context `{Libm}.

(** A returning [connect]: the stores it goes through keep the link maps
    up to the two entries written at the end. *)
Lemma connect_Ok st self ep_self to ep_to offset obj_link rot st1 :
  connect st self ep_self to ep_to offset obj_link rot = Ok st1 ->
  exists me0 t0 me tn k k',
    st !! self = Some me0 /\ st !! to = Some t0
    /\ st1 !! self = Some me /\ st1 !! to = Some tn
    /\ k = (if obj_link then KObj to else ep_self)
    /\ k' = (if obj_link then KObj self else ep_to)
    /\ Dict.get k (prev me) = Some to
    /\ Dict.get k' (next tn) = Some self
    /\ (forall j, j <> k -> Dict.get j (prev me) = Dict.get j (prev me0))
    /\ (self <> to ->
        forall j, Dict.get j (next me) = Dict.get j (next me0))
    /\ Dict.keys (endpoints me) = Dict.keys (endpoints me0)
    /\ (closed st -> closed st1).
Proof.
  unfold connect. intros Hc.
  inv_bind Hc. rename x into me0, Hx into Hme0. apply deref_Ok in Hme0.
  inv_bind Hc. rename x into t0, Hx into Ht0. apply deref_Ok in Ht0.
  inv_bind Hc. rename x into sta, Hx into Hrot.
  inv_bind Hc. inv_bind Hc. inv_bind Hc. inv_bind Hc. clear Hx Hx0 Hx1 Hx2.
  inv_bind Hc. rename x3 into stb, Hx into Htr.
  assert (Hf : Forall2 same_topology st sta).
  { destruct (has_directions me0 && has_directions t0 && rot).
    - inv_bind Hrot. inv_bind Hrot. eapply rotate_frame; eauto.
    - injection Hrot as <-. apply related_refl. apply same_topology_refl. }
  assert (Hg : Forall2 same_topology sta stb).
  { apply translate_frame in Htr.
    eapply Forall2_impl; [exact Htr|]. intros a b [Hab _]. exact Hab. }
  assert (Hfg : Forall2 same_topology st stb).
  { eapply related_trans; [apply same_topology_trans|exact Hf|exact Hg]. }
  destruct (Forall2_lookup_l _ _ _ _ _ Hfg Hme0)
    as (meb & Hmeb & Hpb & Hnb & Hkb & _).
  destruct (Forall2_lookup_l _ _ _ _ _ Hfg Ht0) as (tb & Htb & _).
  set (k := if obj_link then KObj to else ep_self).
  set (k' := if obj_link then KObj self else ep_to).
  assert (Hlinks : exists stc,
             link stb to Next k' self = Ok stc
             /\ link stc self Prev k to = Ok st1).
  { unfold k, k'. destruct obj_link; simpl in Hc; inv_bind Hc; eauto. }
  clear Hc. destruct Hlinks as (stc & Hl1 & Hl2).
  destruct (link_spec _ _ _ _ _ _ Hl1) as (Hn1 & Hg1 & Hf1 & Hp1 & Hc1).
  destruct (link_spec _ _ _ _ _ _ Hl2) as (Hn2 & Hg2 & Hf2 & Hp2 & Hc2).
  destruct Hg2 as (me & Hme & Hgme).
  destruct Hg1 as (tc & Htc & Hgtc).
  destruct (Hp2 to tc Htc) as (tn & Htn & _ & Hktn).
  destruct (Hp1 self meb Hmeb) as (mec & Hmec & Hpayc & Hkc).
  destruct (Hp2 self mec Hmec) as (me' & Hme' & Hpay2 & Hk2).
  assert (me' = me) by congruence. subst me'.
  exists me0, t0, me, tn, k, k'.
  split; [exact Hme0|]. split; [exact Ht0|]. split; [exact Hme|].
  split; [exact Htn|]. split; [reflexivity|]. split; [reflexivity|].
  split; [exact Hgme|]. split; [|split; [|split; [|split]]].
  - pose proof (Hktn Next k' ltac:(right; left; discriminate)) as E.
    simpl in E, Hgtc. congruence.
  - intros j Hj.
    pose proof (Hk2 Prev j ltac:(right; right; exact Hj)) as E2.
    pose proof (Hkc Prev j ltac:(right; left; discriminate)) as E1.
    simpl in E1, E2. congruence.
  - intros Hne j.
    pose proof (Hk2 Next j ltac:(right; left; discriminate)) as E2.
    pose proof (Hkc Next j ltac:(left; exact Hne)) as E1.
    simpl in E1, E2. congruence.
  - destruct Hpay2 as (_ & He2 & _). destruct Hpayc as (_ & Hec & _).
    rewrite He2, Hec. exact Hkb.
  - intros Hcl.
    assert (Hlen : length stb = length st)
      by (symmetry; eapply Forall2_length; eauto).
    apply Hc2; [apply Hc1|].
    + eapply closed_related; eauto.
    + apply lookup_lt_Some in Hme0. lia.
    + apply lookup_lt_Some in Ht0. lia.
Qed.

(** X24. Connected objects move together.  After a [connect] that returns
    (on a store whose links pointed into it), with port keys or object
    keys, [self] and [to] are linked in both directions: a [translate]
    started on either of them returns and moves both. *)
Theorem connected_objects_move_together
    (st st1 : store) (self : nat) (ep_self : key) (to : nat) (ep_to : key)
    (offset : point) (obj_link rot : bool) (start : nat) (delta : point) :
  closed st ->
  connect st self ep_self to ep_to offset obj_link rot = Ok st1 ->
  start ∈ [self; to] ->
  exists st2,
    translate st1 start delta = Ok st2
    /\ forall o, o ∈ [self; to] ->
         exists n1 n2,
           st1 !! o = Some n1 /\ st2 !! o = Some n2
           /\ structure n2
              = structure n1 ++ [GTranslate (fst delta) (snd delta)].
Proof.
  intros Hc Hcn Hstart.
  destruct (connect_Ok _ _ _ _ _ _ _ _ _ Hcn)
    as (me0 & t0 & me & tn & k & k' & _ & _ & Hme & Htn & _ & _ & Hgp & Hgn
        & _ & _ & _ & Hc1).
  specialize (Hc1 Hc).
  assert (Hlink : forall a b, a ∈ [self; to] -> b ∈ [self; to] ->
                              reachable st1 a b).
  { assert (Hst : reachable st1 self to).
    { apply rtc_once. exists me, Prev, k. auto. }
    assert (Hts : reachable st1 to self).
    { apply rtc_once. exists tn, Next, k'. auto. }
    intros a b Ha Hb.
    repeat (apply elem_of_cons in Ha; destruct Ha as [->|Ha]);
      [| |inversion Ha];
      repeat (apply elem_of_cons in Hb; destruct Hb as [->|Hb]);
      try (inversion Hb; fail); auto; apply rtc_refl. }
  assert (Hin : forall o, o ∈ [self; to] -> is_Some (st1 !! o)).
  { intros o Ho. repeat (apply elem_of_cons in Ho; destruct Ho as [->|Ho]);
      [eauto|eauto|inversion Ho]. }
  destruct (Hin start Hstart) as [ns Hns].
  destruct (translate_acts st1 start delta Hc1
              ltac:(eapply lookup_lt_Some; eauto))
    as (st2 & Ht & _ & _ & Hact).
  exists st2. split; [exact Ht|]. intros o Ho.
  destruct (Hin o Ho) as [n1 Hn1].
  destruct (Hact o n1 Hn1) as (n2 & Hn2 & Hr & _).
  exists n1, n2. split; [exact Hn1|]. split; [exact Hn2|].
  specialize (Hr (Hlink start o Hstart Ho)).
  apply translate_body_spec in Hr. tauto.
Qed.

End ConnectGroup.

Lemma connected_objects_move_together_witness :
  closed plain_pair
  /\ connect (H := example_libm) plain_pair 0 (KStr "A") 1 (KStr "B")
       (0, 0)%float false true = Ok plain_pair_connected
  /\ 1 ∈ [0; 1]
  /\ exists st2,
       translate plain_pair_connected 1 (1, 2)%float = Ok st2
       /\ forall o, o ∈ [0; 1] ->
            exists n1 n2,
              plain_pair_connected !! o = Some n1 /\ st2 !! o = Some n2
              /\ structure n2
                 = structure n1 ++ [GTranslate (fst (1, 2)%float)
                                      (snd (1, 2)%float)].
Proof.
  assert (Hc : closed plain_pair)
    by (repeat (constructor; simpl; try lia)).
  assert (Hin : 1 ∈ [0; 1])
    by (apply list_elem_of_further, list_elem_of_here).
  split; [exact Hc|]. split; [vm_compute; reflexivity|].
  split; [exact Hin|].
  apply (connected_objects_move_together (H := example_libm) plain_pair
           plain_pair_connected 0 (KStr "A") 1 (KStr "B") (0, 0)%float
           false true 1 (1, 2)%float Hc);
    [vm_compute; reflexivity|exact Hin].
Defined.

(** ** connect, then disconnect: back to one object alone *)

Lemma Forall_dict_del {V} (P : key * V -> Prop) (k : key) (d : dict V) :
  Forall P d -> Forall P (Dict.del k d).
Proof.
  intros Hd. induction Hd as [|[k' v'] d Hx Hd IH]; simpl; [constructor|].
  destruct (decide (k' = k)); [exact IH|constructor; auto].
Qed.

(** The link maps of [b] hold entries of the link maps of [a] only. *)
Definition thinned (a b : GDStructure) : Prop :=
  forall s (P : key * nat -> Prop),
    Forall P (links s a) -> Forall P (links s b).

Lemma thinned_refl a : thinned a a.
Proof. intros s P HP. exact HP. Qed.

Lemma thinned_trans a b c : thinned a b -> thinned b c -> thinned a c.
Proof. intros Hab Hbc s P HP. apply Hbc, Hab, HP. Qed.

Lemma thinned_del s n k : thinned n (set_links s n (Dict.del k (links s n))).
Proof.
  intros s' P HP. destruct (decide (s' = s)) as [->|Hne].
  - rewrite links_set_links. apply Forall_dict_del. exact HP.
  - destruct s, s'; try congruence; exact HP.
Qed.

Lemma thinned_closed st st' :
  closed st -> Forall2 thinned st st' -> closed st'.
Proof.
  intros Hc Hr. unfold closed in *. rewrite Forall_lookup in *.
  intros i n' Hi.
  destruct (Forall2_lookup_r _ _ _ _ _ Hr Hi) as (n & Hn & Ht).
  rewrite <- (Forall2_length _ _ _ Hr).
  destruct (Hc _ _ Hn) as [Hp Hq].
  split; [apply (Ht Prev _ Hp)|apply (Ht Next _ Hq)].
Qed.

Section DisconnectThins.
Variable self : nat.

Lemma unlink_back_thinned s x st :
  Forall2 thinned st (unlink_back s self x st).
Proof.
  rewrite unlink_back_fold.
  destruct (st !! x) as [nx|];
    [|apply related_refl; exact thinned_refl].
  generalize (Dict.keys (endpoints nx)). intros ks. revert st.
  induction ks as [|ne ks IH]; intros st; simpl;
    [apply related_refl; exact thinned_refl|].
  eapply related_trans; [exact thinned_trans| |apply IH].
  unfold unlink_turn. destruct (st !! x) as [m|] eqn:Hm;
    [|apply related_refl; exact thinned_refl].
  destruct (decide (Dict.get ne (links s m) = Some self));
    [|apply related_refl; exact thinned_refl].
  eapply related_insert; [exact thinned_refl|exact Hm|apply thinned_del].
Qed.

Lemma disconnect_side_thinned s e st :
  Forall2 thinned st (disconnect_side s self e st).
Proof.
  unfold disconnect_side.
  destruct (st !! self) as [me|];
    [|apply related_refl; exact thinned_refl].
  destruct (Dict.get e (links s me)) as [x|];
    [|apply related_refl; exact thinned_refl].
  pose proof (unlink_back_thinned (flip s) x st) as Hu.
  destruct (unlink_back (flip s) self x st !! self) as [me1|] eqn:Hme1;
    [|exact Hu].
  eapply related_trans; [exact thinned_trans|exact Hu|].
  eapply related_insert; [exact thinned_refl|exact Hme1|apply thinned_del].
Qed.

Lemma disconnect_thinned st : Forall2 thinned st (disconnect st self).
Proof.
  rewrite disconnect_fold. destruct (st !! self) as [me|];
    [|apply related_refl; exact thinned_refl].
  generalize (Dict.keys (endpoints me)). intros ks. revert st.
  induction ks as [|e ks IH]; intros st; simpl;
    [apply related_refl; exact thinned_refl|].
  eapply related_trans; [exact thinned_trans| |apply IH].
  unfold disconnect_turn.
  eapply related_trans; [exact thinned_trans| |];
    apply disconnect_side_thinned.
Qed.

End DisconnectThins.

Section ConnectRoundTrip.
Context `{Libm}.

(** X25. Connecting and disconnecting again leaves an object alone.  For
    an object [self] without links, a port-keyed [connect] to another
    object followed by [disconnect] on [self] leaves [self] without any
    link entry, so that a [translate] of [self] afterwards returns and
    moves nothing but [self]. *)
Theorem connect_disconnect_restores_isolation
    (st st1 : store) (self : nat) (ep_self : key) (to : nat) (ep_to : key)
    (offset : point) (rot : bool) (me0 : GDStructure) (delta : point) :
  closed st ->
  st !! self = Some me0 -> prev me0 = [] -> next me0 = [] -> self <> to ->
  connect st self ep_self to ep_to offset false rot = Ok st1 ->
  (exists me2,
      disconnect st1 self !! self = Some me2
      /\ forall s k, Dict.get k (links s me2) = None)
  /\ exists st3,
       translate (disconnect st1 self) self delta = Ok st3
       /\ forall o, o <> self -> st3 !! o = disconnect st1 self !! o.
Proof.
  intros Hc Hme0 Hp0 Hn0 Hne Hcn.
  destruct (connect_Ok _ _ _ _ _ _ _ _ _ Hcn)
    as (me0' & t0 & me & tn & k & k' & Hme0' & _ & Hme & _ & -> & _ & _ & _
        & Hprev & Hnext & _ & Hc1).
  assert (me0' = me0) by congruence. subst me0'.
  specialize (Hc1 Hc). specialize (Hnext Hne).
  destruct (connect_records_link _ _ _ _ _ _ _ _ Hcn)
    as (me' & _ & Hme' & _ & Hes & _).
  assert (me' = me) by congruence. subst me'.
  destruct (disconnect_post self st1 me Hme) as (me2 & Hme2 & _ & Hnone).
  destruct (Forall2_lookup_l _ _ _ _ _ (disconnect_shrunk self st1) Hme)
    as (me2' & Hme2' & _ & Hsh).
  assert (me2' = me2) by congruence. subst me2'.
  assert (Hnolink : forall s j, Dict.get j (links s me2) = None).
  { intros s j. destruct (Hsh s j) as [Heq|[Hn _]]; [|exact Hn].
    destruct s; simpl in *.
    - destruct (decide (j = ep_self)) as [->|Hj].
      + apply (Hnone ep_self Hes).
      + rewrite Heq, (Hprev j Hj), Hp0. reflexivity.
    - rewrite Heq, Hnext, Hn0. reflexivity. }
  split; [eauto|].
  assert (Hc2 : closed (disconnect st1 self)).
  { eapply thinned_closed; [exact Hc1|apply disconnect_thinned]. }
  destruct (translate_acts (disconnect st1 self) self delta Hc2
              ltac:(eapply lookup_lt_Some; eauto))
    as (st3 & Ht & Hlen & _ & Hact).
  exists st3. split; [exact Ht|]. intros o Ho.
  destruct (disconnect st1 self !! o) as [n|] eqn:Hn.
  - destruct (Hact o n Hn) as (n' & Hn' & _ & Hsame).
    rewrite Hn'. f_equal. apply Hsame.
    intros Hr. apply rtc_inv in Hr.
    destruct Hr as [Heq|(y & (m & s & j & Hm & Hg) & _)]; [congruence|].
    assert (m = me2) by congruence. subst m.
    rewrite Hnolink in Hg. discriminate.
  - apply lookup_ge_None. apply lookup_ge_None in Hn. lia.
Qed.

End ConnectRoundTrip.

Lemma connect_disconnect_restores_isolation_witness :
  closed plain_pair
  /\ plain_pair !! 0 = Some (bar None [] [])
  /\ prev (bar None [] []) = [] /\ next (bar None [] []) = [] /\ 0 <> 1
  /\ connect (H := example_libm) plain_pair 0 (KStr "A") 1 (KStr "B")
       (0, 0)%float false true = Ok plain_pair_connected
  /\ (exists me2,
         disconnect plain_pair_connected 0 !! 0 = Some me2
         /\ forall s k, Dict.get k (links s me2) = None)
  /\ exists st3,
       translate (disconnect plain_pair_connected 0) 0 (1, 2)%float = Ok st3
       /\ forall o, o <> 0 ->
                    st3 !! o = disconnect plain_pair_connected 0 !! o.
Proof.
  assert (Hc : closed plain_pair)
    by (repeat (constructor; simpl; try lia)).
  assert (Hcn : connect (H := example_libm) plain_pair 0 (KStr "A") 1
                  (KStr "B") (0, 0)%float false true
                = Ok plain_pair_connected)
    by (vm_compute; reflexivity).
  split; [exact Hc|]. split; [reflexivity|]. split; [reflexivity|].
  split; [reflexivity|]. split; [lia|]. split; [exact Hcn|].
  exact (connect_disconnect_restores_isolation (H := example_libm)
           plain_pair plain_pair_connected 0 (KStr "A") 1 (KStr "B")
           (0, 0)%float true (bar None [] []) (1, 2)%float
           Hc eq_refl eq_refl eq_refl ltac:(lia) Hcn).
Defined.
